(** * AHP decision tool: the decision engine of [src/App.js]

    A shallow embedding of the computational core of the tool
    (weights, consistency, formula evaluation, interpolation, utility
    scoring, aggregation and ranking, the pairwise-matrix mutator) and
    the properties its specification states about it.

    The engine computes with JavaScript numbers.  Every function of the
    source is embedded once, over an interface [JSNumber] of the
    numeric operations the source uses, and the interface has two
    instances:

    - [F64]: IEEE-754 binary64, the numbers the program really computes
      with (round to nearest even, NaN, infinities, signed zeros);
    - [xnum]: exact rationals extended with NaN and the two infinities,
      the same operations without rounding, overflow or signed zero.

    Structural properties are proved for every instance, algebraic ones
    over [xnum], and concrete runs are evaluated in [F64]. *)

From Stdlib Require Import ZArith QArith Qcanon Floats Lia Lqa Ascii String.
From stdpp Require Import gmap strings list sorting.

Set Default Proof Using "Type".
Local Open Scope string_scope.
Local Open Scope char_scope.
Local Open Scope Z_scope.

(** ** JavaScript numbers *)

(** The operations of the source on numbers: decimal literals,
    [+ - * /], unary minus, [<], [<=], [===], [isNaN], [Math.max] and
    [Math.min].  [lit m e] is the literal [m * 10^e]. *)
Class JSNumber (num : Type) : Type := {
  lit : Z -> Z -> num;
  add : num -> num -> num;
  sub : num -> num -> num;
  mul : num -> num -> num;
  div : num -> num -> num;
  opp : num -> num;
  ltb : num -> num -> bool;
  leb : num -> num -> bool;
  eqb : num -> num -> bool;
  isNaN : num -> bool;
  Math_max : num -> num -> num;
  Math_min : num -> num -> num
}.

Section NumberSyntax.
Context {num : Type} `{JSNumber num}.

Definition zero : num := lit 0 0.
Definition one : num := lit 1 0.
Definition NaN : num := div zero zero.
Definition Infinity : num := div one zero.
(** An array length or an index used as a number. *)
Definition of_nat (n : nat) : num := lit (Z.of_nat n) 0.
(** [a > b] and [a >= b] are [b < a] and [b <= a]. *)
Definition gtb (a b : num) : bool := ltb b a.
Definition geb (a b : num) : bool := leb b a.
(** [v || 0] on a number: [0], [-0] and [NaN] are falsy. *)
Definition orZero (v : num) : num :=
  if eqb v zero || isNaN v then zero else v.
End NumberSyntax.

(** *** binary64 *)

Module F64ops.
Definition of_SF (x : spec_float) : float := SF2Prim x.

(** The binary64 value nearest to [m * 10^e] (ties to even), as the
    lexer of a JavaScript engine computes it for a decimal literal. *)
Definition lit (m e : Z) : float :=
  let s := m <? 0 in
  match Z.abs m with
  | Z0 => PrimFloat.zero
  | Zpos p =>
      if 0 <=? e
      then of_SF (binary_normalize prec emax (m * 10 ^ e) 0 false)
      else of_SF (SFdiv prec emax (S754_finite s p 0)
                    (S754_finite false (Z.to_pos (10 ^ (- e))) 0))
  | Zneg _ => PrimFloat.nan
  end.

(** [Math.max] and [Math.min]: NaN if an argument is NaN, and [+0]
    is larger than [-0]. *)
Definition max (a b : float) : float :=
  if PrimFloat.is_nan a || PrimFloat.is_nan b then PrimFloat.nan
  else if PrimFloat.ltb a b then b
  else if PrimFloat.ltb b a then a
  else if PrimFloat.get_sign a then b else a.

Definition min (a b : float) : float :=
  if PrimFloat.is_nan a || PrimFloat.is_nan b then PrimFloat.nan
  else if PrimFloat.ltb a b then a
  else if PrimFloat.ltb b a then b
  else if PrimFloat.get_sign b then b else a.
End F64ops.

#[export] Instance F64 : JSNumber float := {|
  lit := F64ops.lit;
  add := PrimFloat.add;
  sub := PrimFloat.sub;
  mul := PrimFloat.mul;
  div := PrimFloat.div;
  opp := PrimFloat.opp;
  ltb := PrimFloat.ltb;
  leb := PrimFloat.leb;
  eqb := PrimFloat.eqb;
  isNaN := PrimFloat.is_nan;
  Math_max := F64ops.max;
  Math_min := F64ops.min
|}.

(** *** Exact extended rationals *)

Inductive xnum : Type :=
| XNaN
| XInf (negative : bool)
| XFin (q : Qc).

Module Xops.
Local Open Scope Qc_scope.

Definition qltb (p q : Qc) : bool :=
  match p ?= q with Lt => true | _ => false end.
Definition qleb (p q : Qc) : bool :=
  match p ?= q with Gt => false | _ => true end.
Definition qeqb (p q : Qc) : bool :=
  match p ?= q with Eq => true | _ => false end.

Definition pow10 (e : Z) : Qc :=
  match e with
  | Z0 => 1
  | Zpos p => Q2Qc (inject_Z (10 ^ Zpos p))
  | Zneg p => Q2Qc (/ inject_Z (10 ^ Zpos p))
  end.

Definition lit (m e : Z) : xnum := XFin (Q2Qc (inject_Z m) * pow10 e).

Definition add (a b : xnum) : xnum :=
  match a, b with
  | XNaN, _ | _, XNaN => XNaN
  | XInf s, XInf t => if Bool.eqb s t then XInf s else XNaN
  | XInf s, XFin _ | XFin _, XInf s => XInf s
  | XFin p, XFin q => XFin (p + q)
  end.

Definition opp (a : xnum) : xnum :=
  match a with
  | XNaN => XNaN
  | XInf s => XInf (negb s)
  | XFin p => XFin (- p)
  end.

Definition sub (a b : xnum) : xnum := add a (opp b).

Definition mul (a b : xnum) : xnum :=
  match a, b with
  | XNaN, _ | _, XNaN => XNaN
  | XInf s, XInf t => XInf (xorb s t)
  | XInf s, XFin q | XFin q, XInf s =>
      if qeqb q 0 then XNaN else XInf (xorb s (qltb q 0))
  | XFin p, XFin q => XFin (p * q)
  end.

(** There is no negative zero here: [p / 0] has the sign of [p]. *)
Definition div (a b : xnum) : xnum :=
  match a, b with
  | XNaN, _ | _, XNaN => XNaN
  | XInf _, XInf _ => XNaN
  | XInf s, XFin q => XInf (xorb s (qltb q 0))
  | XFin _, XInf _ => XFin 0
  | XFin p, XFin q =>
      if qeqb q 0
      then (if qeqb p 0 then XNaN else XInf (qltb p 0))
      else XFin (p / q)
  end.

Definition ltb (a b : xnum) : bool :=
  match a, b with
  | XNaN, _ | _, XNaN => false
  | XInf s, XInf t => s && negb t
  | XInf s, XFin _ => s
  | XFin _, XInf t => negb t
  | XFin p, XFin q => qltb p q
  end.

Definition eqb (a b : xnum) : bool :=
  match a, b with
  | XNaN, _ | _, XNaN => false
  | XInf s, XInf t => Bool.eqb s t
  | XFin p, XFin q => qeqb p q
  | _, _ => false
  end.

Definition leb (a b : xnum) : bool := ltb a b || eqb a b.

Definition isNaN (a : xnum) : bool :=
  match a with XNaN => true | _ => false end.

Definition max (a b : xnum) : xnum :=
  if isNaN a || isNaN b then XNaN else if ltb a b then b else a.
Definition min (a b : xnum) : xnum :=
  if isNaN a || isNaN b then XNaN else if ltb b a then b else a.
End Xops.

#[export] Instance Exact : JSNumber xnum := {|
  lit := Xops.lit;
  add := Xops.add;
  sub := Xops.sub;
  mul := Xops.mul;
  div := Xops.div;
  opp := Xops.opp;
  ltb := Xops.ltb;
  leb := Xops.leb;
  eqb := Xops.eqb;
  isNaN := Xops.isNaN;
  Math_max := Xops.max;
  Math_min := Xops.min
|}.

(** ** JavaScript strings and values *)

(** A string is a sequence of code units; the code units of [string]
    are the 256 of Latin-1. *)

Definition code (c : ascii) : N := Ascii.N_of_ascii c.

Definition isDigit (c : ascii) : bool := ((48 <=? code c) && (code c <=? 57))%N.

Definition digitVal (c : ascii) : Z := Z.of_N (code c) - 48.

(** [WhiteSpace] and [LineTerminator] below U+0100: the class [\s] of
    regular expressions and the characters [parseFloat] skips. *)
Definition isWhiteSpace (c : ascii) : bool :=
  ((9 <=? code c) && (code c <=? 13) || (code c =? 32) || (code c =? 160))%N.

Fixpoint string_forallb (p : ascii -> bool) (s : string) : bool :=
  match s with
  | EmptyString => true
  | String c s' => p c && string_forallb p s'
  end.

Definition string_existsb (p : ascii -> bool) (s : string) : bool :=
  negb (string_forallb (fun c => negb (p c)) s).

Fixpoint trimStart (s : string) : string :=
  match s with
  | String c s' => if isWhiteSpace c then trimStart s' else s
  | EmptyString => EmptyString
  end.

Fixpoint trimEnd (s : string) : string :=
  match s with
  | EmptyString => EmptyString
  | String c s' =>
      match trimEnd s' with
      | EmptyString => if isWhiteSpace c then EmptyString else String c EmptyString
      | t => String c t
      end
  end.

(** The digits at the head of [s] in base [b]: their value, how many
    they are, and the rest of [s]. *)
Definition baseDigit (b : Z) (c : ascii) : option Z :=
  let n := code c in
  let v := if ((48 <=? n) && (n <=? 57))%N then Z.of_N n - 48
           else if ((97 <=? n) && (n <=? 102))%N then Z.of_N n - 87
           else if ((65 <=? n) && (n <=? 70))%N then Z.of_N n - 55
           else b in
  if v <? b then Some v else None.

Fixpoint takeDigits (b : Z) (s : string) (acc : Z) (count : Z) : Z * Z * string :=
  match s with
  | String c s' =>
      match baseDigit b c with
      | Some d => takeDigits b s' (acc * b + d) (count + 1)
      | None => (acc, count, s)
      end
  | EmptyString => (acc, count, s)
  end.

Fixpoint dropPrefix (p s : string) : option string :=
  match p, s with
  | EmptyString, _ => Some s
  | String a p', String c s' => if Ascii.eqb a c then dropPrefix p' s' else None
  | String _ _, EmptyString => None
  end.

Section Values.
Context {num : Type} `{JSNumber num}.

(** The values that reach the engine: what a formula over the
    whitelisted characters can denote, and what an entered
    performance value can be.  An object carries the text its
    conversion to a primitive gives (a function its source text, a
    regular expression its pattern).  [null] is not among them: it
    is the evaluator's failure signal, modelled with [option]. *)
Inductive jsval : Type :=
| VUndefined
| VNumber (n : num)
| VString (s : string)
| VObject (repr : string).

(** [ExponentPart], consumed only when it is complete. *)
Definition exponentPart (s : string) : Z * string :=
  match s with
  | String c s' =>
      if Ascii.eqb c "e" || Ascii.eqb c "E" then
        let '(neg, s'') :=
          match s' with
          | String "-" r => (true, r)
          | String "+" r => (false, r)
          | _ => (false, s')
          end in
        let '(v, n, rest) := takeDigits 10 s'' 0 0 in
        if n =? 0 then (0, s) else ((if neg then - v else v), rest)
      else (0, s)
  | EmptyString => (0, s)
  end.

(** The longest prefix of [s] that is a [StrUnsignedDecimalLiteral],
    with its value. *)
Definition strUnsignedDecimal (s : string) : option (num * string) :=
  match dropPrefix "Infinity" s with
  | Some rest => Some (Infinity, rest)
  | None =>
      let '(i, ni, r1) := takeDigits 10 s 0 0 in
      let '(f, nf, r2) :=
        match r1 with
        | String "." r =>
            let '(f, nf, r') := takeDigits 10 r 0 0 in
            if (ni =? 0) && (nf =? 0) then (0, 0, r1) else (f, nf, r')
        | _ => (0, 0, r1)
        end in
      if (ni =? 0) && (nf =? 0) then None
      else
        let '(ex, r3) := exponentPart r2 in
        Some (lit (i * 10 ^ nf + f) (ex - nf), r3)
  end.

Definition strDecimal (s : string) : option (num * string) :=
  match s with
  | String "-" r =>
      match strUnsignedDecimal r with
      | Some (v, rest) => Some (opp v, rest)
      | None => None
      end
  | String "+" r => strUnsignedDecimal r
  | _ => strUnsignedDecimal s
  end.

(** [parseFloat] on a string. *)
Definition parseFloat_string (s : string) : num :=
  match strDecimal (trimStart s) with
  | Some (v, _) => v
  | None => NaN
  end.

(** [0x], [0o] and [0b] literals, which [Number(s)] accepts. *)
Definition nonDecimal (s : string) : option num :=
  match s with
  | String "0" (String c r) =>
      let b := if Ascii.eqb c "x" || Ascii.eqb c "X" then 16
               else if Ascii.eqb c "o" || Ascii.eqb c "O" then 8
               else if Ascii.eqb c "b" || Ascii.eqb c "B" then 2
               else 0 in
      if b =? 0 then None
      else match takeDigits b r 0 0 with
           | (v, n, EmptyString) => if n =? 0 then None else Some (lit v 0)
           | _ => None
           end
  | _ => None
  end.

(** [StringToNumber]: the whole trimmed string is a numeric literal. *)
Definition StringToNumber (s : string) : num :=
  match trimEnd (trimStart s) with
  | EmptyString => zero
  | t =>
      match nonDecimal t with
      | Some v => v
      | None =>
          match strDecimal t with
          | Some (v, EmptyString) => v
          | _ => NaN
          end
      end
  end.

Definition ToNumber (v : jsval) : num :=
  match v with
  | VUndefined => NaN
  | VNumber n => n
  | VString s | VObject s => StringToNumber s
  end.

(** [parseFloat(v)] parses [String(v)].  The text of a number reads
    back as that number, [-0] printing as ["0"]; ["undefined"]
    starts with no number. *)
Definition parseFloat (v : jsval) : num :=
  match v with
  | VNumber n => if eqb n zero then zero else n
  | VString s | VObject s => parseFloat_string s
  | VUndefined => NaN
  end.

(** The global [isNaN(v)]. *)
Definition isNaN_global (v : jsval) : bool := isNaN (ToNumber v).

(** [label === v] for a string [label]. *)
Definition strictEqString (label : string) (v : jsval) : bool :=
  match v with
  | VString s => String.eqb label s
  | _ => false
  end.
End Values.

Arguments jsval num : clear implicits.

(** ** Arrays *)

Section Arrays.
Context {num : Type} `{JSNumber num}.

(** A read [a[i]] used as a number: out of range it is [undefined],
    which arithmetic turns into NaN. *)
Definition getNum (a : list num) (i : nat) : num := default NaN (a !! i).

(** A write [a[i] = v].  Past the end JavaScript extends the array;
    the slots skipped over read as [undefined]. *)
Definition setNum (a : list num) (i : nat) (v : num) : list num :=
  if (i <? length a)%nat then <[i := v]> a
  else a ++ replicate (i - length a) NaN ++ [v].

(** [for (let i = 0; i < n; i++) st = body i st]. *)
Definition forLoop {S : Type} (n : nat) (body : nat -> S -> S) (st : S) : S :=
  fold_left (fun st i => body i st) (seq 0 n) st.

(** [Array.prototype.sort] with a comparison function: the sort is
    stable, an element moves behind another only when the comparison
    is positive, and a NaN comparison counts as [0].  For a consistent
    comparison function every conforming sort returns this array. *)
Fixpoint sortInsert {A : Type} (cmp : A -> A -> num) (a : A) (l : list A) : list A :=
  match l with
  | [] => [a]
  | b :: l' => if gtb (cmp a b) zero then b :: sortInsert cmp a l' else a :: l
  end.

Definition Array_sort {A : Type} (cmp : A -> A -> num) (l : list A) : list A :=
  fold_right (sortInsert cmp) [] l.

(** [a.reduce((sum, val) => sum + val, 0)]. *)
Definition sumArray (a : list num) : num := fold_left add a zero.
End Arrays.

(** ** Weights and consistency *)

(** A pairwise matrix is an array of rows. *)
Abbreviation matrix num := (list (list num)).

Section AHP.
Context {num : Type} `{JSNumber num}.

(** [matrix[i][j]] read as a number. *)
Definition entry (m : matrix num) (i j : nat) : num :=
  getNum (default [] (m !! i)) j.

(** [columnSums[j] += matrix[i][j]] for every [j], then every [i]. *)
Definition columnSumsOf (m : matrix num) (numCriteria : nat) : list num :=
  forLoop numCriteria (fun j columnSums =>
    forLoop numCriteria (fun i columnSums =>
      setNum columnSums j (add (getNum columnSums j) (entry m i j)))
      columnSums)
    (replicate numCriteria zero).

Definition calculateWeights (pairwiseMatrix : matrix num) : list num :=
  if (length pairwiseMatrix =? 0)%nat then []
  else
    let numCriteria := length pairwiseMatrix in
    let columnSums := columnSumsOf pairwiseMatrix numCriteria in
    let normalizedMatrix :=
      forLoop numCriteria (fun j normalizedMatrix =>
        if eqb (getNum columnSums j) zero then normalizedMatrix
        else
          forLoop numCriteria (fun i normalizedMatrix =>
            alter (fun row => setNum row j (div (getNum row j) (getNum columnSums j)))
              i normalizedMatrix)
            normalizedMatrix)
        pairwiseMatrix in
    forLoop numCriteria (fun i weights =>
      setNum weights i
        (div (sumArray (default [] (normalizedMatrix !! i))) (of_nat numCriteria)))
      (replicate numCriteria zero).

Definition normalizeMatrix (m : matrix num) : matrix num :=
  let numCriteria := length m in
  let columnSums := columnSumsOf m numCriteria in
  forLoop numCriteria (fun i normalized =>
    forLoop numCriteria (fun j normalized =>
      alter (fun row => setNum row j (div (entry m i j) (getNum columnSums j)))
        i normalized)
      normalized)
    (replicate numCriteria (replicate numCriteria zero)).

Record Consistency : Type := { cr : num; isConsistent : bool }.

(** Random Index (RI) from Saaty's scale for n = 1 to 10. *)
Definition riMap : list num :=
  [lit 0 0; lit 0 0; lit 58 (-2); lit 9 (-1); lit 112 (-2); lit 124 (-2);
   lit 132 (-2); lit 141 (-2); lit 145 (-2); lit 149 (-2)].

(** [riMap[numCriteria-1] || 1.49]; [numCriteria] is at least 3 where
    this is evaluated, so the index is a natural number. *)
Definition riOf (numCriteria : nat) : num :=
  match riMap !! (numCriteria - 1)%nat with
  | Some v => if eqb v zero || isNaN v then lit 149 (-2) else v
  | None => lit 149 (-2)
  end.

Definition calculateConsistency (pairwiseMatrix : matrix num) (weights : list num)
  : Consistency :=
  let numCriteria := length pairwiseMatrix in
  if (numCriteria <=? 2)%nat then {| cr := zero; isConsistent := true |}
  else
    let weightedSumVector :=
      forLoop numCriteria (fun i weightedSumVector =>
        forLoop numCriteria (fun j weightedSumVector =>
          setNum weightedSumVector i
            (add (getNum weightedSumVector i)
               (mul (entry pairwiseMatrix i j) (getNum weights j))))
          weightedSumVector)
        (replicate numCriteria zero) in
    let consistencyVector :=
      forLoop numCriteria (fun i consistencyVector =>
        if negb (eqb (getNum weights i) zero)
        then setNum consistencyVector i
               (div (getNum weightedSumVector i) (getNum weights i))
        else consistencyVector)
        (replicate numCriteria zero) in
    let lambdaMax := div (sumArray consistencyVector) (of_nat numCriteria) in
    let ci := div (sub lambdaMax (of_nat numCriteria))
                (sub (of_nat numCriteria) one) in
    let ri := riOf numCriteria in
    let cr := if eqb ri zero then zero else div ci ri in
    {| cr := cr; isConsistent := ltb cr (lit 1 (-1)) |}.

Definition checkConsistency (m : matrix num) : Consistency :=
  let weights := calculateWeights (normalizeMatrix m) in
  calculateConsistency m weights.
End AHP.

Arguments Consistency num : clear implicits.

(** ** The expression evaluator *)

(** The character class of [/[^x\d\s()+\-*/.]/] is the complement of
    these characters. *)
Definition whitelisted (c : ascii) : bool :=
  Ascii.eqb c "x" || isDigit c || isWhiteSpace c
  || Ascii.eqb c "(" || Ascii.eqb c ")" || Ascii.eqb c "+" || Ascii.eqb c "-"
  || Ascii.eqb c "*" || Ascii.eqb c "/" || Ascii.eqb c ".".

(** [/[^x\d\s()+\-*/.]/.test(expr)]. *)
Definition testForbidden (expr : string) : bool :=
  string_existsb (fun c => negb (whitelisted c)) expr.

Section Host.
Context {num : Type} `{JSNumber num}.

(** How a call ends: with a value, or with an exception. *)
Inductive completion : Type :=
| Return (v : jsval num)
| Throw.

(** The host's [Function] constructor.  [Function_ p body] is
    [new Function(p, body)]: [None] when the text does not compile (a
    [SyntaxError]), otherwise the function, which runs in the global
    environment, may read and change it, and returns or throws. *)
Record Host : Type := {
  globals : Type;
  Function_ : string -> string -> option (jsval num -> globals -> completion * globals)
}.

Variable host : Host.

(** [None] is [null], the failure signal. *)
Definition safeEval (expr : string) (x : num) (g : globals host)
  : option (jsval num) * globals host :=
  if testForbidden expr then (None, g)
  else
    match Function_ host "x" ("return " ++ expr) with
    | None => (None, g)
    | Some func =>
        match func (VNumber x) g with
        | (Return result, g') =>
            ((if isNaN_global result then None else Some result), g')
        | (Throw, g') => (None, g')
        end
    end.
End Host.

Arguments Host num : clear implicits.
Arguments completion num : clear implicits.

(** ** Interpolation *)

Section Interpolation.
Context {num : Type} `{JSNumber num}.

Record Point : Type := { pt_x : num; pt_y : num }.

(** [while (i < sortedPoints.length && sortedPoints[i].x < x) i++],
    started at [i]. *)
Fixpoint whileBelow (x : num) (sortedPoints : list Point) (i : nat) : nat :=
  match sortedPoints with
  | [] => i
  | p :: rest => if ltb (pt_x p) x then whileBelow x rest (S i) else i
  end.

(** [None] is the [TypeError] of reading [.x] or [.y] of
    [undefined]. *)
Definition interpolate (x : num) (points : list Point) : option num :=
  if (length points =? 0)%nat then Some zero
  else if (length points =? 1)%nat then pt_y <$> points !! 0%nat
  else
    let sortedPoints := Array_sort (fun a b => sub (pt_x a) (pt_x b)) points in
    first ← sortedPoints !! 0%nat;
    if leb x (pt_x first) then Some (pt_y first)
    else
      last ← sortedPoints !! (length sortedPoints - 1)%nat;
      if geb x (pt_x last) then Some (pt_y last)
      else
        let i := whileBelow x sortedPoints 0 in
        p1 ← (if (i =? 0)%nat then None else sortedPoints !! (i - 1)%nat);
        p2 ← sortedPoints !! i;
        if eqb (pt_x p1) (pt_x p2) then Some (pt_y p1)
        else
          let slope := div (sub (pt_y p2) (pt_y p1)) (sub (pt_x p2) (pt_x p1)) in
          Some (add (pt_y p1) (mul slope (sub x (pt_x p1)))).
End Interpolation.

Arguments Point num : clear implicits.

(** ** Utility scoring *)

(** Computations that run formulas: they read and change the host's
    global environment and may end with an exception ([None]). *)
Definition M (G A : Type) : Type := G -> option A * G.

Definition ret {G A : Type} (a : A) : M G A := fun g => (Some a, g).

Definition bind {G A B : Type} (m : M G A) (k : A -> M G B) : M G B :=
  fun g => match m g with
           | (Some a, g') => k a g'
           | (None, g') => (None, g')
           end.

(** A computation that cannot throw. *)
Definition total {G A : Type} (f : G -> A * G) : M G A :=
  fun g => let '(a, g') := f g in (Some a, g').

(** A pure computation that may throw. *)
Definition orThrow {G A : Type} (o : option A) : M G A := fun g => (o, g).

#[export] Instance M_ret {G : Type} : MRet (M G) := fun A => @ret G A.
#[export] Instance M_bind {G : Type} : MBind (M G) := fun A B k m => @bind G A B m k.

(** [l.forEach(a => st = body a st)]. *)
Fixpoint forEach {G A S : Type} (l : list A) (body : A -> S -> M G S) (st : S)
  : M G S :=
  match l with
  | [] => ret st
  | a :: l' => st' ← body a st; forEach l' body st'
  end.

Section Scoring.
Context {num : Type} `{JSNumber num}.

(** A criterion or an option. *)
Record Item : Type := { item_id : string; content : string }.

Record Level : Type := { label : string; utility : num }.

Record UtilityFunction : Type := {
  criterionType : string;
  mode : string;
  formulaString : string;
  points : list (Point num);
  qualitativeLevels : list Level
}.

(** Objects used as maps, keyed by criterion and option ids. *)
Abbreviation grid A := (gmap string (gmap string A)).

(** [o[a]?.[b]]. *)
Definition lookup2 {A : Type} (o : grid A) (a b : string) : option A :=
  row ← o !! a; row !! b.

(** [o[a][b] = v], the row [o[a]] being there. *)
Definition insert2 {A : Type} (o : grid A) (a b : string) (v : A) : grid A :=
  alter (insert b v) a o.

(** *** Properties of strings *)

(** [inherited k] is the member called [k] that a string finds on its
    prototype chain, as the text it converts to. *)
Variable inherited : string -> option string.

(** The keys ["0"], ["1"], ["2"], ...: no sign, no leading zero. *)
Definition canonicalIndex (k : string) : option nat :=
  match k with
  | EmptyString => None
  | String c r =>
      if isDigit c && string_forallb isDigit r
         && (negb (Ascii.eqb c "0") || String.eqb r "")
      then Some (Z.to_nat (takeDigits 10 k 0 0).1.1)
      else None
  end.

(** [s[k]] for a string [s]: a character, the length, an inherited
    member, or [undefined]. *)
Definition stringGet (s k : string) : jsval num :=
  match i ← canonicalIndex k; String.get i s with
  | Some c => VString (String c EmptyString)
  | None =>
      if String.eqb k "length" then VNumber (of_nat (String.length s))
      else match inherited k with
           | Some repr => VObject repr
           | None => VUndefined
           end
  end.

Variable host : Host num.
Abbreviation G := (globals host).

(** The body both scoring loops share, from [const func = ...] to the
    clamped value, [raw] being the performance value they read. *)
Definition scoreCell (func : option UtilityFunction) (raw : jsval num)
  : M G num :=
  utility ←
    match func with
    | None => ret (VNumber zero)
    | Some func =>
        if String.eqb (criterionType func) "qualitative" then
          let selectedLabel := raw in
          match find (fun l => strictEqString (label l) selectedLabel)
                  (qualitativeLevels func) with
          | Some level => ret (VNumber (utility level))
          | None => ret (VNumber zero)
          end
        else
          let value := parseFloat raw in
          if negb (isNaN value) then
            if String.eqb (mode func) "formula"
               && negb (String.eqb (formulaString func) "")
            then
              result ← total (safeEval host (formulaString func) value);
              ret (match result with
                   | Some result => result
                   | None => VNumber zero
                   end)
            else if String.eqb (mode func) "table"
                    && (0 <? length (points func))%nat
            then
              y ← orThrow (interpolate value (points func));
              ret (VNumber y)
            else ret (VNumber zero)
          else ret (VNumber zero)
    end;
  ret (Math_max zero (Math_min (lit 100 0) (ToNumber utility))).

(** The two loops.  [calculateOptionValues] takes no entered values:
    it reads [option.id[criterion.id]]. *)
Definition calculateOptionValues (options criteria : list Item)
    (utilityFunctions : gmap string UtilityFunction) : M G (grid num) :=
  forEach options (fun option newOptionValues =>
    forEach criteria (fun criterion newOptionValues =>
      v ← scoreCell (utilityFunctions !! item_id criterion)
                (stringGet (item_id option) (item_id criterion));
      ret (insert2 newOptionValues (item_id option) (item_id criterion) v))
      (<[item_id option := ∅]> newOptionValues))
    ∅.

Definition calculateScores (options criteria : list Item)
    (optionValues : grid (jsval num))
    (utilityFunctions : gmap string UtilityFunction) : M G (grid num) :=
  forEach options (fun option newUtilityScores =>
    forEach criteria (fun criterion newUtilityScores =>
      v ← scoreCell (utilityFunctions !! item_id criterion)
                (default VUndefined
                   (lookup2 optionValues (item_id option) (item_id criterion)));
      ret (insert2 newUtilityScores (item_id option) (item_id criterion) v))
      (<[item_id option := ∅]> newUtilityScores))
    ∅.

(** *** Aggregation and ranking *)

(** [v || 0] where [v] may be missing. *)
Definition orZero' (v : option num) : num :=
  match v with
  | Some v => orZero v
  | None => zero
  end.

(** The weighted sum of one option, [criteria.forEach((criterion,
    index) => ...)]. *)
Definition totalScoreOf (option : Item) (criteria : list Item)
    (weights : list num) (optionValues : grid num) : num :=
  fold_left (fun totalScore '(index, criterion) =>
    let utility := orZero' (lookup2 optionValues (item_id option) (item_id criterion)) in
    let weight := orZero' (weights !! index) in
    add totalScore (mul utility weight))
    (imap (fun index criterion => (index, criterion)) criteria) zero.

Record FinalScore : Type := { optionId : string; score : num }.

Definition calculateFinalScores (options criteria : list Item)
    (weights : list num) (optionValues : grid num) : list FinalScore :=
  fold_left (fun scores option =>
    (scores ++ [{| optionId := item_id option;
                   score := totalScoreOf option criteria weights optionValues |}])%list)
    options [].

(** [Step5]: the scores as an object keyed by option id. *)
Definition Step5_finalScores (options criteria : list Item)
    (weights : list num) (utilityScores : grid num) : gmap string num :=
  fold_left (fun scores option =>
    <[item_id option := totalScoreOf option criteria weights utilityScores]> scores)
    options ∅.

(** An option with its score, [{...o, score}]. *)
Record ScoredOption : Type := { so_option : Item; so_score : num }.

Definition byScoreDescending (a b : ScoredOption) : num :=
  sub (so_score b) (so_score a).

Definition Step5_sortedOptions (options : list Item)
    (finalScores : gmap string num) : list ScoredOption :=
  Array_sort byScoreDescending
    (map (fun o => {| so_option := o;
                      so_score := orZero' (finalScores !! item_id o) |})
       options).

(** [App]: the scores as the list [calculateFinalScores] returns. *)
Definition App_sortedOptions (options : list Item)
    (finalScores : list FinalScore) : list ScoredOption :=
  if (length finalScores =? 0)%nat then []
  else
    let enrichedOptions :=
      map (fun opt =>
             {| so_option := opt;
                so_score :=
                  orZero' (score <$> find (fun s => String.eqb (optionId s) (item_id opt))
                                       finalScores) |})
        options in
    Array_sort byScoreDescending enrichedOptions.

(** [App]'s [finalScores] memo: weights and scores recomputed from
    the state, any exception caught and turned into [[]]. *)
Definition App_finalScores (criteria options : list Item)
    (pairwiseMatrix : matrix num)
    (utilityFunctions : gmap string UtilityFunction) (g : G)
  : list FinalScore * G :=
  if (length criteria =? 0)%nat || (length options =? 0)%nat then ([], g)
  else
    let normalizedMatrix := normalizeMatrix pairwiseMatrix in
    let weights := calculateWeights normalizedMatrix in
    match calculateOptionValues options criteria utilityFunctions g with
    | (Some calculatedOptionValues, g') =>
        (calculateFinalScores options criteria weights calculatedOptionValues, g')
    | (None, g') => ([], g')
    end.
End Scoring.

Arguments Item : clear implicits.
Arguments Level num : clear implicits.
Arguments UtilityFunction num : clear implicits.
Arguments FinalScore num : clear implicits.
Arguments ScoredOption num : clear implicits.

(** ** The pairwise-matrix mutator *)

Section Mutator.
Context {num : Type} `{JSNumber num}.

(** [ComparisonSlider]: the matrix value of a slider position, the
    text of the range input. *)
Definition handleSliderChange (targetValue : string) : num :=
  let newSliderValue := parseFloat (VString targetValue) in
  if leb newSliderValue zero then add (opp newSliderValue) one
  else div one (add newSliderValue one).

(** [Step2]: a copy of the matrix with [(i, j)] and its mirror set;
    [None] is the [TypeError] of writing into a row that is not
    there. *)
Definition handleComparisonChange (pairwiseMatrix : matrix num) (i j : nat)
    (newValue : num) : option (matrix num) :=
  let newMatrix := pairwiseMatrix in
  row_i ← newMatrix !! i;
  let newMatrix := <[i := setNum row_i j newValue]> newMatrix in
  row_j ← newMatrix !! j;
  Some (<[j := setNum row_j i (div one newValue)]> newMatrix).
End Mutator.

(** ** A reference host

    The host's [Function] constructor is outside the source.  The
    theorems on the evaluator hold for every [Host]; the concrete runs
    use this one, which compiles the arithmetic fragment of JavaScript
    expressions

      [e ::= number | identifier | (e) | +e | -e | e+e | e-e | e*e | e/e]

    with decimal literals and JavaScript's precedences, and resolves an
    identifier other than the parameter in the global environment (a
    [ReferenceError] when it is not bound).  Its global environment
    binds names to numbers.  Everything outside the fragment (comments,
    regular expressions, [++], [--], [**], member access, calls, line
    terminators, hexadecimal and legacy octal literals) is refused as a
    [SyntaxError]. *)

Module RefHost.
Section Engine.
Context {num : Type} `{JSNumber num}.

Inductive token : Type :=
| TNum (m e : Z)
| TId (name : string)
| TOp (c : ascii).

Inductive expr : Type :=
| ENum (m e : Z)
| EId (name : string)
| EUnary (op : ascii) (e : expr)
| EBinary (op : ascii) (l r : expr).

Definition isIdentPart (c : ascii) : bool := Ascii.eqb c "x" || isDigit c.

Fixpoint takeWhile (p : ascii -> bool) (s : string) : string * string :=
  match s with
  | String c s' =>
      if p c then let '(a, b) := takeWhile p s' in (String c a, b) else (EmptyString, s)
  | EmptyString => (EmptyString, EmptyString)
  end.

Definition startsWith (p : ascii -> bool) (s : string) : bool :=
  match s with
  | String c _ => p c
  | EmptyString => false
  end.

(** A numeric literal [digits], [digits.digits] or [.digits] at the
    head of [s]. *)
Definition lexNumber (s : string) : option (token * string) :=
  let '(i, ni, r1) := takeDigits 10 s 0 0 in
  let '(f, nf, r2) :=
    match r1 with
    | String "." r => takeDigits 10 r 0 0
    | _ => (0, 0, r1)
    end in
  if (ni =? 0) && (nf =? 0) then None
  else if (1 <? ni) && startsWith (Ascii.eqb "0") s then None
  else if startsWith (fun c => isIdentPart c || Ascii.eqb c ".") r2 then None
  else Some (TNum (i * 10 ^ nf + f) (- nf), r2).

Fixpoint lex (fuel : nat) (s : string) : option (list token) :=
  match fuel with
  | O => None
  | S fuel =>
      match s with
      | EmptyString => Some []
      | String c s' =>
          if ((code c =? 10) || (code c =? 13))%N then None
          else if isWhiteSpace c then lex fuel s'
          else if isDigit c || Ascii.eqb c "." then
            '(t, rest) ← lexNumber s;
            ts ← lex fuel rest;
            Some (t :: ts)
          else if Ascii.eqb c "x" then
            let '(name, rest) := takeWhile isIdentPart s in
            if startsWith (Ascii.eqb ".") rest then None
            else ts ← lex fuel rest; Some (TId name :: ts)
          else if (Ascii.eqb c "+" || Ascii.eqb c "-" || Ascii.eqb c "*")
                  && startsWith (Ascii.eqb c) s' then None
          else if Ascii.eqb c "/"
                  && startsWith (fun d => Ascii.eqb d "/" || Ascii.eqb d "*") s' then None
          else if whitelisted c then ts ← lex fuel s'; Some (TOp c :: ts)
          else None
      end
  end.

(** Binary operators by level: 0 is additive, 1 multiplicative. *)
Definition binaryAt (level : nat) (c : ascii) : bool :=
  match level with
  | 0%nat => Ascii.eqb c "+" || Ascii.eqb c "-"
  | 1%nat => Ascii.eqb c "*" || Ascii.eqb c "/"
  | _ => false
  end.

Fixpoint parse (fuel : nat) (level : nat) (ts : list token)
  : option (expr * list token) :=
  match fuel with
  | O => None
  | S fuel =>
      if (level <? 2)%nat then
        '(l, rest) ← parse fuel (S level) ts;
        parseTail fuel level l rest
      else
        match ts with
        | TNum m e :: rest => Some (ENum m e, rest)
        | TId name :: rest => Some (EId name, rest)
        | TOp c :: rest =>
            if Ascii.eqb c "+" || Ascii.eqb c "-" then
              '(e, rest') ← parse fuel 2 rest;
              Some (EUnary c e, rest')
            else if Ascii.eqb c "(" then
              '(e, rest') ← parse fuel 0 rest;
              match rest' with
              | TOp d :: rest'' => if Ascii.eqb d ")" then Some (e, rest'') else None
              | _ => None
              end
            else None
        | [] => None
        end
  end
with parseTail (fuel : nat) (level : nat) (l : expr) (ts : list token)
  : option (expr * list token) :=
  match fuel with
  | O => None
  | S fuel =>
      match ts with
      | TOp c :: rest =>
          if binaryAt level c then
            '(r, rest') ← parse fuel (S level) rest;
            parseTail fuel level (EBinary c l r) rest'
          else Some (l, ts)
      | _ => Some (l, ts)
      end
  end.

(** Evaluation, left to right; [None] is a [ReferenceError]. *)
Fixpoint eval (g : gmap string num) (x : num) (e : expr) : option num :=
  match e with
  | ENum m e => Some (lit m e)
  | EId name => if String.eqb name "x" then Some x else g !! name
  | EUnary op e =>
      v ← eval g x e;
      Some (if Ascii.eqb op "-" then opp v else v)
  | EBinary op l r =>
      a ← eval g x l;
      b ← eval g x r;
      Some (if Ascii.eqb op "+" then add a b
            else if Ascii.eqb op "-" then sub a b
            else if Ascii.eqb op "*" then mul a b
            else div a b)
  end.

Definition compileBody (body : string) : option (option expr) :=
  rest ← dropPrefix "return" body;
  ts ← lex (S (String.length rest)) rest;
  match ts with
  | [] => Some None
  | _ =>
      match parse (4 * length ts + 4) 0 ts with
      | Some (e, []) => Some (Some e)
      | _ => None
      end
  end.

Definition construct (param body : string)
  : option (jsval num -> gmap string num -> completion num * gmap string num) :=
  if String.eqb param "x" then
    e ← compileBody body;
    Some (fun arg g =>
            match e with
            | None => (Return VUndefined, g)
            | Some e =>
                match eval g (ToNumber arg) e with
                | Some v => (Return (VNumber v), g)
                | None => (Throw, g)
                end
            end)
  else None.

Definition host : Host num :=
  {| globals := gmap string num; Function_ := construct |}.
End Engine.
End RefHost.

(** * Loops over arrays, in closed form *)

Local Open Scope list_scope.

Section LoopLemmas.
Context {num : Type} `{JSNumber num}.

Lemma setNum_alter (a : list num) (i : nat) (v : num) :
  (i < length a)%nat -> setNum a i v = alter (fun _ => v) i a.
Proof.
  intros Hi. unfold setNum.
  destruct (Nat.ltb_spec i (length a)) as [_|Hge]; [|lia].
  apply list_eq. intros k. destruct (decide (k = i)) as [->|Hne].
  - rewrite list_lookup_insert_eq by done. rewrite list_lookup_alter_eq.
    by destruct (lookup_lt_is_Some_2 a i Hi) as [w ->].
  - rewrite list_lookup_insert_ne by done. by rewrite list_lookup_alter_ne.
Qed.

Lemma getNum_lookup (a : list num) (i : nat) (v : num) :
  a !! i = Some v -> getNum a i = v.
Proof. unfold getNum. by intros ->. Qed.

(** An update of slot [i] by a function of its old value. *)
Lemma setNum_update (f : num -> num) (a : list num) (i : nat) :
  (i < length a)%nat -> setNum a i (f (getNum a i)) = alter f i a.
Proof.
  intros Hi. rewrite setNum_alter by done.
  destruct (lookup_lt_is_Some_2 a i Hi) as [w Hw].
  apply list_alter_ext; [|done].
  intros v Hv. rewrite (getNum_lookup _ _ _ Hv). done.
Qed.

Lemma alter_const_insert {A : Type} (l : list A) (i : nat) (v : A) :
  alter (fun _ => v) i l = <[i := v]> l.
Proof.
  apply list_eq. intros k. destruct (decide (k = i)) as [->|Hne].
  - rewrite list_lookup_alter_eq. destruct (l !! i) eqn:E; simpl.
    + rewrite list_lookup_insert_eq; [done|]. by eapply lookup_lt_Some.
    + symmetry. apply lookup_ge_None. rewrite length_insert.
      by apply lookup_ge_None.
  - rewrite list_lookup_alter_ne by done. by rewrite list_lookup_insert_ne.
Qed.

Lemma fold_left_alter_same {A B : Type} (f : B -> A -> A) (j : nat)
    (L : list B) (l : list A) :
  fold_left (fun l b => alter (f b) j l) L l
  = alter (fun v => fold_left (fun v b => f b v) L v) j l.
Proof.
  revert l. induction L as [|b L IH]; intros l; simpl.
  - symmetry. by apply list_alter_id.
  - rewrite IH. by rewrite list_alter_alter_eq.
Qed.

Lemma fold_left_alter_seq {A : Type} (F : nat -> A -> A) (a k : nat)
    (l : list A) (i : nat) :
  fold_left (fun l i => alter (F i) i l) (seq a k) l !! i
  = if decide (a <= i < a + k)%nat then F i <$> l !! i else l !! i.
Proof.
  revert a l. induction k as [|k IH]; intros a l; simpl.
  - destruct (decide _); [lia|done].
  - rewrite IH. destruct (decide (i = a)) as [->|Hne].
    + rewrite list_lookup_alter_eq. repeat destruct (decide _); try lia; done.
    + rewrite list_lookup_alter_ne by done.
      repeat destruct (decide _); try lia; done.
Qed.

Lemma fold_left_inv {A B : Type} (P : A -> Prop) (f g : A -> B -> A)
    (L : list B) (st : A) :
  P st ->
  (forall st b, P st -> b ∈ L -> f st b = g st b /\ P (g st b)) ->
  fold_left f L st = fold_left g L st /\ P (fold_left g L st).
Proof.
  revert st. induction L as [|b L IH]; intros st HP Hstep; simpl; [done|].
  destruct (Hstep st b HP) as [-> HP']; [by left|].
  apply IH; [done|]. intros st' b' ? ?. apply Hstep; [done|by right].
Qed.

(** A loop that updates slot [i] at step [i], on an array of the
    length of the loop; [P] is what the loop keeps true. *)
Lemma forLoop_slots_inv {A : Type} (P : list A -> Prop)
    (body : nat -> list A -> list A) (F : nat -> A -> A) (n : nat) (l : list A) :
  length l = n -> P l ->
  (forall i st, (i < n)%nat -> length st = n -> P st ->
                body i st = alter (F i) i st /\ P (alter (F i) i st)) ->
  forLoop n body l = imap F l.
Proof.
  intros Hl HP Hbody. unfold forLoop.
  destruct (fold_left_inv (fun st => length st = n /\ P st)
              (fun st i => body i st) (fun st i => alter (F i) i st)
              (seq 0 n) l (conj Hl HP)) as [-> _].
  { intros st i [Hst HPst] Hi. apply elem_of_seq in Hi.
    destruct (Hbody i st) as [-> ?]; [lia|done|done|].
    by rewrite length_alter. }
  apply list_eq. intros i. rewrite fold_left_alter_seq, list_lookup_imap.
  destruct (decide _) as [|Hn]; [done|].
  rewrite (proj2 (lookup_ge_None l i)); [done|lia].
Qed.

Lemma forLoop_slots {A : Type} (body : nat -> list A -> list A)
    (F : nat -> A -> A) (n : nat) (l : list A) :
  length l = n ->
  (forall i st, (i < n)%nat -> length st = n -> body i st = alter (F i) i st) ->
  forLoop n body l = imap F l.
Proof.
  intros Hl Hbody. apply (forLoop_slots_inv (fun _ => True)); [done|done|].
  intros i st Hi Hst _. split; [by apply Hbody|done].
Qed.

(** A loop that accumulates into the one slot [j]. *)
Lemma forLoop_accumulate (body : nat -> list num -> list num)
    (f : nat -> num -> num) (j n : nat) (l : list num) :
  (j < length l)%nat ->
  (forall i st, (i < n)%nat -> length st = length l ->
                body i st = alter (f i) j st) ->
  forLoop n body l
  = alter (fun v => fold_left (fun v i => f i v) (seq 0 n) v) j l.
Proof.
  intros Hj Hbody. unfold forLoop.
  destruct (fold_left_inv (fun st => length st = length l)
              (fun st i => body i st) (fun st i => alter (f i) j st)
              (seq 0 n) l eq_refl) as [-> _].
  { intros st i Hst Hi. apply elem_of_seq in Hi. split.
    - apply Hbody; [lia|done].
    - by rewrite length_alter. }
  apply fold_left_alter_same.
Qed.
End LoopLemmas.

(** * The weight computation in closed form *)

Section WeightLemmas.
Context {num : Type} `{JSNumber num}.

(** The sum of column [j], as the loop adds it up. *)
Definition columnSum (m : matrix num) (n j : nat) : num :=
  fold_left (fun acc i => add acc (entry m i j)) (seq 0 n) zero.

Definition square (n : nat) (m : matrix num) : Prop :=
  length m = n /\ Forall (fun row => length row = n) m.

Lemma imap_replicate {A B : Type} (f : nat -> A -> B) (n : nat) (a : A) :
  imap f (replicate n a) = (fun i => f i a) <$> seq 0 n.
Proof.
  apply list_eq. intros i.
  rewrite list_lookup_imap, list_lookup_fmap.
  destruct (decide (i < n)%nat) as [Hi|Hi].
  - rewrite lookup_replicate_2, lookup_seq_lt by done. done.
  - rewrite (proj1 (lookup_replicate_None n a i)) by lia.
    rewrite lookup_seq_ge by lia. done.
Qed.

Lemma imap_lookup_seq {A B : Type} (f : nat -> A -> B) (d : A) (l : list A) :
  imap f l = (fun i => f i (default d (l !! i))) <$> seq 0 (length l).
Proof.
  apply list_eq. intros i.
  rewrite list_lookup_imap, list_lookup_fmap.
  destruct (decide (i < length l)%nat) as [Hi|Hi].
  - rewrite lookup_seq_lt by done.
    destruct (lookup_lt_is_Some_2 l i Hi) as [w Hw]. simpl. by rewrite Hw.
  - rewrite (proj2 (lookup_ge_None l i)) by lia.
    rewrite lookup_seq_ge by lia. done.
Qed.

Lemma fmap_lookup_seq {A B : Type} (f : A -> B) (d : A) (l : list A) :
  f <$> l = (fun i => f (default d (l !! i))) <$> seq 0 (length l).
Proof.
  apply list_eq. intros i. rewrite !list_lookup_fmap.
  destruct (decide (i < length l)%nat) as [Hi|Hi].
  - rewrite lookup_seq_lt by done.
    destruct (lookup_lt_is_Some_2 l i Hi) as [w Hw]. simpl. by rewrite Hw.
  - rewrite (proj2 (lookup_ge_None l i)) by lia.
    rewrite lookup_seq_ge by lia. done.
Qed.

Lemma fmap_seq_ext {B : Type} (f g : nat -> B) (n : nat) :
  (forall i, (i < n)%nat -> f i = g i) -> f <$> seq 0 n = g <$> seq 0 n.
Proof.
  intros Hfg. apply list_fmap_ext. intros k i Hi.
  apply lookup_seq in Hi as [-> ?]. apply Hfg. lia.
Qed.

Lemma columnSumsOf_closed (m : matrix num) (n : nat) :
  columnSumsOf m n = columnSum m n <$> seq 0 n.
Proof.
  unfold columnSumsOf.
  rewrite (forLoop_slots _
             (fun j v => fold_left (fun v i => add v (entry m i j)) (seq 0 n) v) n).
  - apply imap_replicate.
  - apply length_replicate.
  - intros j st Hj Hst.
    apply (forLoop_accumulate _ (fun i v => add v (entry m i j))); [lia|].
    intros i st' _ Hst'.
    apply (setNum_update (fun v => add v (entry m i j))). lia.
Qed.

Lemma getNum_columnSumsOf (m : matrix num) (n j : nat) :
  (j < n)%nat -> getNum (columnSumsOf m n) j = columnSum m n j.
Proof.
  intros Hj. apply getNum_lookup.
  rewrite columnSumsOf_closed, list_lookup_fmap, lookup_seq_lt by done. done.
Qed.

(** A loop that fills an array slot by slot. *)
Lemma forLoop_fill (v : nat -> num) (n : nat) (row : list num) :
  length row = n ->
  forLoop n (fun j row => setNum row j (v j)) row = v <$> seq 0 n.
Proof.
  intros Hrow.
  rewrite (forLoop_slots _ (fun j _ => v j) n); [|done|].
  - rewrite (imap_lookup_seq _ zero), Hrow. done.
  - intros j st Hj Hst. apply setNum_alter. lia.
Qed.

(** [normalizeMatrix] divides every entry by the sum of its column,
    whatever that sum is. *)
Lemma normalizeMatrix_closed (m : matrix num) :
  normalizeMatrix m
  = (fun i => (fun j => div (entry m i j) (columnSum m (length m) j))
                <$> seq 0 (length m))
      <$> seq 0 (length m).
Proof.
  unfold normalizeMatrix. set (n := length m).
  rewrite (forLoop_slots _
             (fun i row => forLoop n (fun j row =>
                setNum row j (div (entry m i j) (getNum (columnSumsOf m n) j))) row) n).
  - rewrite imap_replicate. apply fmap_seq_ext. intros i Hi.
    rewrite forLoop_fill by apply length_replicate.
    apply fmap_seq_ext. intros j Hj.
    rewrite getNum_columnSumsOf by lia. done.
  - apply length_replicate.
  - intros i st Hi Hst. unfold forLoop. apply fold_left_alter_same.
Qed.

Lemma normalizeMatrix_square (m : matrix num) : square (length m) (normalizeMatrix m).
Proof.
  rewrite normalizeMatrix_closed. split.
  - by rewrite length_fmap, length_seq.
  - apply Forall_forall. intros row Hrow.
    apply list_elem_of_fmap in Hrow as (i & -> & _).
    by rewrite length_fmap, length_seq.
Qed.

Lemma length_normalizeMatrix (m : matrix num) : length (normalizeMatrix m) = length m.
Proof. apply normalizeMatrix_square. Qed.

Lemma entry_normalizeMatrix (m : matrix num) (i j : nat) :
  (i < length m)%nat -> (j < length m)%nat ->
  entry (normalizeMatrix m) i j = div (entry m i j) (columnSum m (length m) j).
Proof.
  intros Hi Hj. unfold entry at 1. rewrite normalizeMatrix_closed.
  rewrite list_lookup_fmap, lookup_seq_lt by done. simpl.
  apply getNum_lookup. rewrite list_lookup_fmap, lookup_seq_lt by done. done.
Qed.

(** The column pass of [calculateWeights] on one entry. *)
Definition normalizeEntry (columnSum : num) (a : num) : num :=
  if eqb columnSum zero then a else div a columnSum.

Lemma fold_left_fmap_rows {A B : Type} (f : B -> A -> A) (L : list B) (M : list A) :
  fold_left (fun M b => f b <$> M) L M
  = (fun row => fold_left (fun row b => f b row) L row) <$> M.
Proof.
  revert M. induction L as [|b L IH]; intros M; simpl.
  - by rewrite list_fmap_id.
  - rewrite IH, <- list_fmap_compose. done.
Qed.

Lemma alter_seq_imap {A : Type} (F : nat -> A -> A) (row : list A) :
  fold_left (fun row j => alter (F j) j row) (seq 0 (length row)) row = imap F row.
Proof.
  apply list_eq. intros i. rewrite fold_left_alter_seq, list_lookup_imap.
  destruct (decide _) as [|Hn]; [done|].
  rewrite (proj2 (lookup_ge_None row i)); [done|lia].
Qed.

Definition rowsOfLength (n : nat) (M : matrix num) : Prop :=
  Forall (fun row => length row = n) M.

Lemma rowsOfLength_alter (n i : nat) (f : list num -> list num) (M : matrix num) :
  (forall row, length row = n -> length (f row) = n) ->
  rowsOfLength n M -> rowsOfLength n (alter f i M).
Proof.
  intros Hf HM. apply Forall_forall. intros row Hrow.
  apply list_elem_of_lookup in Hrow as [k Hk].
  unfold rowsOfLength in HM. rewrite Forall_forall in HM.
  destruct (decide (i = k)) as [->|Hne].
  - rewrite list_lookup_alter_eq in Hk.
    destruct (M !! k) as [row'|] eqn:E; [|done]. simpl in Hk.
    injection Hk as <-. apply Hf, HM. by eapply list_elem_of_lookup_2.
  - rewrite list_lookup_alter_ne in Hk by done.
    apply HM. by eapply list_elem_of_lookup_2.
Qed.

(** One column of the pass: every row has its entry [j] divided. *)
Lemma divideColumn (n j : nat) (c : num) (M : matrix num) :
  (j < n)%nat -> length M = n -> rowsOfLength n M ->
  forLoop n (fun i st =>
    alter (fun row => setNum row j (div (getNum row j) c)) i st) M
  = alter (fun a => div a c) j <$> M.
Proof.
  intros Hj HM Hrows.
  rewrite (forLoop_slots_inv (rowsOfLength n) _
             (fun _ row => alter (fun a => div a c) j row) n); [|done|done|].
  - apply list_eq. intros i. by rewrite list_lookup_imap, list_lookup_fmap.
  - intros i st Hi Hst Hrst. split.
    + apply list_alter_ext; [|done]. intros row Hrow.
      apply (setNum_update (fun a => div a c)).
      unfold rowsOfLength in Hrst. rewrite Forall_forall in Hrst.
      rewrite (Hrst row); [done|]. by eapply list_elem_of_lookup_2.
    + apply rowsOfLength_alter; [|done]. intros row Hrow.
      by rewrite length_alter.
Qed.

(** On a square matrix, the weights are the row means of the matrix
    whose columns of nonzero sum are divided by that sum. *)
Lemma calculateWeights_closed (m : matrix num) :
  square (length m) m ->
  calculateWeights m
  = (fun row =>
       div (sumArray (imap (fun j a => normalizeEntry (columnSum m (length m) j) a) row))
         (of_nat (length m))) <$> m.
Proof.
  intros [_ Hrows]. unfold calculateWeights. set (n := length m) in *.
  destruct (Nat.eqb_spec n 0) as [Hn|Hn].
  { subst n. apply length_zero_iff_nil in Hn. by rewrite Hn. }
  set (G := fun j a => normalizeEntry (columnSum m n j) a).
  assert (Hnorm :
    forLoop n (fun j normalizedMatrix =>
      if eqb (getNum (columnSumsOf m n) j) zero then normalizedMatrix
      else forLoop n (fun i normalizedMatrix =>
             alter (fun row => setNum row j
                      (div (getNum row j) (getNum (columnSumsOf m n) j)))
               i normalizedMatrix) normalizedMatrix) m
    = imap G <$> m).
  { unfold forLoop at 1.
    destruct (fold_left_inv
                (fun st => length st = n /\ rowsOfLength n st)
                (fun st j =>
                   if eqb (getNum (columnSumsOf m n) j) zero then st
                   else forLoop n (fun i st =>
                          alter (fun row => setNum row j
                                   (div (getNum row j) (getNum (columnSumsOf m n) j)))
                            i st) st)
                (fun st j => alter (G j) j <$> st)
                (seq 0 n) m) as [-> _]; [done| |].
    - intros st j [Hlen Hst] Hj. apply elem_of_seq in Hj. split.
      + rewrite getNum_columnSumsOf by lia. unfold G, normalizeEntry.
        destruct (eqb (columnSum m n j) zero).
        * rewrite <- (list_fmap_id st) at 1. apply list_fmap_ext.
          intros ? row _. symmetry. by apply list_alter_id.
        * apply divideColumn; [lia|done|done].
      + split; [by rewrite length_fmap|].
        apply Forall_fmap. eapply Forall_impl; [exact Hst|].
        intros row Hrow. simpl. by rewrite length_alter.
    - rewrite fold_left_fmap_rows. apply list_fmap_ext. intros k row Hrow.
      unfold rowsOfLength in Hrows. rewrite Forall_forall in Hrows.
      rewrite <- (Hrows row) at 1; [apply alter_seq_imap|].
      by eapply list_elem_of_lookup_2. }
  rewrite Hnorm. rewrite forLoop_fill by apply length_replicate.
  rewrite (fmap_lookup_seq (fun row => div (sumArray (imap G row)) (of_nat n)) [] m).
  fold n. apply fmap_seq_ext. intros i Hi.
  rewrite list_lookup_fmap.
  destruct (lookup_lt_is_Some_2 m i Hi) as [row ->]. done.
Qed.

Lemma length_forLoop_setNum (v : nat -> list num -> num) (n : nat) (l : list num) :
  length l = n ->
  length (forLoop n (fun i w => setNum w i (v i w)) l) = n.
Proof.
  intros Hl. unfold forLoop.
  apply (fold_left_inv (fun st : list num => length st = n)
           (fun st i => setNum st i (v i st))
           (fun st i => setNum st i (v i st)) (seq 0 n) l Hl).
  intros st i Hst Hi. apply elem_of_seq in Hi. split; [done|].
  rewrite setNum_alter by lia. by rewrite length_alter.
Qed.

Lemma length_calculateWeights (m : matrix num) :
  length (calculateWeights m) = length m.
Proof.
  unfold calculateWeights. destruct (Nat.eqb_spec (length m) 0) as [Hn|Hn]; [done|].
  apply (length_forLoop_setNum (fun i _ => _)). apply length_replicate.
Qed.
End WeightLemmas.

(** * Exact arithmetic *)

Section ExactArithmetic.
Local Open Scope Qc_scope.

Definition ofZ (z : Z) : Qc := Q2Qc (inject_Z z).

Lemma lit_int (z : Z) : lit z 0 = XFin (ofZ z).
Proof. unfold lit; simpl. unfold Xops.lit, Xops.pow10. by rewrite Qcmult_1_r. Qed.

Lemma xzero : (zero : xnum) = XFin 0.
Proof. apply lit_int. Qed.

Lemma xone : (one : xnum) = XFin 1.
Proof. apply lit_int. Qed.

Lemma x_of_nat (n : nat) : (of_nat n : xnum) = XFin (ofZ (Z.of_nat n)).
Proof. apply lit_int. Qed.

Lemma qeqb_eq (p q : Qc) : Xops.qeqb p q = true <-> p = q.
Proof.
  unfold Xops.qeqb. rewrite Qceq_alt. destruct (p ?= q); split; congruence.
Qed.

Lemma qeqb_ne (p q : Qc) : p <> q -> Xops.qeqb p q = false.
Proof.
  intros Hne. destruct (Xops.qeqb p q) eqn:E; [|done].
  by apply qeqb_eq in E.
Qed.

Lemma qltb_lt (p q : Qc) : Xops.qltb p q = true <-> p < q.
Proof.
  unfold Xops.qltb. rewrite Qclt_alt. destruct (p ?= q); split; congruence.
Qed.

Lemma xadd_fin (p q : Qc) : add (XFin p) (XFin q) = XFin (p + q).
Proof. done. Qed.

Lemma xdiv_fin (p q : Qc) : q <> 0 -> div (XFin p) (XFin q) = XFin (p / q).
Proof. intros Hq. simpl. by rewrite (qeqb_ne q 0 Hq). Qed.

(** Finite sums of rationals, added up from the left as the loops do. *)
Definition qsum (f : nat -> Qc) (n : nat) : Qc :=
  fold_left (fun acc i => acc + f i) (seq 0 n) 0.

Lemma qsum_S (f : nat -> Qc) (n : nat) : qsum f (S n) = qsum f n + f n.
Proof. unfold qsum. by rewrite seq_S, fold_left_app. Qed.

Lemma qsum_ext (f g : nat -> Qc) (n : nat) :
  (forall i, (i < n)%nat -> f i = g i) -> qsum f n = qsum g n.
Proof.
  induction n as [|n IH]; intros Hfg; [done|].
  rewrite !qsum_S, IH by (intros; apply Hfg; lia).
  rewrite Hfg by lia. done.
Qed.

Lemma qsum_plus (f g : nat -> Qc) (n : nat) :
  qsum (fun i => f i + g i) n = qsum f n + qsum g n.
Proof.
  induction n as [|n IH]; [by rewrite Qcplus_0_l|].
  rewrite !qsum_S, IH. ring.
Qed.

Lemma qsum_div (f : nat -> Qc) (c : Qc) (n : nat) :
  qsum (fun i => f i / c) n = qsum f n / c.
Proof.
  induction n as [|n IH]; [unfold qsum, Qcdiv; simpl; ring|].
  rewrite !qsum_S, IH. unfold Qcdiv. ring.
Qed.

Lemma qsum_zero (n : nat) : qsum (fun _ => 0) n = 0.
Proof.
  induction n as [|n IH]; [done|]. rewrite qsum_S, IH. ring.
Qed.

Lemma qsum_swap (a : nat -> nat -> Qc) (n k : nat) :
  qsum (fun i => qsum (fun j => a i j) k) n
  = qsum (fun j => qsum (fun i => a i j) n) k.
Proof.
  induction n as [|n IH].
  - unfold qsum at 1. simpl. symmetry. apply qsum_zero.
  - rewrite qsum_S, IH, <- qsum_plus. apply qsum_ext. intros j _.
    by rewrite qsum_S.
Qed.

Lemma qsum_pos (f : nat -> Qc) (n : nat) :
  (forall i, (i < n)%nat -> 0 < f i) -> (0 < n)%nat -> 0 < qsum f n.
Proof.
  intros Hf Hn. destruct n as [|n]; [lia|]. clear Hn.
  induction n as [|n IH].
  - rewrite qsum_S. unfold qsum; simpl. rewrite Qcplus_0_l. apply Hf. lia.
  - rewrite qsum_S.
    apply Qclt_le_trans with (qsum f (S n) + 0).
    + rewrite Qcplus_0_r. apply IH. intros; apply Hf; lia.
    + apply Qcplus_le_compat; [apply Qcle_refl|].
      apply Qclt_le_weak, Hf. lia.
Qed.

Lemma ofZ_succ (n : nat) : ofZ (Z.of_nat (S n)) = ofZ (Z.of_nat n) + 1.
Proof.
  unfold ofZ. apply Qc_is_canon. unfold Qcplus, Q2Qc; simpl.
  rewrite !Qred_correct. rewrite Nat2Z.inj_succ. unfold Z.succ.
  rewrite inject_Z_plus. reflexivity.
Qed.

Lemma qsum_one (n : nat) : qsum (fun _ => 1) n = ofZ (Z.of_nat n).
Proof.
  induction n as [|n IH]; [done|]. by rewrite qsum_S, IH, ofZ_succ.
Qed.

Lemma ofZ_pos (n : nat) : (0 < n)%nat -> ofZ (Z.of_nat n) <> 0.
Proof.
  intros Hn Heq. apply Q2Qc_eq_iff in Heq.
  unfold Qeq in Heq; simpl in Heq. lia.
Qed.

(** A loop that adds finite numbers adds their rationals. *)
Lemma xsum_fin (f : nat -> xnum) (g : nat -> Qc) (n : nat) :
  (forall i, (i < n)%nat -> f i = XFin (g i)) ->
  fold_left (fun acc i => add acc (f i)) (seq 0 n) zero = XFin (qsum g n).
Proof.
  induction n as [|n IH]; intros Hfg; [apply xzero|].
  rewrite seq_S, fold_left_app, IH by (intros; apply Hfg; lia).
  simpl. rewrite Hfg by lia. by rewrite qsum_S.
Qed.
End ExactArithmetic.

Section SumLemmas.
Context {num : Type} `{JSNumber num}.

Lemma fold_left_fmap_acc {A : Type} (f : A -> num) (l : list A) (a : num) :
  fold_left add (f <$> l) a = fold_left (fun acc i => add acc (f i)) l a.
Proof. revert a. induction l as [|x l IH]; intros a; simpl; [done|apply IH]. Qed.

Lemma sumArray_fmap {A : Type} (f : A -> num) (l : list A) :
  sumArray (f <$> l) = fold_left (fun acc i => add acc (f i)) l zero.
Proof. apply fold_left_fmap_acc. Qed.
End SumLemmas.

(** * The weights the program computes: [calculateWeights] of the
      normalized matrix *)

Section InvokedWeights.
Context {num : Type} `{JSNumber num}.

(** The weights of a square matrix, entry by entry. *)
Lemma calculateWeights_entries (m : matrix num) :
  let n := length m in
  square n m ->
  calculateWeights m
  = (fun i =>
       div (sumArray ((fun j => normalizeEntry (columnSum m n j) (entry m i j))
                        <$> seq 0 n))
         (of_nat n)) <$> seq 0 n.
Proof.
  intros n Hsq.
  rewrite calculateWeights_closed by done. fold n.
  rewrite (fmap_lookup_seq _ [] m). fold n. apply fmap_seq_ext. intros i Hi.
  f_equal. f_equal.
  destruct Hsq as [_ Hrows]. rewrite Forall_forall in Hrows.
  destruct (lookup_lt_is_Some_2 m i) as [row Hrow]; [done|].
  rewrite (imap_lookup_seq _ NaN), Hrow; simpl.
  rewrite (Hrows row) by (by eapply list_elem_of_lookup_2).
  apply fmap_seq_ext. intros j Hj. unfold entry. by rewrite Hrow.
Qed.

Lemma invokedWeights_closed (m : matrix num) :
  let n := length m in
  let N := normalizeMatrix m in
  calculateWeights N
  = (fun i =>
       div (sumArray ((fun j => normalizeEntry (columnSum N n j) (entry N i j))
                        <$> seq 0 n))
         (of_nat n)) <$> seq 0 n.
Proof.
  intros n N.
  pose proof (normalizeMatrix_square m) as Hsq. fold n N in Hsq.
  assert (HN : length N = n) by apply Hsq.
  rewrite <- HN in Hsq |- *. by apply calculateWeights_entries.
Qed.

Lemma length_invokedWeights (m : matrix num) :
  length (calculateWeights (normalizeMatrix m)) = length m.
Proof. by rewrite length_calculateWeights, length_normalizeMatrix. Qed.
End InvokedWeights.

Section ExactWeights.
Local Open Scope Qc_scope.

Variable m : matrix xnum.
Variable n : nat.
Variable q : nat -> nat -> Qc.
Hypothesis Hlen : length m = n.
Hypothesis Hn : (0 < n)%nat.
Hypothesis Hentry : forall i j, (i < n)%nat -> (j < n)%nat ->
                                entry m i j = XFin (q i j) /\ 0 < q i j.

Let colQ (j : nat) : Qc := qsum (fun i => q i j) n.

Lemma columnSum_exact (j : nat) :
  (j < n)%nat -> columnSum m n j = XFin (colQ j).
Proof using Hentry.
  intros Hj. unfold columnSum. apply xsum_fin.
  intros i Hi. by apply Hentry.
Qed.

Lemma colQ_nonzero (j : nat) : (j < n)%nat -> colQ j <> 0.
Proof using Hentry Hn.
  intros Hj Heq.
  assert (0 < colQ j) as Hpos.
  { apply qsum_pos; [|done]. intros i Hi. by apply Hentry. }
  rewrite Heq in Hpos. by apply Qclt_not_eq in Hpos.
Qed.

Lemma entry_normalized_exact (i j : nat) :
  (i < n)%nat -> (j < n)%nat ->
  entry (normalizeMatrix m) i j = XFin (q i j / colQ j).
Proof using Hentry Hn Hlen.
  intros Hi Hj. rewrite entry_normalizeMatrix by lia. rewrite Hlen.
  rewrite columnSum_exact by done.
  destruct (Hentry i j Hi Hj) as [-> _].
  apply xdiv_fin. by apply colQ_nonzero.
Qed.

Lemma columnSum_normalized_exact (j : nat) :
  (j < n)%nat -> columnSum (normalizeMatrix m) n j = XFin 1.
Proof using Hentry Hn Hlen.
  intros Hj. unfold columnSum.
  rewrite (xsum_fin _ (fun i => q i j / colQ j)).
  - f_equal. rewrite qsum_div. fold (colQ j).
    unfold Qcdiv. apply Qcmult_inv_r. by apply colQ_nonzero.
  - intros i Hi. by apply entry_normalized_exact.
Qed.

Lemma invokedWeights_exact :
  calculateWeights (normalizeMatrix m)
  = (fun i => XFin (qsum (fun j => q i j / colQ j) n / ofZ (Z.of_nat n)))
      <$> seq 0 n.
Proof using Hentry Hn Hlen.
  rewrite invokedWeights_closed. rewrite Hlen.
  apply fmap_seq_ext. intros i Hi.
  rewrite sumArray_fmap.
  rewrite (xsum_fin _ (fun j => q i j / colQ j)).
  - rewrite x_of_nat. apply xdiv_fin. by apply ofZ_pos.
  - intros j Hj. rewrite columnSum_normalized_exact by done.
    rewrite entry_normalized_exact by done.
    unfold normalizeEntry. rewrite xzero. simpl.
    f_equal. unfold Qcdiv.
    assert (/ 1 = 1) as -> by (apply Qc_is_canon; reflexivity). ring.
Qed.

Lemma calculateWeights_exact :
  square n m ->
  calculateWeights m
  = (fun i => XFin (qsum (fun j => q i j / colQ j) n / ofZ (Z.of_nat n)))
      <$> seq 0 n.
Proof using Hentry Hn Hlen.
  intros Hsq. rewrite <- Hlen in Hsq.
  rewrite calculateWeights_entries by done. rewrite Hlen.
  apply fmap_seq_ext. intros i Hi.
  rewrite sumArray_fmap.
  rewrite (xsum_fin _ (fun j => q i j / colQ j)).
  - rewrite x_of_nat. apply xdiv_fin. by apply ofZ_pos.
  - intros j Hj. rewrite columnSum_exact by done.
    destruct (Hentry i j Hi Hj) as [-> _].
    unfold normalizeEntry. rewrite xzero. simpl.
    destruct (Xops.qeqb (colQ j) _) eqn:E; [|done].
    apply qeqb_eq in E. by destruct (colQ_nonzero j Hj).
Qed.

Lemma sum_rowMeans_exact :
  sumArray ((fun i => XFin (qsum (fun j => q i j / colQ j) n / ofZ (Z.of_nat n)))
              <$> seq 0 n) = XFin 1.
Proof using Hentry Hn.
  rewrite sumArray_fmap.
  rewrite (xsum_fin _ (fun i => qsum (fun j => q i j / colQ j) n / ofZ (Z.of_nat n)))
    by done.
  f_equal. rewrite qsum_div, qsum_swap.
  rewrite (qsum_ext _ (fun _ => 1)).
  - rewrite qsum_one. unfold Qcdiv. apply Qcmult_inv_r. by apply ofZ_pos.
  - intros j Hj. rewrite qsum_div. fold (colQ j).
    unfold Qcdiv. apply Qcmult_inv_r. by apply colQ_nonzero.
Qed.

Lemma sum_calculateWeights_exact :
  square n m -> sumArray (calculateWeights m) = XFin 1.
Proof using Hentry Hn Hlen.
  intros Hsq. rewrite calculateWeights_exact by done. apply sum_rowMeans_exact.
Qed.

Lemma sum_invokedWeights_exact :
  sumArray (calculateWeights (normalizeMatrix m)) = XFin 1.
Proof using Hentry Hn Hlen.
  rewrite invokedWeights_exact. apply sum_rowMeans_exact.
Qed.
End ExactWeights.

(** A matrix of [n] rows whose entries are positive reals. *)
Definition positiveMatrix (n : nat) (m : matrix xnum) : Prop :=
  length m = n
  /\ forall i j, (i < n)%nat -> (j < n)%nat ->
                 exists q : Qc, entry m i j = XFin q /\ (0 < q)%Qc.

(** [Σ weights == 1.0 ± 1e-9]. *)
Definition sumsToOne {num : Type} `{JSNumber num} (weights : list num) : bool :=
  let s := sumArray weights in
  leb (sub one (lit 1 (-9))) s && leb s (add one (lit 1 (-9))).

Lemma sumsToOne_exact (weights : list xnum) :
  sumArray weights = XFin 1 -> sumsToOne weights = true.
Proof. intros Hsum. unfold sumsToOne. rewrite Hsum. by vm_compute. Qed.

Lemma positiveMatrix_sums (n : nat) (m : matrix xnum) :
  (0 < n)%nat -> positiveMatrix n m ->
  sumArray (calculateWeights (normalizeMatrix m)) = XFin 1
  /\ (square n m -> sumArray (calculateWeights m) = XFin 1).
Proof.
  intros Hn [Hlen Hpos].
  set (q := fun i j => match entry m i j with XFin q => q | _ => 0%Qc end).
  assert (Hentry : forall i j, (i < n)%nat -> (j < n)%nat ->
                               entry m i j = XFin (q i j) /\ (0 < q i j)%Qc).
  { intros i j Hi Hj. unfold q.
    by destruct (Hpos i j Hi Hj) as (r & -> & Hr). }
  split.
  - by apply (sum_invokedWeights_exact m n q).
  - by apply (sum_calculateWeights_exact m n q).
Qed.

(** * The consistency check *)

Section ConsistencySpec.
Context {num : Type} `{JSNumber num}.

(** The consistency ratio as the specification words it. *)

(** [ws[i] = Σ_j matrix[i][j] * weight[j]]. *)
Definition weightedSum (m : matrix num) (w : list num) (n i : nat) : num :=
  fold_left (fun acc j => add acc (mul (entry m i j) (getNum w j))) (seq 0 n) zero.

(** [cv[i] = ws[i] / weight[i]], left [0] when [weight[i] == 0]. *)
Definition consistencyEntry (m : matrix num) (w : list num) (n i : nat) : num :=
  if eqb (getNum w i) zero then zero
  else div (weightedSum m w n i) (getNum w i).

Definition mean (l : list num) : num := div (sumArray l) (of_nat (length l)).

(** The fixed table, indexed from 1 by [n], and its last value for
    every [n > 10]. *)
Definition randomIndexTable : list num :=
  [lit 0 0; lit 0 0; lit 58 (-2); lit 90 (-2); lit 112 (-2); lit 124 (-2);
   lit 132 (-2); lit 141 (-2); lit 145 (-2); lit 149 (-2)].

Definition randomIndex (n : nat) : num :=
  if (10 <? n)%nat then lit 149 (-2)
  else default (lit 149 (-2)) (randomIndexTable !! (n - 1)%nat).

Definition specConsistency (m : matrix num) (w : list num) : Consistency num :=
  let n := length m in
  if (n <=? 2)%nat then {| cr := zero; isConsistent := true |}
  else
    let cv := consistencyEntry m w n <$> seq 0 n in
    let lambdaMax := mean cv in
    let CI := div (sub lambdaMax (of_nat n)) (sub (of_nat n) one) in
    let RI := randomIndex n in
    let CR := div CI RI in
    {| cr := CR; isConsistent := ltb CR (lit 10 (-2)) |}.

(** What the number model has to grant: the literals of the two
    tables agree, and those from the third on are neither zero nor
    NaN. *)
Definition tablesAgree : Prop :=
  riMap = randomIndexTable
  /\ lit 1 (-1) = lit 10 (-2)
  /\ Forall (fun v => eqb v zero = false /\ isNaN v = false)
       (drop 2 randomIndexTable).

Lemma weightedSumVector_closed (m : matrix num) (w : list num) (n : nat) :
  forLoop n (fun i weightedSumVector =>
    forLoop n (fun j weightedSumVector =>
      setNum weightedSumVector i
        (add (getNum weightedSumVector i) (mul (entry m i j) (getNum w j))))
      weightedSumVector)
    (replicate n zero)
  = weightedSum m w n <$> seq 0 n.
Proof.
  rewrite (forLoop_slots _
             (fun i v => fold_left (fun v j => add v (mul (entry m i j) (getNum w j)))
                           (seq 0 n) v) n).
  - apply imap_replicate.
  - apply length_replicate.
  - intros i st Hi Hst.
    apply (forLoop_accumulate _ (fun j v => add v (mul (entry m i j) (getNum w j))));
      [lia|].
    intros j st' _ Hst'.
    apply (setNum_update (fun v => add v (mul (entry m i j) (getNum w j)))). lia.
Qed.

Lemma consistencyVector_closed (m : matrix num) (w ws : list num) (n : nat) :
  ws = weightedSum m w n <$> seq 0 n ->
  forLoop n (fun i consistencyVector =>
    if negb (eqb (getNum w i) zero)
    then setNum consistencyVector i (div (getNum ws i) (getNum w i))
    else consistencyVector)
    (replicate n zero)
  = consistencyEntry m w n <$> seq 0 n.
Proof.
  intros ->.
  rewrite (forLoop_slots _
             (fun i v => if negb (eqb (getNum w i) zero)
                         then div (weightedSum m w n i) (getNum w i) else v) n).
  - rewrite imap_replicate. apply fmap_seq_ext. intros i Hi.
    unfold consistencyEntry. by destruct (eqb (getNum w i) zero).
  - apply length_replicate.
  - intros i st Hi Hst. destruct (eqb (getNum w i) zero); simpl.
    + symmetry. by apply list_alter_id.
    + rewrite setNum_alter by lia. f_equal.
      erewrite (getNum_lookup _ i); [done|].
      by rewrite list_lookup_fmap, lookup_seq_lt.
Qed.

Lemma riOf_randomIndex (n : nat) :
  tablesAgree -> (3 <= n)%nat ->
  riOf n = randomIndex n /\ eqb (randomIndex n) zero = false.
Proof.
  intros (Htab & _ & Hnz) Hn. unfold riOf, randomIndex. rewrite Htab.
  destruct (Nat.ltb_spec 10 n) as [Hbig|Hsmall].
  - rewrite (proj2 (lookup_ge_None randomIndexTable (n - 1))) by (simpl; lia).
    split; [done|].
    rewrite Forall_forall in Hnz. apply Hnz. (* the last entry *)
    apply (list_elem_of_lookup_2 _ 7). done.
  - destruct (lookup_lt_is_Some_2 randomIndexTable (n - 1)) as [v Hv]; [simpl; lia|].
    rewrite Hv. simpl.
    rewrite Forall_forall in Hnz.
    destruct (Hnz v) as [Hz Hnan].
    { apply (list_elem_of_lookup_2 _ (n - 3)). rewrite lookup_drop.
      replace (2 + (n - 3))%nat with (n - 1)%nat by lia. done. }
    by rewrite Hz, Hnan.
Qed.

Lemma calculateConsistency_spec (m : matrix num) (w : list num) :
  tablesAgree -> calculateConsistency m w = specConsistency m w.
Proof.
  intros Hok. unfold calculateConsistency, specConsistency.
  destruct (Nat.leb_spec (length m) 2) as [Hn|Hn]; [done|].
  rewrite weightedSumVector_closed.
  rewrite (consistencyVector_closed m w _ (length m) eq_refl).
  destruct (riOf_randomIndex (length m) Hok) as [-> ->]; [lia|].
  unfold mean. rewrite length_fmap, length_seq.
  destruct Hok as (_ & -> & _). done.
Qed.
End ConsistencySpec.

Lemma tablesAgree_F64 : @tablesAgree float F64.
Proof.
  split; [|split].
  - vm_compute. reflexivity.
  - vm_compute. reflexivity.
  - repeat constructor; vm_compute; reflexivity.
Qed.

Lemma tablesAgree_Exact : @tablesAgree xnum Exact.
Proof.
  split; [|split].
  - unfold riMap, randomIndexTable.
    assert ((lit 9 (-1) : xnum) = lit 90 (-2)) as ->; [|done].
    simpl. unfold Xops.lit. f_equal. apply Qc_is_canon; reflexivity.
  - simpl. unfold Xops.lit. f_equal. apply Qc_is_canon; reflexivity.
  - repeat constructor; vm_compute; reflexivity.
Qed.

(** C7.  For every pairwise matrix and weight vector the consistency
    check returns ratio 0 and "consistent" when there are at most two
    criteria, and otherwise the ratio CR = CI / RI computed from the
    weighted sums ws, the consistency vector cv (an entry left 0 where
    the weight is 0), lambdaMax = mean(cv), CI = (lambdaMax - n)/(n - 1)
    and the Random Index table (1.49 for every n > 10), with the verdict
    CR < 0.10; in binary64 and in exact arithmetic alike. *)
Theorem calculateConsistency_correct :
  (forall (m : matrix float) (w : list float),
      calculateConsistency m w = specConsistency m w)
  /\ (forall (m : matrix xnum) (w : list xnum),
      calculateConsistency m w = specConsistency m w).
Proof.
  split; intros m w.
  - apply calculateConsistency_spec, tablesAgree_F64.
  - apply calculateConsistency_spec, tablesAgree_Exact.
Qed.

(** * Sorting *)

Section SortLemmas.
Context {num : Type} `{JSNumber num} {A : Type}.
Variable cmp : A -> A -> num.

(** [behind a b]: the comparison sends [a] behind [b]. *)
Definition behind (a b : A) : bool := gtb (cmp a b) zero.

(** The elements the comparison orders consistently. *)
Variable ok : A -> Prop.
Hypothesis behind_asym :
  forall a b, ok a -> ok b -> behind a b = true -> behind b a = false.
Hypothesis behind_trans :
  forall a b c, ok a -> ok b -> ok c ->
                behind a b = false -> behind b c = false -> behind a c = false.

Definition inOrder (a b : A) : Prop := behind a b = false.

(** The elements that tie with [c]. *)
Definition ties (c a : A) : bool := negb (behind a c) && negb (behind c a).

Lemma sortInsert_perm (a : A) (l : list A) : sortInsert cmp a l ≡ₚ a :: l.
Proof.
  induction l as [|b l IH]; simpl; [done|].
  fold (behind a b). destruct (behind a b); [|done].
  rewrite IH. apply Permutation_swap.
Qed.

Lemma Array_sort_perm (l : list A) : Array_sort cmp l ≡ₚ l.
Proof.
  induction l as [|a l IH]; simpl; [done|].
  rewrite sortInsert_perm. by rewrite IH.
Qed.

Lemma sortInsert_sorted (a : A) (l : list A) :
  ok a -> Forall ok l ->
  StronglySorted inOrder l -> StronglySorted inOrder (sortInsert cmp a l).
Proof using behind_asym behind_trans.
  intros Ha Hl Hs. induction Hs as [|b l Hs IH Hb]; simpl.
  - repeat constructor.
  - apply Forall_cons in Hl as [Hokb Hokl].
    fold (behind a b). destruct (behind a b) eqn:E.
    + constructor; [by apply IH|].
      rewrite sortInsert_perm. constructor; [|done].
      by apply behind_asym.
    + constructor; [by constructor|].
      constructor; [done|].
      rewrite Forall_forall in Hb, Hokl. apply Forall_forall. intros c Hc.
      apply (behind_trans a b c); auto. by apply Hb.
Qed.

Lemma Array_sort_sorted (l : list A) :
  Forall ok l -> StronglySorted inOrder (Array_sort cmp l).
Proof using behind_asym behind_trans.
  induction l as [|a l IH]; intros Hl; simpl; [constructor|].
  apply Forall_cons in Hl as [Ha Hl].
  apply sortInsert_sorted; [done| |by apply IH].
  by rewrite Array_sort_perm.
Qed.

Lemma sortInsert_stable (c a : A) (l : list A) :
  ok c -> ok a -> Forall ok l ->
  filter (fun x => ties c x = true) (sortInsert cmp a l)
  = filter (fun x => ties c x = true) (a :: l).
Proof using behind_trans.
  intros Hc Ha Hl. induction l as [|b l IH]; simpl; [done|].
  apply Forall_cons in Hl as [Hb Hl].
  fold (behind a b). destruct (behind a b) eqn:E; [|done].
  rewrite !filter_cons. rewrite filter_cons in IH.
  destruct (decide (ties c b = true)) as [Hcb|Hcb].
  - destruct (decide (ties c a = true)) as [Hca|Hca].
    + exfalso. unfold ties in Hcb, Hca.
      apply andb_true_iff in Hcb as [Hb1 Hb2], Hca as [Ha1 Ha2].
      apply negb_true_iff in Hb1, Hb2, Ha1, Ha2.
      rewrite (behind_trans a c b) in E; auto. done.
    + rewrite IH by done. done.
  - by apply IH.
Qed.

Lemma Array_sort_stable (c : A) (l : list A) :
  ok c -> Forall ok l ->
  filter (fun x => ties c x = true) (Array_sort cmp l)
  = filter (fun x => ties c x = true) l.
Proof using behind_trans.
  intros Hc. induction l as [|a l IH]; intros Hl; simpl; [done|].
  apply Forall_cons in Hl as [Ha Hl].
  rewrite sortInsert_stable; [|done|done|by rewrite Array_sort_perm].
  rewrite !filter_cons. by rewrite IH.
Qed.
End SortLemmas.

(** * Order on exact numbers *)

Section ExactOrder.
Local Open Scope Qc_scope.

Lemma qltb_ge (p q : Qc) : Xops.qltb p q = false <-> q <= p.
Proof.
  split.
  - intros E. apply Qcnot_lt_le. intros Hlt. apply qltb_lt in Hlt. congruence.
  - intros Hle. destruct (Xops.qltb p q) eqn:E; [|done].
    apply qltb_lt in E. by apply Qcle_not_lt in Hle.
Qed.

Lemma xltb_fin (p q : Qc) : ltb (XFin p) (XFin q) = Xops.qltb p q.
Proof. done. Qed.

Lemma xleb_fin (p q : Qc) : leb (XFin p) (XFin q) = true <-> p <= q.
Proof.
  simpl. unfold Xops.leb; simpl. rewrite orb_true_iff, qltb_lt, qeqb_eq. split.
  - intros [Hlt| ->]; [by apply Qclt_le_weak|apply Qcle_refl].
  - intros Hle. by apply Qcle_lt_or_eq.
Qed.

Lemma xleb_fin_false (p q : Qc) : leb (XFin p) (XFin q) = false <-> q < p.
Proof.
  split.
  - intros E. apply Qcnot_le_lt. intros Hle. apply xleb_fin in Hle. congruence.
  - intros Hlt. destruct (leb (XFin p) (XFin q)) eqn:E; [|done].
    apply xleb_fin in E. by apply Qclt_not_le in Hlt.
Qed.

Lemma xsub_fin (p q : Qc) : sub (XFin p) (XFin q) = XFin (p - q).
Proof. done. Qed.

Lemma xmul_fin (p q : Qc) : mul (XFin p) (XFin q) = XFin (p * q).
Proof. done. Qed.

(** The comparison [a - b] is positive exactly when [b < a]. *)
Lemma xsub_pos (p q : Qc) : gtb (sub (XFin p) (XFin q)) zero = Xops.qltb q p.
Proof.
  unfold gtb. rewrite xsub_fin, xzero, xltb_fin.
  destruct (Xops.qltb q p) eqn:E.
  - apply qltb_lt. apply qltb_lt in E. apply Qclt_minus_iff in E. exact E.
  - apply qltb_ge. apply qltb_ge in E. apply Qcle_minus_iff in E.
    apply Qcopp_le_compat in E.
    replace (- (q + - p)) with (p - q) in E by ring.
    replace (- 0) with 0 in E by ring. exact E.
Qed.
End ExactOrder.

Lemma StronglySorted_mono {A : Type} (R R' : A -> A -> Prop) (l : list A) :
  (forall a b, R a b -> R' a b) -> StronglySorted R l -> StronglySorted R' l.
Proof.
  intros HR Hs. induction Hs as [|a l Hs IH Ha]; constructor; [done|].
  eapply Forall_impl; [exact Ha|]. intros b. apply HR.
Qed.

Section SortFmap.
Context {num : Type} `{JSNumber num} {A B : Type}.

Lemma sortInsert_fmap (f : A -> B) (cmp : B -> B -> num) (a : A) (l : list A) :
  sortInsert cmp (f a) (f <$> l)
  = f <$> sortInsert (fun a b => cmp (f a) (f b)) a l.
Proof.
  induction l as [|b l IH]; [done|].
  rewrite fmap_cons. cbn [sortInsert].
  destruct (gtb (cmp (f a) (f b)) zero); [|done].
  by rewrite fmap_cons, IH.
Qed.

Lemma Array_sort_fmap (f : A -> B) (cmp : B -> B -> num) (l : list A) :
  Array_sort cmp (f <$> l) = f <$> Array_sort (fun a b => cmp (f a) (f b)) l.
Proof.
  unfold Array_sort. induction l as [|a l IH]; [done|].
  rewrite fmap_cons. cbn [fold_right]. rewrite IH. apply sortInsert_fmap.
Qed.
End SortFmap.

(** * Interpolation *)

Section WhileLoop.
Context {num : Type} `{JSNumber num}.

(** The loop stops behind the longest prefix of points below [x]. *)
Lemma whileBelow_split (x : num) (l : list (Point num)) (k : nat) :
  exists l1 l2,
    l = l1 ++ l2
    /\ whileBelow x l k = (k + length l1)%nat
    /\ Forall (fun p => ltb (pt_x p) x = true) l1
    /\ match l2 with
       | [] => True
       | p :: _ => ltb (pt_x p) x = false
       end.
Proof.
  revert k. induction l as [|p l IH]; intros k; simpl.
  - exists [], []. repeat split; [simpl; lia|constructor].
  - destruct (ltb (pt_x p) x) eqn:E.
    + destruct (IH (S k)) as (l1 & l2 & -> & -> & Hl1 & Hl2).
      exists (p :: l1), l2. repeat split; [simpl; lia|by constructor|done].
    + exists [], (p :: l). repeat split; [simpl; lia|constructor|done].
Qed.
End WhileLoop.

Section ExactInterpolation.
Local Open Scope Qc_scope.

(** A point with a real value and a real utility. *)
Definition realPoint (p : Qc * Qc) : Point xnum :=
  {| pt_x := XFin p.1; pt_y := XFin p.2 |}.

Definition byValue (a b : Qc * Qc) : xnum := sub (XFin a.1) (XFin b.1).

Lemma behind_byValue (a b : Qc * Qc) :
  behind byValue a b = Xops.qltb b.1 a.1.
Proof. apply xsub_pos. Qed.

Lemma byValue_asym (a b : Qc * Qc) :
  behind byValue a b = true -> behind byValue b a = false.
Proof.
  rewrite !behind_byValue. intros Hab. apply qltb_lt in Hab.
  apply qltb_ge. by apply Qclt_le_weak.
Qed.

Lemma byValue_trans (a b c : Qc * Qc) :
  behind byValue a b = false -> behind byValue b c = false ->
  behind byValue a c = false.
Proof.
  rewrite !behind_byValue. intros Hab Hbc.
  apply qltb_ge in Hab, Hbc. apply qltb_ge. by eapply Qcle_trans.
Qed.

Lemma sorted_realPoints (pts : list (Qc * Qc)) :
  Array_sort (fun a b => sub (pt_x a) (pt_x b)) (realPoint <$> pts)
  = realPoint <$> Array_sort byValue pts.
Proof. exact (Array_sort_fmap realPoint _ pts). Qed.

Lemma byValue_sorted (pts : list (Qc * Qc)) :
  StronglySorted (fun a b => a.1 <= b.1) (Array_sort byValue pts).
Proof.
  eapply StronglySorted_mono; last first.
  - apply (Array_sort_sorted byValue (fun _ => True)).
    + intros a b _ _. apply byValue_asym.
    + intros a b c _ _ _. apply byValue_trans.
    + by apply Forall_true.
  - intros a b Hab. unfold inOrder in Hab. rewrite behind_byValue in Hab.
    by apply qltb_ge.
Qed.

Lemma ties_byValue (c a : Qc * Qc) : ties byValue c a = true <-> a.1 = c.1.
Proof.
  unfold ties. rewrite andb_true_iff, !negb_true_iff, !behind_byValue, !qltb_ge.
  split.
  - intros [? ?]. by apply Qcle_antisym.
  - intros ->. split; apply Qcle_refl.
Qed.

Lemma byValue_stable (k : Qc) (pts : list (Qc * Qc)) :
  filter (fun p => p.1 = k) (Array_sort byValue pts) = filter (fun p => p.1 = k) pts.
Proof.
  pose proof (Array_sort_stable byValue (fun _ => True)
                (fun a b c _ _ _ => byValue_trans a b c) (k, 0) pts I
                (Forall_true _ _ (fun _ => I))) as Hst.
  assert (Hiff : forall p : Qc * Qc, p.1 = k <-> ties byValue (k, 0) p = true).
  { intros p. by rewrite ties_byValue. }
  rewrite (list_filter_iff _ (fun x => ties byValue (k, 0) x = true) _ Hiff).
  rewrite (list_filter_iff _ (fun x => ties byValue (k, 0) x = true) pts Hiff).
  exact Hst.
Qed.
End ExactInterpolation.

Section ExactInterpolationPolicy.
Local Open Scope Qc_scope.

Lemma whileBelow_real (v : Qc) (l : list (Qc * Qc)) (k : nat) :
  exists l1 l2,
    l = l1 ++ l2
    /\ whileBelow (XFin v) (realPoint <$> l) k = (k + length l1)%nat
    /\ Forall (fun p => p.1 < v) l1
    /\ match l2 with
       | [] => True
       | p :: _ => v <= p.1
       end.
Proof.
  revert k. induction l as [|p l IH]; intros k.
  - exists [], []. repeat split; [simpl; lia|constructor].
  - rewrite fmap_cons. cbn [whileBelow]. simpl pt_x. rewrite xltb_fin.
    destruct (Xops.qltb p.1 v) eqn:E.
    + destruct (IH (S k)) as (l1 & l2 & -> & -> & Hl1 & Hl2).
      exists (p :: l1), l2. repeat split; [simpl; lia| |done].
      constructor; [by apply qltb_lt|done].
    + exists [], (p :: l). repeat split; [simpl; lia|constructor|].
      by apply qltb_ge.
Qed.

(** The interpolation formula of the specification. *)
Definition lerp (p1 p2 : Qc * Qc) (v : Qc) : Qc :=
  p1.2 + (p2.2 - p1.2) * (v - p1.1) / (p2.1 - p1.1).

(** What the specification says of a sorted list of at least two
    points. *)
Definition policy (v : Qc) (sorted : list (Qc * Qc)) (result : option xnum) : Prop :=
  match sorted with
  | [] => result = Some zero
  | [p] => result = Some (XFin p.2)
  | pmin :: _ =>
      forall pmax, last sorted = Some pmax ->
        (v <= pmin.1 -> result = Some (XFin pmin.2))
        /\ (pmin.1 < v -> pmax.1 <= v -> result = Some (XFin pmax.2))
        /\ (pmin.1 < v -> v < pmax.1 ->
            exists l1 p1 p2 l2,
              sorted = l1 ++ p1 :: p2 :: l2
              /\ p1.1 < v /\ v <= p2.1
              /\ result = Some (if decide (p1.1 = p2.1) then XFin p1.2
                                else XFin (lerp p1 p2 v)))
  end.

Lemma interpolate_bracket (v : Qc) (p1 p2 : Qc * Qc) :
  p1.1 < v -> v <= p2.1 ->
  (if eqb (pt_x (realPoint p1)) (pt_x (realPoint p2))
   then Some (pt_y (realPoint p1))
   else
     let slope := div (sub (pt_y (realPoint p2)) (pt_y (realPoint p1)))
                    (sub (pt_x (realPoint p2)) (pt_x (realPoint p1))) in
     Some (add (pt_y (realPoint p1)) (mul slope (sub (XFin v) (pt_x (realPoint p1))))))
  = Some (if decide (p1.1 = p2.1) then XFin p1.2 else XFin (lerp p1 p2 v)).
Proof.
  intros H1 H2.
  assert (Hlt : p1.1 < p2.1) by (by eapply Qclt_le_trans).
  assert (Hne : p1.1 <> p2.1) by (by apply Qclt_not_eq).
  destruct (decide (p1.1 = p2.1)) as [|_]; [done|].
  simpl. rewrite (qeqb_ne _ _ Hne).
  assert (Hd : p2.1 + - p1.1 <> 0).
  { intros Heq. apply Hne.
    replace p2.1 with ((p2.1 + - p1.1) + p1.1) by ring. rewrite Heq. ring. }
  unfold Xops.sub; simpl. rewrite (qeqb_ne _ _ Hd). simpl.
  do 2 f_equal. unfold lerp, Qcdiv, Qcminus. ring.
Qed.

Lemma interpolate_policy (v : Qc) (pts : list (Qc * Qc)) :
  policy v (Array_sort byValue pts) (interpolate (XFin v) (realPoint <$> pts)).
Proof.
  pose proof (Array_sort_perm byValue pts) as Hperm.
  pose proof (Permutation_length Hperm) as Hlen.
  unfold interpolate. rewrite length_fmap, sorted_realPoints.
  destruct (Array_sort byValue pts) as [|pmin [|p' rest]] eqn:Es.
  - simpl in Hlen. rewrite <- Hlen. done.
  - simpl in Hlen. rewrite <- Hlen. simpl.
    destruct pts as [|a [|b c]]; simpl in Hlen; try lia.
    simpl in Es. injection Es as ->. done.
  - set (sorted := pmin :: p' :: rest) in *.
    simpl in Hlen.
    destruct (Nat.eqb_spec (length pts) 0) as [|_]; [lia|].
    destruct (Nat.eqb_spec (length pts) 1) as [|_]; [lia|].
    unfold policy. fold sorted. intros pmax Hmax.
    change ((realPoint <$> sorted) !! 0%nat) with (Some (realPoint pmin)).
    cbn [mbind option_bind]. simpl pt_x. simpl pt_y.
    assert (Hlast : (realPoint <$> sorted) !! (length (realPoint <$> sorted) - 1)%nat
                    = Some (realPoint pmax)).
    { rewrite list_lookup_fmap, length_fmap.
      rewrite last_lookup in Hmax.
      replace (length sorted - 1)%nat with (pred (length sorted)) by lia.
      by rewrite Hmax. }
    rewrite Hlast. cbn [mbind option_bind]. unfold geb. simpl pt_x. simpl pt_y.
    destruct (leb (XFin v) (XFin pmin.1)) eqn:Emin.
    { apply xleb_fin in Emin. split; [done|split].
      - intros Hlt. by apply Qclt_not_le in Hlt.
      - intros Hlt. by apply Qclt_not_le in Hlt. }
    apply xleb_fin_false in Emin.
    destruct (leb (XFin pmax.1) (XFin v)) eqn:Emax.
    { apply xleb_fin in Emax. split; [|split; [done|]].
      - intros Hle. by apply Qclt_not_le in Emin.
      - intros _ Hlt. by apply Qclt_not_le in Hlt. }
    apply xleb_fin_false in Emax.
    split; [intros Hle; by apply Qclt_not_le in Emin|].
    split; [intros _ Hle; by apply Qclt_not_le in Emax|].
    intros _ _.
    destruct (whileBelow_real v sorted 0) as (l1 & l2 & Hsplit & -> & Hl1 & Hl2).
    (* the loop passes the first point *)
    assert (Hne : l1 <> []).
    { intros ->. simpl in Hsplit. subst l2. by apply Qclt_not_le in Emin. }
    destruct (exists_last Hne) as (l1' & q1 & ->). clear Hne.
    rename l1' into l1.
    (* and stops before the last *)
    destruct l2 as [|p2 l2].
    { exfalso. rewrite app_nil_r in Hsplit.
      rewrite Forall_forall in Hl1.
      assert (pmax ∈ sorted) as Hin.
      { rewrite last_lookup in Hmax. by eapply list_elem_of_lookup_2. }
      rewrite Hsplit in Hin. apply Hl1 in Hin.
      by apply Qclt_le_weak, Qclt_not_le in Hin. }
    apply Forall_app in Hl1 as [_ Hq1]. apply Forall_inv in Hq1.
    rewrite length_app. simpl length.
    destruct (Nat.eqb_spec (0 + (length l1 + 1)) 0) as [|_]; [lia|].
    rewrite <- app_assoc in Hsplit. simpl in Hsplit.
    rewrite Hsplit.
    replace (0 + (length l1 + 1) - 1)%nat with (length l1) by lia.
    rewrite !list_lookup_fmap.
    rewrite (list_lookup_middle l1 (p2 :: l2) q1 (length l1) eq_refl).
    replace (l1 ++ q1 :: p2 :: l2) with ((l1 ++ [q1]) ++ p2 :: l2)
      by (by rewrite <- app_assoc).
    rewrite (list_lookup_middle (l1 ++ [q1]) l2 p2 (0 + (length l1 + 1)))
      by (rewrite length_app; simpl; lia).
    cbn [fmap option_fmap option_map mbind option_bind].
    exists l1, q1, p2, l2.
    split; [by rewrite <- app_assoc|]. split; [exact Hq1|]. split; [exact Hl2|].
    by apply interpolate_bracket.
Qed.
End ExactInterpolationPolicy.

(** * Order on binary64 *)

Section F64Order.
Lemma SFcompare_swap (x y : spec_float) :
  SFcompare y x = CompOpp <$> SFcompare x y.
Proof.
  destruct x as [[]|[]| |[] mx ex], y as [[]|[]| |[] my ey]; try reflexivity;
    simpl; rewrite (Z.compare_antisym ex ey);
    destruct (ex ?= ey)%Z; simpl; try reflexivity;
    rewrite <- (Pos.compare_cont_antisym _ _ Eq); simpl;
    try reflexivity; by rewrite CompOpp_involutive.
Qed.

Lemma SFcompare_defined (x y : spec_float) :
  x <> S754_nan -> y <> S754_nan -> exists c, SFcompare x y = Some c.
Proof.
  intros Hx Hy.
  destruct x as [[]|[]| |[] mx ex], y as [[]|[]| |[] my ey];
    try done; simpl; eauto.
Qed.

Lemma is_nan_false (a : float) :
  PrimFloat.is_nan a = false -> Prim2SF a <> S754_nan.
Proof.
  unfold PrimFloat.is_nan. rewrite FloatAxioms.eqb_spec. unfold SFeqb.
  intros E Hn. rewrite Hn in E. done.
Qed.

Lemma f64_lt_le (a b : float) :
  PrimFloat.ltb a b = true -> PrimFloat.leb a b = true.
Proof.
  rewrite ltb_spec, leb_spec. unfold SFltb, SFleb.
  by destruct (SFcompare (Prim2SF a) (Prim2SF b)) as [[]|].
Qed.

Lemma f64_nlt_ge (a b : float) :
  PrimFloat.is_nan a = false -> PrimFloat.is_nan b = false ->
  PrimFloat.ltb a b = false -> PrimFloat.leb b a = true.
Proof.
  intros Ha%is_nan_false Hb%is_nan_false.
  rewrite ltb_spec, leb_spec. unfold SFltb, SFleb.
  rewrite (SFcompare_swap (Prim2SF a) (Prim2SF b)).
  destruct (SFcompare_defined _ _ Ha Hb) as [c ->]. by destruct c.
Qed.

Lemma f64_nle_gt (a b : float) :
  PrimFloat.is_nan a = false -> PrimFloat.is_nan b = false ->
  PrimFloat.leb a b = false -> PrimFloat.ltb b a = true.
Proof.
  intros Ha%is_nan_false Hb%is_nan_false.
  rewrite ltb_spec, leb_spec. unfold SFltb, SFleb.
  rewrite (SFcompare_swap (Prim2SF a) (Prim2SF b)).
  destruct (SFcompare_defined _ _ Ha Hb) as [c ->]. by destruct c.
Qed.
End F64Order.

(** * The clamp *)

Section Clamp.
Context {num : Type} `{JSNumber num}.

(** [Math.max(0, Math.min(100, utility))]. *)
Definition clamp (utility : num) : num :=
  Math_max zero (Math_min (lit 100 0) utility).

(** The closed interval [[0, 100]]. *)
Definition inUtilityRange (u : num) : Prop :=
  leb zero u = true /\ leb u (lit 100 0) = true.
End Clamp.

Lemma clamp_range_F64 (u : float) :
  isNaN u = false -> inUtilityRange (clamp u).
Proof.
  simpl. intros Hu. unfold inUtilityRange, clamp. simpl.
  assert (Hmin : let r := F64ops.min (F64ops.lit 100 0) u in
                 PrimFloat.is_nan r = false /\ PrimFloat.leb r (F64ops.lit 100 0) = true).
  { unfold F64ops.min. rewrite Hu.
    change (PrimFloat.is_nan (F64ops.lit 100 0)) with false. simpl.
    destruct (PrimFloat.ltb (F64ops.lit 100 0) u) eqn:E1; [done|].
    destruct (PrimFloat.ltb u (F64ops.lit 100 0)) eqn:E2.
    { split; [done|by apply f64_lt_le]. }
    destruct (get_sign u); [|done].
    split; [done|]. by apply f64_nlt_ge. }
  destruct Hmin as [Hn Hle]. set (r := F64ops.min (F64ops.lit 100 0) u) in *.
  unfold F64ops.max. rewrite Hn.
  change (PrimFloat.is_nan (@zero float F64)) with false.
  change (@zero float F64) with (F64ops.lit 0 0). simpl.
  destruct (PrimFloat.ltb (F64ops.lit 0 0) r) eqn:E1.
  { split; [by apply f64_lt_le|done]. }
  destruct (PrimFloat.ltb r (F64ops.lit 0 0)) eqn:E2; done.
Qed.

Lemma clamp_range_Exact (u : xnum) :
  isNaN u = false -> inUtilityRange (clamp u).
Proof.
  intros Hu. destruct u as [|s|q]; [done| |].
  - destruct s; vm_compute; done.
  - unfold inUtilityRange, clamp. simpl. unfold Xops.min, Xops.max. simpl.
    unfold Xops.lit, Xops.pow10. rewrite !Qcmult_1_r.
    destruct (Xops.qltb q (Q2Qc (inject_Z 100))) eqn:E1; simpl.
    + destruct (Xops.qltb (Q2Qc (inject_Z 0)) q) eqn:E2; simpl.
      * unfold Xops.leb; simpl. rewrite E1, E2. done.
      * done.
    + done.
Qed.

(** * The expression evaluator *)

Section Whitelist.
Lemma string_forallb_spec (p : ascii -> bool) (s : string) :
  string_forallb p s = true <-> forall c, In c (list_ascii_of_string s) -> p c = true.
Proof.
  induction s as [|a s IH]; simpl.
  - split; [intros _ c []|done].
  - rewrite andb_true_iff, IH. split.
    + intros [Ha Hs] c [<-|Hc]; auto.
    + intros Hall. split; [apply Hall; by left|]. intros c Hc. apply Hall. by right.
Qed.

(** The whitelist test fires exactly when some character of the
    string is outside the whitelist. *)
Lemma testForbidden_spec (expr : string) :
  testForbidden expr = true
  <-> exists c, In c (list_ascii_of_string expr) /\ whitelisted c = false.
Proof.
  unfold testForbidden, string_existsb. rewrite negb_true_iff. split.
  - intros E. induction expr as [|a s IH]; simpl in *; [done|].
    destruct (whitelisted a) eqn:Ea; simpl in E.
    + destruct (IH E) as (c & Hc & Hw). exists c. auto.
    + exists a. auto.
  - intros (c & Hc & Hw).
    destruct (string_forallb _ expr) eqn:E; [|done].
    rewrite string_forallb_spec in E. specialize (E c Hc).
    rewrite Hw in E. done.
Qed.

(** The characters of the whitelist. *)
Lemma whitelisted_spec (c : ascii) :
  whitelisted c = true
  <-> c = "x" \/ isDigit c = true \/ isWhiteSpace c = true
      \/ c = "(" \/ c = ")" \/ c = "+" \/ c = "-" \/ c = "*" \/ c = "/" \/ c = ".".
Proof.
  unfold whitelisted. rewrite !orb_true_iff, !Ascii.eqb_eq. tauto.
Qed.
End Whitelist.

Section Evaluator.
Context {num : Type} `{JSNumber num}.

(** What the host makes of a formula: its text does not compile, its
    run throws, or it returns a value. *)
Inductive evaluation : Type :=
| ParseFailure
| Thrown
| Result (v : jsval num).

Definition hostEvaluation (host : Host num) (expr : string) (x : num)
    (g : globals host) : evaluation * globals host :=
  match Function_ host "x" ("return " ++ expr)%string with
  | None => (ParseFailure, g)
  | Some func =>
      match func (VNumber x) g with
      | (Return v, g') => (Result v, g')
      | (Throw, g') => (Thrown, g')
      end
  end.

(** The failure conditions of the specification: (a) a character
    outside the whitelist, (b) a text that does not parse or a run
    that throws, (c) a result that is NaN as a number. *)
Definition failureCondition (host : Host num) (expr : string) (x : num)
    (g : globals host) : Prop :=
  testForbidden expr = true
  \/ (hostEvaluation host expr x g).1 = ParseFailure
  \/ (hostEvaluation host expr x g).1 = Thrown
  \/ exists v, (hostEvaluation host expr x g).1 = Result v
               /\ isNaN (ToNumber v) = true.

Lemma safeEval_eq (host : Host num) (expr : string) (x : num) (g : globals host) :
  safeEval host expr x g
  = if testForbidden expr then (None, g)
    else match hostEvaluation host expr x g with
         | (Result v, g') => ((if isNaN (ToNumber v) then None else Some v), g')
         | (_, g') => (None, g')
         end.
Proof.
  unfold safeEval, hostEvaluation, isNaN_global.
  destruct (testForbidden expr); [done|].
  destruct (Function_ host "x" _) as [func|]; [|done].
  by destruct (func (VNumber x) g) as [[v|] g'].
Qed.

Lemma safeEval_failure_iff (host : Host num) (expr : string) (x : num)
    (g : globals host) :
  (safeEval host expr x g).1 = None <-> failureCondition host expr x g.
Proof.
  rewrite safeEval_eq. unfold failureCondition.
  destruct (testForbidden expr); [by split; [left|]|].
  destruct (hostEvaluation host expr x g) as [[| |v] g']; simpl.
  - split; [by right; left|done].
  - split; [by right; right; left|done].
  - destruct (isNaN (ToNumber v)) eqn:E; simpl.
    + split; [|done]. intros _. right; right; right. by exists v.
    + split; [done|]. intros [?|[?|[?|(w & Hw & Hn)]]]; try done.
      injection Hw as <-. congruence.
Qed.

Lemma safeEval_value (host : Host num) (expr : string) (x : num)
    (g : globals host) (v : jsval num) :
  testForbidden expr = false ->
  (hostEvaluation host expr x g).1 = Result v ->
  isNaN (ToNumber v) = false ->
  (safeEval host expr x g).1 = Some v.
Proof.
  intros Hw Hv Hn. rewrite safeEval_eq, Hw.
  destruct (hostEvaluation host expr x g) as [e g']; simpl in *. subst e.
  by rewrite Hn.
Qed.

(** A rejected string is never handed to the host: the result and
    the global environment are the same whatever the host. *)
Lemma safeEval_rejected (host : Host num) (expr : string) (x : num)
    (g : globals host) :
  testForbidden expr = true -> safeEval host expr x g = (None, g).
Proof. intros Hw. by rewrite safeEval_eq, Hw. Qed.

(** An accepted string is evaluated by the host, as the one text
    ["return " ++ expr] with the parameter [x]: two hosts that agree
    on that text give the same result. *)
Lemma safeEval_host_only (G : Type)
    (construct1 construct2 :
       string -> string -> option (jsval num -> G -> completion num * G))
    (expr : string) (x : num) (g : G) :
  construct1 "x"%string ("return " ++ expr)%string
  = construct2 "x"%string ("return " ++ expr)%string ->
  safeEval {| globals := G; Function_ := construct1 |} expr x g
  = safeEval {| globals := G; Function_ := construct2 |} expr x g.
Proof. intros Heq. unfold safeEval. simpl. by rewrite Heq. Qed.
End Evaluator.

Arguments evaluation num : clear implicits.

(** * Utility scoring *)

Section UtilitySpec.
Context {num : Type} `{JSNumber num}.
Variable host : Host num.

(** The utility function of the specification: a tagged variant. *)
Inductive UtilityFunctionSpec : Type :=
| Qualitative (levels : list (Level num))
| QuantitativeFormula (formula : string)
| QuantitativeTable (points : list (Point num)).

(** The variant a record of the program stands for.  A formula
    criterion whose formula is still empty stands for none. *)
Definition variantOf (func : UtilityFunction num) : option UtilityFunctionSpec :=
  if String.eqb (criterionType func) "qualitative"
  then Some (Qualitative (qualitativeLevels func))
  else if String.eqb (mode func) "formula" then
    if String.eqb (formulaString func) "" then None
    else Some (QuantitativeFormula (formulaString func))
  else if String.eqb (mode func) "table"
  then Some (QuantitativeTable (points func))
  else None.

(** The utility before the clamp, as the specification words it for
    the three variants. *)
Definition specRawUtility (u : UtilityFunctionSpec) (raw : jsval num)
  : M (globals host) num :=
  match u with
  | Qualitative levels =>
      ret (match find (fun l => strictEqString (label l) raw) levels with
           | Some level => utility level
           | None => zero
           end)
  | QuantitativeFormula formula =>
      let value := parseFloat raw in
      if isNaN value then ret zero
      else
        result ← total (safeEval host formula value);
        ret (match result with
             | Some r => ToNumber r
             | None => zero
             end)
  | QuantitativeTable points =>
      let value := parseFloat raw in
      if isNaN value then ret zero
      else match points with
           | [] => ret zero
           | _ => orThrow (interpolate value points)
           end
  end.

Definition specUtility (u : option UtilityFunctionSpec) (raw : jsval num)
  : M (globals host) num :=
  rawUtility ← match u with
               | Some u => specRawUtility u raw
               | None => ret zero
               end;
  ret (clamp rawUtility).

Lemma scoreCell_spec (func : option (UtilityFunction num)) (raw : jsval num)
    (g : globals host) :
  scoreCell host func raw g = specUtility (func ≫= variantOf) raw g.
Proof.
  unfold scoreCell, specUtility, specRawUtility, clamp.
  destruct func as [func|]; [|done]. simpl. unfold variantOf.
  unfold mbind, M_bind, bind, mret, M_ret, ret, total, orThrow.
  destruct (String.eqb (criterionType func) "qualitative").
  { by destruct (find _ (qualitativeLevels func)). }
  destruct (isNaN (parseFloat raw)) eqn:En; simpl.
  { destruct (String.eqb (mode func) "formula").
    - by destruct (String.eqb (formulaString func) "").
    - by destruct (String.eqb (mode func) "table"). }
  destruct (String.eqb_spec (mode func) "formula") as [Hmode|_]; simpl.
  { rewrite Hmode.
    destruct (String.eqb (formulaString func) ""); simpl; [done|].
    by destruct (safeEval host (formulaString func) (parseFloat raw) g) as [[r|] g']. }
  destruct (String.eqb (mode func) "table"); simpl; [|done].
  destruct (points func) as [|p ps] eqn:Ep; simpl; [done|].
  by destruct (interpolate (parseFloat raw) (p :: ps)).
Qed.

(** A performance value of no use: it equals no label and parses to
    no number. *)
Definition uselessRaw (raw : jsval num) : Prop :=
  (forall l, strictEqString l raw = false) /\ isNaN (parseFloat raw) = true.

Lemma scoreCell_useless (func : option (UtilityFunction num)) (raw : jsval num)
    (g : globals host) :
  uselessRaw raw -> scoreCell host func raw g = (Some (clamp zero), g).
Proof.
  intros [Hl Hn]. rewrite scoreCell_spec. unfold specUtility, specRawUtility.
  destruct (func ≫= variantOf) as [[levels|formula|points]|];
    unfold mbind, M_bind, bind, mret, M_ret, ret, total, orThrow; try done.
  - assert (find (fun l : Level num => strictEqString (label l) raw) levels = None) as ->;
      [|done].
    induction levels as [|l ls IH]; simpl; [done|]. by rewrite Hl.
  - by rewrite Hn.
  - by rewrite Hn.
Qed.
End UtilitySpec.

Arguments UtilityFunctionSpec num : clear implicits.

(** * The two scoring loops *)

Section ForEach.
Context {G A S : Type}.

(** A loop whose body neither throws nor changes the environment. *)
Lemma forEach_pure (l : list A) (body : A -> S -> M G S) (f : A -> S -> S)
    (st : S) (g : G) :
  (forall a st, a ∈ l -> body a st g = (Some (f a st), g)) ->
  forEach l body st g = (Some (fold_left (fun st a => f a st) l st), g).
Proof.
  revert st. induction l as [|a l IH]; intros st Hbody; simpl; [done|].
  unfold mbind, M_bind, bind. rewrite Hbody by (by left). fold (@bind G).
  apply IH. intros a' st' Ha'. apply Hbody. by right.
Qed.

(** What a loop returns was built by its body, step by step. *)
Lemma forEach_inv (P : S -> Prop) (l : list A) (body : A -> S -> M G S)
    (st st' : S) (g g' : G) :
  P st ->
  (forall a s s' g0 g1, a ∈ l -> P s -> body a s g0 = (Some s', g1) -> P s') ->
  forEach l body st g = (Some st', g') -> P st'.
Proof.
  revert st g. induction l as [|a l IH]; intros st g HP Hbody; simpl.
  - intros [= <- _]. done.
  - unfold mbind, M_bind, bind.
    destruct (body a st g) as [[s|] g1] eqn:E; [|done].
    apply IH.
    + eapply Hbody; [by left|exact HP|exact E].
    + intros a' s0 s1 g0 g2 Ha'. apply Hbody. by right.
Qed.
End ForEach.

Section Grids.
Context {V : Type}.

Lemma lookup2_insert2 (o : gmap string (gmap string V)) (a b a' b' : string) (v : V) :
  is_Some (o !! a) ->
  lookup2 (insert2 o a b v) a' b'
  = if decide (a = a' /\ b = b') then Some v else lookup2 o a' b'.
Proof.
  intros [row Hrow]. unfold lookup2, insert2.
  destruct (decide (a = a')) as [<-|Hne].
  - rewrite lookup_alter_eq, Hrow. simpl.
    destruct (decide (b = b')) as [<-|Hb].
    + rewrite lookup_insert_eq. by rewrite decide_True.
    + rewrite lookup_insert_ne by done. rewrite decide_False by tauto. done.
  - rewrite lookup_alter_ne by done. rewrite decide_False by tauto. done.
Qed.

Lemma insert2_is_Some (o : gmap string (gmap string V)) (a b a' : string) (v : V) :
  is_Some (o !! a') -> is_Some (insert2 o a b v !! a').
Proof.
  intros [row Hrow]. unfold insert2.
  destruct (decide (a = a')) as [<-|Hne].
  - rewrite lookup_alter_eq, Hrow. by eexists.
  - rewrite lookup_alter_ne by done. by eexists.
Qed.
End Grids.

Section ScoringLoops.
Context {num : Type} `{JSNumber num}.
Variable host : Host num.

(** The shape the two loops share, [rawOf] being how a loop reads
    the performance value of an option for a criterion. *)
Definition scoringLoop (rawOf : Item -> Item -> jsval num)
    (options criteria : list Item)
    (utilityFunctions : gmap string (UtilityFunction num))
  : M (globals host) (gmap string (gmap string num)) :=
  forEach options (fun option acc =>
    forEach criteria (fun criterion acc =>
      v ← scoreCell host (utilityFunctions !! item_id criterion)
            (rawOf option criterion);
      ret (insert2 acc (item_id option) (item_id criterion) v))
      (<[item_id option := ∅]> acc))
    ∅.

(** How [calculateScores] reads an entered value. *)
Definition enteredValue (optionValues : gmap string (gmap string (jsval num)))
    (option criterion : Item) : jsval num :=
  default VUndefined (lookup2 optionValues (item_id option) (item_id criterion)).

(** How [calculateOptionValues] reads one: a property of the id of
    the option. *)
Definition idProperty (inherited : string -> option string)
    (option criterion : Item) : jsval num :=
  stringGet inherited (item_id option) (item_id criterion).

Lemma calculateScores_loop options criteria optionValues utilityFunctions :
  calculateScores host options criteria optionValues utilityFunctions
  = scoringLoop (enteredValue optionValues) options criteria utilityFunctions.
Proof. done. Qed.

Lemma calculateOptionValues_loop inherited options criteria utilityFunctions :
  calculateOptionValues inherited host options criteria utilityFunctions
  = scoringLoop (idProperty inherited) options criteria utilityFunctions.
Proof. done. Qed.

(** Every score a loop stores is the score of a cell. *)
Definition cellsOf (rawOf : Item -> Item -> jsval num)
    (options criteria : list Item)
    (utilityFunctions : gmap string (UtilityFunction num))
    (grid : gmap string (gmap string num)) : Prop :=
  forall oid cid v,
    lookup2 grid oid cid = Some v ->
    exists option criterion g0 g1,
      option ∈ options /\ criterion ∈ criteria
      /\ item_id option = oid /\ item_id criterion = cid
      /\ scoreCell host (utilityFunctions !! cid) (rawOf option criterion) g0
         = (Some v, g1).

Lemma scoringLoop_cells rawOf options criteria utilityFunctions g grid g' :
  scoringLoop rawOf options criteria utilityFunctions g = (Some grid, g') ->
  cellsOf rawOf options criteria utilityFunctions grid.
Proof.
  unfold scoringLoop.
  apply (forEach_inv (cellsOf rawOf options criteria utilityFunctions)).
  { intros oid cid v. unfold lookup2. by rewrite lookup_empty. }
  intros option acc acc' g0 g1 Hoption Hacc.
  apply (forEach_inv (fun s =>
           cellsOf rawOf options criteria utilityFunctions s
           /\ is_Some (s !! item_id option))).
  - split; [|by rewrite lookup_insert_eq].
    intros oid cid v. unfold lookup2.
    destruct (decide (item_id option = oid)) as [<-|Hne].
    + rewrite lookup_insert_eq. simpl. by rewrite lookup_empty.
    + rewrite lookup_insert_ne by done. apply Hacc.
  - intros criterion s s' g2 g3 Hcriterion [Hs Hrow].
    unfold mbind, M_bind, bind, mret, M_ret, ret.
    destruct (scoreCell host _ _ g2) as [[v|] g4] eqn:E; [|done].
    intros [= <- <-]. split; [|by apply insert2_is_Some].
    intros oid cid w. rewrite lookup2_insert2 by done.
    destruct (decide _) as [[<- <-]|_]; [|apply Hs].
    intros [= <-]. by exists option, criterion, g2, g4.
Qed.

(** A loop over values of no use stores [clamp 0] everywhere,
    consults no formula and cannot throw. *)
Lemma fold_insert2 (z : num) (oid : string) (cs : list Item)
    (acc : gmap string (gmap string num)) :
  is_Some (acc !! oid) ->
  let r := fold_left (fun acc c => insert2 acc oid (item_id c) z) cs acc in
  is_Some (r !! oid)
  /\ forall a b, lookup2 r a b
                 = if decide (a = oid /\ b ∈ (item_id <$> cs)) then Some z
                   else lookup2 acc a b.
Proof.
  revert acc. induction cs as [|c cs IH]; intros acc Hrow; cbn [fold_left].
  - split; [done|]. intros a b. rewrite decide_False; [done|].
    intros [_ Hb]. by apply elem_of_nil in Hb.
  - destruct (IH (insert2 acc oid (item_id c) z)) as [Hr Hlook].
    { by apply insert2_is_Some. }
    split; [done|]. intros a b. rewrite Hlook, lookup2_insert2 by done.
    rewrite fmap_cons.
    destruct (decide (a = oid /\ b ∈ (item_id <$> cs))) as [[-> Hb]|Hn1].
    + rewrite decide_True; [done|]. split; [done|by right].
    + destruct (decide (oid = a /\ item_id c = b)) as [[<- <-]|Hn2].
      * rewrite decide_True; [done|]. split; [done|by left].
      * rewrite decide_False; [done|].
        intros [-> Hb]. apply elem_of_cons in Hb as [->|Hb]; tauto.
Qed.

Lemma scoringLoop_useless rawOf options criteria utilityFunctions g :
  (forall option criterion, option ∈ options -> criterion ∈ criteria ->
                            uselessRaw (rawOf option criterion)) ->
  exists grid,
    scoringLoop rawOf options criteria utilityFunctions g = (Some grid, g)
    /\ forall option criterion, option ∈ options -> criterion ∈ criteria ->
         lookup2 grid (item_id option) (item_id criterion) = Some (clamp zero).
Proof.
  intros Huseless. unfold scoringLoop.
  set (z := clamp (@zero num _)).
  set (row := fun oid (acc : gmap string (gmap string num)) =>
                fold_left (fun acc c => insert2 acc oid (item_id c) z) criteria
                  (<[oid := ∅]> acc)).
  rewrite (forEach_pure options _ (fun option acc => row (item_id option) acc)).
  2:{ intros option acc Hoption.
      rewrite (forEach_pure criteria _
                 (fun criterion acc => insert2 acc (item_id option) (item_id criterion) z));
        [done|].
      intros criterion s Hcriterion.
      unfold mbind, M_bind, bind, mret, M_ret, ret.
      rewrite scoreCell_useless by (by apply Huseless). done. }
  eexists. split; [done|].
  (* the pure folds *)
  assert (Hfold : forall (os : list Item) (acc : gmap string (gmap string num)),
    forall oid c, c ∈ criteria ->
      (oid ∈ (item_id <$> os)
       \/ lookup2 acc oid (item_id c) = Some z) ->
      lookup2 (fold_left (fun acc o => row (item_id o) acc) os acc) oid (item_id c)
      = Some z).
  { induction os as [|o os IH]; intros acc oid c Hc Hcase; cbn [fold_left].
    - destruct Hcase as [Hin|Hacc]; [by apply elem_of_nil in Hin|done].
    - apply IH; [done|].
      destruct (decide (oid ∈ (item_id <$> os))) as [|Hnin]; [by left|right].
      unfold row.
      destruct (fold_insert2 z (item_id o) criteria (<[item_id o := ∅]> acc))
        as [_ Hlook]; [by rewrite lookup_insert_eq|].
      rewrite Hlook.
      destruct (decide (oid = item_id o /\ item_id c ∈ (item_id <$> criteria)))
        as [|Hn]; [done|].
      destruct Hcase as [Hin|Hacc].
      + rewrite fmap_cons in Hin. apply elem_of_cons in Hin as [->|Hin]; [|done].
        exfalso. apply Hn. split; [done|]. by apply list_elem_of_fmap_2.
      + unfold lookup2. rewrite lookup_insert_ne; [exact Hacc|].
        intros Heq. apply Hn. split; [done|]. by apply list_elem_of_fmap_2. }
  intros option criterion Hoption Hcriterion.
  apply Hfold; [done|]. left. by apply list_elem_of_fmap_2.
Qed.
End ScoringLoops.

(** * Aggregation and ranking *)

Section Aggregation.
Context {num : Type} `{JSNumber num}.

(** [score(option) = Σ_i UtilityScore(option, criteria[i]) *
    WeightVector[i]], a missing utility or weight counting as 0. *)
Definition specScore (option : Item) (criteria : list Item) (weights : list num)
    (utilityScores : gmap string (gmap string num)) : num :=
  sumArray
    (imap (fun i criterion =>
             mul (orZero' (lookup2 utilityScores (item_id option) (item_id criterion)))
               (orZero' (weights !! i)))
       criteria).

Lemma imap_pair {A B : Type} (f : nat -> A -> B) (l : list A) :
  imap f l = (fun p => f p.1 p.2) <$> imap (fun i a => (i, a)) l.
Proof.
  apply list_eq. intros i.
  rewrite list_lookup_fmap, !list_lookup_imap. by destruct (l !! i).
Qed.

Lemma fold_left_pointwise {A B : Type} (f g : A -> B -> A) (l : list B) (a : A) :
  (forall a b, f a b = g a b) -> fold_left f l a = fold_left g l a.
Proof.
  intros Hfg. revert a. induction l as [|b l IH]; intros a; simpl; [done|].
  by rewrite Hfg, IH.
Qed.

Lemma totalScoreOf_spec option criteria weights utilityScores :
  totalScoreOf option criteria weights utilityScores
  = specScore option criteria weights utilityScores.
Proof.
  unfold totalScoreOf, specScore, sumArray.
  rewrite (imap_pair (fun i criterion => mul _ _)), fold_left_fmap_acc.
  apply fold_left_pointwise. by intros acc [i c].
Qed.

Lemma fold_left_snoc {A B : Type} (f : A -> B) (l : list A) (acc : list B) :
  fold_left (fun acc a => acc ++ [f a]) l acc = acc ++ (f <$> l).
Proof.
  revert acc. induction l as [|a l IH]; intros acc; simpl.
  - by rewrite app_nil_r.
  - rewrite IH, <- app_assoc. done.
Qed.

Lemma calculateFinalScores_spec options criteria weights optionValues :
  calculateFinalScores options criteria weights optionValues
  = (fun option =>
       {| optionId := item_id option;
          score := specScore option criteria weights optionValues |}) <$> options.
Proof.
  unfold calculateFinalScores. rewrite fold_left_snoc. simpl.
  apply list_fmap_ext. intros i o _. by rewrite totalScoreOf_spec.
Qed.

Lemma fold_left_insert_notin {A V : Type} (key : A -> string) (f : A -> V)
    (l : list A) (m : gmap string V) (k : string) :
  k ∉ (key <$> l) ->
  fold_left (fun m a => <[key a := f a]> m) l m !! k = m !! k.
Proof.
  revert m. induction l as [|a l IH]; intros m Hk; simpl; [done|].
  rewrite fmap_cons in Hk. apply not_elem_of_cons in Hk as [Hne Hk].
  rewrite IH by done. by rewrite lookup_insert_ne.
Qed.

Lemma fold_left_insert_in {A V : Type} (key : A -> string) (f : A -> V)
    (l : list A) (m : gmap string V) (a : A) :
  NoDup (key <$> l) -> a ∈ l ->
  fold_left (fun m a => <[key a := f a]> m) l m !! key a = Some (f a).
Proof.
  revert m. induction l as [|b l IH]; intros m Hnd Ha; simpl.
  - by apply elem_of_nil in Ha.
  - rewrite fmap_cons in Hnd. apply NoDup_cons in Hnd as [Hb Hnd].
    apply elem_of_cons in Ha as [->|Ha].
    + rewrite fold_left_insert_notin by done. by rewrite lookup_insert_eq.
    + by apply IH.
Qed.

(** [Step5] stores the same sums under the option ids. *)
Lemma Step5_finalScores_spec options criteria weights utilityScores option :
  NoDup (item_id <$> options) -> option ∈ options ->
  Step5_finalScores options criteria weights utilityScores !! item_id option
  = Some (specScore option criteria weights utilityScores).
Proof.
  intros Hnd Ho. unfold Step5_finalScores.
  rewrite (fold_left_insert_in item_id
             (fun option => totalScoreOf option criteria weights utilityScores))
    by done.
  by rewrite totalScoreOf_spec.
Qed.

(** The options with their scores, before the ranking. *)
Definition Step5_enriched (options : list Item) (finalScores : gmap string num)
  : list (ScoredOption num) :=
  (fun o => {| so_option := o; so_score := orZero' (finalScores !! item_id o) |})
    <$> options.

Definition App_enriched (options : list Item) (finalScores : list (FinalScore num))
  : list (ScoredOption num) :=
  (fun opt =>
     {| so_option := opt;
        so_score :=
          orZero' (score <$> find (fun s => String.eqb (optionId s) (item_id opt))
                               finalScores) |}) <$> options.

Lemma Step5_sortedOptions_eq options finalScores :
  Step5_sortedOptions options finalScores
  = Array_sort byScoreDescending (Step5_enriched options finalScores).
Proof. done. Qed.

Lemma App_sortedOptions_eq options finalScores :
  finalScores <> [] ->
  App_sortedOptions options finalScores
  = Array_sort byScoreDescending (App_enriched options finalScores).
Proof. unfold App_sortedOptions. by destruct finalScores. Qed.
End Aggregation.

Section ExactRanking.
Local Open Scope Qc_scope.

Lemma xgtb_sub (a b : xnum) :
  isNaN a = false -> isNaN b = false -> gtb (sub b a) zero = ltb a b.
Proof.
  intros Ha Hb. destruct a as [|s|q], b as [|t|p]; try done.
  - unfold gtb. rewrite xzero. by destruct s, t.
  - unfold gtb. rewrite xzero. by destruct s.
  - apply xsub_pos.
Qed.

Lemma xltb_asym (a b : xnum) : ltb a b = true -> ltb b a = false.
Proof.
  destruct a as [|s|q], b as [|t|p]; try done; simpl;
    try (by destruct s); try (by destruct t); try (by destruct s, t).
  intros Hlt%qltb_lt. apply qltb_ge. by apply Qclt_le_weak.
Qed.

Lemma xltb_negtrans (a b c : xnum) :
  isNaN a = false -> isNaN b = false -> isNaN c = false ->
  ltb a b = false -> ltb b c = false -> ltb a c = false.
Proof.
  intros Ha Hb Hc.
  destruct a as [|s|q], b as [|t|p], c as [|u|r]; try done; simpl;
    try (by destruct s); try (by destruct t); try (by destruct u);
    try (by destruct s, t); try (by destruct s, u); try (by destruct t, u);
    try (by destruct s, t, u).
  intros H1%qltb_ge H2%qltb_ge. apply qltb_ge. by eapply Qcle_trans.
Qed.

Lemma xties_eqb (a b : xnum) :
  isNaN a = false -> isNaN b = false ->
  negb (ltb a b) && negb (ltb b a) = eqb a b.
Proof.
  intros Ha Hb. destruct a as [|s|q], b as [|t|p]; try done; simpl;
    try (by destruct s); try (by destruct t); try (by destruct s, t).
  - destruct (Xops.qeqb q p) eqn:E.
    + apply qeqb_eq in E as ->.
      rewrite (proj2 (qltb_ge p p)) by apply Qcle_refl. done.
    + destruct (Xops.qltb q p) eqn:E1; [done|].
      destruct (Xops.qltb p q) eqn:E2; [done|].
      apply qltb_ge in E1, E2. exfalso.
      assert (q = p) by (by apply Qcle_antisym).
      subst. by rewrite (proj2 (qeqb_eq p p)) in E.
Qed.

Lemma xorZero'_notNaN (v : option xnum) : isNaN (orZero' v) = false.
Proof.
  destruct v as [v|]; simpl; [|done]. unfold orZero.
  destruct (eqb v zero || isNaN v) eqn:E; [done|].
  by apply orb_false_iff in E as [_ E].
Qed.

Definition scored (a : ScoredOption xnum) : Prop := isNaN (so_score a) = false.

Lemma behind_byScore (a b : ScoredOption xnum) :
  scored a -> scored b ->
  behind byScoreDescending a b = ltb (so_score a) (so_score b).
Proof. intros Ha Hb. by apply xgtb_sub. Qed.

(** A ranking: the same options, scores descending, ties in their
    original order. *)
Definition ranks (enriched ranked : list (ScoredOption xnum)) : Prop :=
  ranked ≡ₚ enriched
  /\ StronglySorted (fun a b => leb (so_score b) (so_score a) = true) ranked
  /\ forall s : xnum,
       isNaN s = false ->
       filter (fun a => eqb (so_score a) s = true) ranked
       = filter (fun a => eqb (so_score a) s = true) enriched.

Lemma xleb_of_nlt (a b : xnum) :
  isNaN a = false -> isNaN b = false -> ltb a b = false -> leb b a = true.
Proof.
  intros Ha Hb. destruct a as [|s|q], b as [|t|p]; try done;
    try (by destruct s); try (by destruct t); try (by destruct s, t).
  rewrite xltb_fin. intros Hlt%qltb_ge. by apply xleb_fin.
Qed.

Lemma Array_sort_ranks (enriched : list (ScoredOption xnum)) :
  Forall scored enriched ->
  ranks enriched (Array_sort byScoreDescending enriched).
Proof.
  intros Hok.
  assert (Hasym : forall a b, scored a -> scored b ->
            behind byScoreDescending a b = true ->
            behind byScoreDescending b a = false).
  { intros a b Ha Hb. rewrite !behind_byScore by done. apply xltb_asym. }
  assert (Htrans : forall a b c, scored a -> scored b -> scored c ->
            behind byScoreDescending a b = false ->
            behind byScoreDescending b c = false ->
            behind byScoreDescending a c = false).
  { intros a b c Ha Hb Hc. rewrite !behind_byScore by done.
    by apply xltb_negtrans. }
  split; [apply Array_sort_perm|]. split.
  - pose proof (Array_sort_sorted byScoreDescending scored Hasym Htrans
                  enriched Hok) as Hs.
    assert (Hok' : Forall scored (Array_sort byScoreDescending enriched))
      by (by rewrite Array_sort_perm).
    revert Hok'. induction Hs as [|a l Hs IH Ha]; intros Hok'; constructor.
    + apply IH. by apply Forall_cons in Hok' as [_ ?].
    + apply Forall_cons in Hok' as [Hoka Hokl].
      rewrite Forall_forall in Ha, Hokl. apply Forall_forall. intros b Hb.
      specialize (Ha b Hb). unfold inOrder in Ha.
      rewrite behind_byScore in Ha by auto.
      apply xleb_of_nlt; [done|by apply Hokl|done].
  - intros s Hs.
    set (c := {| so_option := {| item_id := ""; content := "" |}; so_score := s |}).
    assert (Hc : scored c) by done.
    pose proof (Array_sort_stable byScoreDescending scored Htrans c enriched Hc Hok)
      as Hst.
    assert (Hiff : forall l : list (ScoredOption xnum), Forall scored l ->
              filter (fun a => eqb (so_score a) s = true) l
              = filter (fun x => ties byScoreDescending c x = true) l).
    { intros l Hl. induction l as [|a l IH]; [done|].
      apply Forall_cons in Hl as [Ha Hl]. rewrite !filter_cons, IH by done.
      unfold ties. rewrite !behind_byScore by done.
      rewrite xties_eqb by done.
      destruct (decide (eqb (so_score a) s = true)) as [E|E];
        destruct (decide (_ = true)) as [E'|E']; done. }
    rewrite !Hiff; [done|done|by rewrite Array_sort_perm].
Qed.
End ExactRanking.

(** * The pairwise-matrix mutator *)

Section MutatorLemmas.
Context {num : Type} `{JSNumber num}.

(** [matrix[i][j] == 1 / matrix[j][i]] for all [i ≠ j]. *)
Definition reciprocal (n : nat) (m : matrix num) : Prop :=
  forall i j, (i < n)%nat -> (j < n)%nat -> i <> j ->
              eqb (entry m i j) (div one (entry m j i)) = true.

(** [matrix[i][i] == 1] for all [i]. *)
Definition unitDiagonal (n : nat) (m : matrix num) : Prop :=
  forall i, (i < n)%nat -> eqb (entry m i i) one = true.

(** What the mutator leaves of the old matrix. *)
Definition updated (m m' : matrix num) (i j : nat) (v : num) : Prop :=
  forall a b,
    entry m' a b
    = if decide (a = i /\ b = j) then v
      else if decide (a = j /\ b = i) then div one v
      else entry m a b.

Lemma entry_insert_row (m : matrix num) (i a b : nat) (row : list num) :
  (i < length m)%nat ->
  entry (<[i := row]> m) a b = if decide (a = i) then getNum row b else entry m a b.
Proof.
  intros Hi. unfold entry.
  destruct (decide (a = i)) as [->|Hne].
  - by rewrite list_lookup_insert_eq.
  - by rewrite list_lookup_insert_ne.
Qed.

Lemma getNum_setNum (row : list num) (j b : nat) (v : num) :
  (j < length row)%nat ->
  getNum (setNum row j v) b = if decide (b = j) then v else getNum row b.
Proof.
  intros Hj. unfold getNum, setNum.
  destruct (Nat.ltb_spec j (length row)) as [_|]; [|lia].
  destruct (decide (b = j)) as [->|Hne].
  - by rewrite list_lookup_insert_eq.
  - by rewrite list_lookup_insert_ne.
Qed.

Lemma length_setNum (row : list num) (j : nat) (v : num) :
  (j < length row)%nat -> length (setNum row j v) = length row.
Proof.
  intros Hj. unfold setNum.
  destruct (Nat.ltb_spec j (length row)) as [_|]; [|lia].
  apply length_insert.
Qed.

Lemma square_insert_row (n i : nat) (m : matrix num) (row : list num) :
  square n m -> length row = n -> square n (<[i := row]> m).
Proof.
  intros [Hlen Hrows] Hrow. split; [by rewrite length_insert|].
  apply Forall_insert; done.
Qed.

Lemma square_row (n i : nat) (m : matrix num) :
  square n m -> (i < n)%nat -> exists row, m !! i = Some row /\ length row = n.
Proof.
  intros [Hlen Hrows] Hi.
  destruct (lookup_lt_is_Some_2 m i) as [row Hrow]; [lia|].
  exists row. split; [done|].
  rewrite Forall_forall in Hrows. apply Hrows. by eapply list_elem_of_lookup_2.
Qed.

Lemma handleComparisonChange_updated (n : nat) (m : matrix num) (i j : nat) (v : num) :
  square n m -> (i < n)%nat -> (j < n)%nat -> i <> j ->
  exists m', handleComparisonChange m i j v = Some m'
             /\ square n m' /\ updated m m' i j v.
Proof.
  intros Hsq Hi Hj Hij. unfold handleComparisonChange.
  destruct (square_row n i m Hsq Hi) as (row_i & Hrow_i & Hlen_i).
  destruct (square_row n j m Hsq Hj) as (row_j & Hrow_j & Hlen_j).
  rewrite Hrow_i. simpl.
  rewrite list_lookup_insert_ne by done. rewrite Hrow_j. simpl.
  eexists. split; [done|].
  assert (Hsq1 : square n (<[i := setNum row_i j v]> m)).
  { apply square_insert_row; [done|]. rewrite length_setNum; lia. }
  split.
  { apply square_insert_row; [done|]. rewrite length_setNum; lia. }
  intros a b.
  rewrite entry_insert_row by (destruct Hsq1 as [-> _]; lia).
  rewrite entry_insert_row by (destruct Hsq as [-> _]; lia).
  destruct (decide (a = j)) as [->|Haj].
  - rewrite getNum_setNum by lia.
    rewrite (decide_False (P := j = i /\ b = j)) by lia.
    destruct (decide (b = i)) as [->|Hbi].
    + by rewrite decide_True.
    + rewrite decide_False by lia. unfold entry. by rewrite Hrow_j.
  - rewrite (decide_False (P := a = j /\ b = i)) by lia.
    destruct (decide (a = i)) as [->|Hai].
    + rewrite getNum_setNum by lia.
      destruct (decide (b = j)) as [->|Hbj].
      * by rewrite decide_True.
      * rewrite decide_False by lia. unfold entry. by rewrite Hrow_i.
    + rewrite decide_False by lia. done.
Qed.

(** The two facts on the new value that the invariants need. *)
Definition invertible (v : num) : Prop :=
  eqb v (div one (div one v)) = true /\ eqb (div one v) (div one v) = true.

Lemma updated_invariants (n : nat) (m m' : matrix num) (i j : nat) (v : num) :
  i <> j -> invertible v -> updated m m' i j v ->
  reciprocal n m -> unitDiagonal n m ->
  reciprocal n m' /\ unitDiagonal n m'.
Proof.
  intros Hij [Hv1 Hv2] Hup Hrec Hdiag. split.
  - intros a b Ha Hb Hab. rewrite !Hup.
    destruct (decide (a = i /\ b = j)) as [[-> ->]|H1].
    { rewrite (decide_False (P := j = i /\ i = j)) by lia.
      by rewrite decide_True. }
    destruct (decide (a = j /\ b = i)) as [[-> ->]|H2].
    { by rewrite decide_True. }
    rewrite (decide_False (P := b = i /\ a = j)) by lia.
    rewrite (decide_False (P := b = j /\ a = i)) by lia.
    by apply Hrec.
  - intros a Ha. rewrite Hup.
    rewrite (decide_False (P := a = i /\ a = j)) by lia.
    rewrite (decide_False (P := a = j /\ a = i)) by lia.
    by apply Hdiag.
Qed.

(** The mutator keeps the invariants, sets the entry, and leaves the
    entries of the other pairs as they were. *)
Definition mutation (n : nat) (m : matrix num) (i j : nat) (v : num) : Prop :=
  exists m',
    handleComparisonChange m i j v = Some m'
    /\ square n m' /\ reciprocal n m' /\ unitDiagonal n m'
    /\ entry m' i j = v
    /\ forall a b, (a, b) <> (i, j) -> (a, b) <> (j, i) -> entry m' a b = entry m a b.

Lemma handleComparisonChange_mutation (n : nat) (m : matrix num) (i j : nat) (v : num) :
  square n m -> reciprocal n m -> unitDiagonal n m ->
  (i < n)%nat -> (j < n)%nat -> i <> j -> invertible v ->
  mutation n m i j v.
Proof.
  intros Hsq Hrec Hdiag Hi Hj Hij Hv.
  destruct (handleComparisonChange_updated n m i j v Hsq Hi Hj Hij)
    as (m' & Hm' & Hsq' & Hup).
  destruct (updated_invariants n m m' i j v Hij Hv Hup Hrec Hdiag) as [Hrec' Hdiag'].
  exists m'. repeat (split; [done|]). split.
  - rewrite Hup. by rewrite decide_True.
  - intros a b H1 H2. rewrite Hup.
    rewrite decide_False by (intros [-> ->]; done).
    rewrite decide_False by (intros [-> ->]; done). done.
Qed.

(** The positions of the slider: the range input runs from -8 to 8
    in steps of 1. *)
Definition sliderPositions : list string :=
  ["-8"; "-7"; "-6"; "-5"; "-4"; "-3"; "-2"; "-1"; "0";
   "1"; "2"; "3"; "4"; "5"; "6"; "7"; "8"]%string.
End MutatorLemmas.

Lemma slider_invertible_F64 (s : string) :
  s ∈ sliderPositions -> invertible (handleSliderChange s : float).
Proof.
  intros Hs. unfold sliderPositions in Hs.
  repeat (apply elem_of_cons in Hs as [->|Hs]; [by vm_compute|]).
  by apply elem_of_nil in Hs.
Qed.

Lemma positive_invertible_Exact (q : Qc) : (0 < q)%Qc -> invertible (XFin q).
Proof.
  intros Hq. unfold invertible. rewrite xone.
  assert (Hne : q <> 0%Qc).
  { intros ->. by apply Qclt_not_eq in Hq. }
  assert (Hinv : (1 / q)%Qc <> 0%Qc).
  { intros Heq. apply Hne.
    replace q with (q * q * (1 / q))%Qc by (field; done).
    rewrite Heq. ring. }
  rewrite (xdiv_fin 1 q Hne), (xdiv_fin 1 _ Hinv). simpl.
  split; apply qeqb_eq; [field; done|done].
Qed.

(** * The two pipelines *)

Section ExactScores.
Local Open Scope Qc_scope.

Lemma Qc_le_add_nonneg (a t : Qc) : 0 <= t -> a <= a + t.
Proof.
  intros Ht. rewrite <- (Qcplus_0_r a) at 1.
  apply Qcplus_le_compat; [apply Qcle_refl|done].
Qed.

Lemma Qc_add_le_zero (a t : Qc) : 0 <= t -> a + t <= a -> t = 0.
Proof.
  intros Ht Hle. apply Qcle_antisym; [|done].
  apply Qcle_minus_iff in Hle.
  replace (a + - (a + t)) with (- t) in Hle by ring.
  apply Qcopp_le_compat in Hle.
  replace (- - t) with t in Hle by ring.
  replace (- 0) with 0 in Hle by ring. done.
Qed.

Lemma XFin_inj (a b : Qc) : XFin a = XFin b -> a = b.
Proof.
  intros Hab.
  exact (f_equal (fun x => match x with XFin q => q | _ => a end) Hab).
Qed.

(** A sum of finite terms that are not negative is finite, and it is
    zero only if every term is. *)
Lemma fold_add_nonneg (l : list xnum) (acc : Qc) :
  Forall (fun x => exists t, x = XFin t /\ 0 <= t) l ->
  exists s, fold_left add l (XFin acc) = XFin s
            /\ acc <= s
            /\ (s = acc -> Forall (fun x => x = XFin 0) l).
Proof.
  revert acc. induction l as [|x l IH]; intros acc Hl; simpl.
  - exists acc. split; [done|]. split; [apply Qcle_refl|done].
  - apply Forall_cons in Hl as [(t & -> & Ht) Hl].
    destruct (IH (acc + t) Hl) as (s & Hs & Hle & Hz).
    exists s. split; [exact Hs|]. split.
    + eapply Qcle_trans; [|exact Hle]. by apply Qc_le_add_nonneg.
    + intros ->. assert (t = 0) as -> by (by apply (Qc_add_le_zero acc)).
      constructor; [done|]. apply Hz. ring.
Qed.

Lemma sumArray_zero_terms (l : list xnum) :
  Forall (fun x => exists t, x = XFin t /\ 0 <= t) l ->
  sumArray l = zero -> Forall (fun x => x = XFin 0) l.
Proof.
  intros Hl. unfold sumArray. rewrite xzero.
  destruct (fold_add_nonneg l 0 Hl) as (s & -> & _ & Hz).
  intros Hs. apply Hz. by apply XFin_inj.
Qed.

(** A utility the aggregation can use: a real number that is not
    negative. *)
Definition usable (v : option xnum) : Prop :=
  exists u, orZero' v = XFin u /\ 0 <= u.

Definition positiveWeight (v : option xnum) : Prop :=
  exists w, v = Some (XFin w) /\ 0 < w.

Lemma orZero'_positive (w : Qc) : 0 < w -> orZero' (Some (XFin w)) = XFin w.
Proof.
  intros Hw. simpl. unfold orZero. rewrite xzero. simpl.
  rewrite qeqb_ne; [done|]. intros ->. by apply Qclt_not_eq in Hw.
Qed.

(** With positive weights, a score is zero only if every utility that
    went into it is. *)
Lemma specScore_zero (option : Item) (criteria : list Item) (weights : list xnum)
    (utilityScores : gmap string (gmap string xnum)) :
  (forall i criterion, criteria !! i = Some criterion ->
      positiveWeight (weights !! i)
      /\ usable (lookup2 utilityScores (item_id option) (item_id criterion))) ->
  specScore option criteria weights utilityScores = zero ->
  forall criterion, criterion ∈ criteria ->
    orZero' (lookup2 utilityScores (item_id option) (item_id criterion)) = zero.
Proof.
  intros Hok Hzero criterion Hc. unfold specScore in Hzero.
  apply sumArray_zero_terms in Hzero.
  - apply list_elem_of_lookup in Hc as [i Hi].
    rewrite Forall_forall in Hzero.
    destruct (Hok i criterion Hi) as [(w & Hw & Hwpos) (u & Hu & Hupos)].
    specialize (Hzero (mul (orZero' (lookup2 utilityScores (item_id option)
                                        (item_id criterion)))
                         (orZero' (weights !! i)))).
    rewrite Hu, Hw, orZero'_positive in Hzero by done.
    rewrite Hu, xzero. rewrite xmul_fin in Hzero.
    assert (u * w = 0) as Huw.
    { apply XFin_inj, Hzero. apply (list_elem_of_lookup_2 _ i).
      rewrite list_lookup_imap, Hi. simpl.
      by rewrite Hu, Hw, orZero'_positive. }
    apply Qcmult_integral in Huw as [->| ->]; [done|].
    by apply Qclt_not_eq in Hwpos.
  - apply Forall_forall. intros x Hx.
    apply list_elem_of_lookup in Hx as [i Hi].
    rewrite list_lookup_imap in Hi.
    destruct (criteria !! i) as [c|] eqn:Ec; [|done]. simpl in Hi.
    injection Hi as <-.
    destruct (Hok i c Ec) as [(w & Hw & Hwpos) (u & Hu & Hupos)].
    rewrite Hu, Hw, orZero'_positive by done.
    exists (u * w). split; [done|].
    rewrite <- (Qcmult_0_l w). apply Qcmult_le_compat_r; [done|].
    by apply Qclt_le_weak.
Qed.

(** Without utilities the score is zero, whatever the weights are,
    as long as they are finite. *)
Lemma specScore_of_zeros (option : Item) (criteria : list Item) (weights : list xnum)
    (optionValues : gmap string (gmap string xnum)) :
  (forall i criterion, criteria !! i = Some criterion ->
      positiveWeight (weights !! i)
      /\ lookup2 optionValues (item_id option) (item_id criterion) = Some zero) ->
  specScore option criteria weights optionValues = zero.
Proof.
  intros Hok. unfold specScore, sumArray.
  assert (Hterms : Forall (fun x : xnum => x = XFin 0)
            (imap (fun i criterion =>
                     mul (orZero' (lookup2 optionValues (item_id option)
                                     (item_id criterion)))
                       (orZero' (weights !! i))) criteria)).
  { apply Forall_forall. intros x Hx.
    apply list_elem_of_lookup in Hx as [i Hi].
    rewrite list_lookup_imap in Hi.
    destruct (criteria !! i) as [c|] eqn:Ec; [|done]. simpl in Hi.
    injection Hi as <-.
    destruct (Hok i c Ec) as [(w & Hw & Hwpos) Hz].
    rewrite Hz, Hw, orZero'_positive by done.
    simpl. unfold orZero. f_equal.
    change (Q2Qc (inject_Z 0)) with (Q2Qc 0). ring. }
  rewrite xzero. revert Hterms.
  generalize (imap (fun i criterion =>
                     mul (orZero' (lookup2 optionValues (item_id option)
                                     (item_id criterion)))
                       (orZero' (weights !! i))) criteria).
  intros l Hl. induction Hl as [|x l -> Hl IH]; simpl; [done|].
  exact IH.
Qed.
End ExactScores.

(** * Properties of strings *)

Section StringProperties.
Context {num : Type} `{JSNumber num}.
Variable inherited : string -> option string.

(** [k] is a valid character index into [s]. *)
Definition validIndex (s k : string) : bool :=
  match i ← canonicalIndex k; String.get i s with
  | Some _ => true
  | None => false
  end.

(** The members a string inherits convert to no number. *)
Definition inheritedNotNumeric : Prop :=
  forall k repr, inherited k = Some repr ->
                 isNaN (parseFloat_string repr : num) = true.

Lemma stringGet_useless (s k : string) :
  isNaN (NaN : num) = true ->
  inheritedNotNumeric ->
  validIndex s k = false -> k <> "length"%string ->
  uselessRaw (stringGet inherited s k : jsval num).
Proof.
  intros Hnan Hinh Hidx Hlen. unfold stringGet, validIndex in *.
  destruct (i ← canonicalIndex k; String.get i s); [done|].
  destruct (String.eqb_spec k "length") as [|_]; [done|].
  destruct (inherited k) as [repr|] eqn:E.
  - split; [done|]. simpl. by eapply Hinh.
  - by split.
Qed.
End StringProperties.

(** * The initial state of [App] *)

Section InitialState.
Context {num : Type} `{JSNumber num}.

Definition item (name : string) : Item :=
  {| item_id := name; content := name |}.

Definition initialCriteria : list Item :=
  item <$> ["Risk"; "SW Effort/Schedule"; "HW Costs"; "Future Adaptability"]%string.

Definition initialOptions : list Item :=
  item <$> ["Dual Primary"; "Compressed Dual Primary";
            "Compressed Asymmetric Primary"; "Tele-assisted Secondary"]%string.

Definition initialPairwiseMatrix : matrix num :=
  let n (k : Z) := lit k 0 in
  let r (k : Z) := div (lit 1 0) (lit k 0) in
  [ [n 1; n 9; n 7; n 7];
    [r 9; n 1; n 3; r 3];
    [r 7; r 3; n 1; n 5];
    [r 7; n 3; r 5; n 1] ].

Definition point (x y : Z) : Point num :=
  {| pt_x := lit x 0; pt_y := lit y 0 |}.

Definition initialUtilityFunctions : gmap string (UtilityFunction num) :=
  list_to_map
    [ ("Risk"%string,
        {| criterionType := "qualitative"; mode := "table"; formulaString := "";
           points := [];
           qualitativeLevels :=
             [ {| label := "Low"; utility := lit 100 0 |};
               {| label := "Medium"; utility := lit 50 0 |};
               {| label := "High"; utility := lit 0 0 |} ] |});
      ("SW Effort/Schedule"%string,
        {| criterionType := "quantitative"; mode := "table"; formulaString := "";
           points := [point 0 0; point 100 100]; qualitativeLevels := [] |});
      ("HW Costs"%string,
        {| criterionType := "quantitative"; mode := "formula";
           formulaString := "100 * (400000 - x) / (400000 - 300000)";
           points := [point 300000 100; point 400000 0]; qualitativeLevels := [] |});
      ("Future Adaptability"%string,
        {| criterionType := "quantitative"; mode := "table"; formulaString := "";
           points := [point 0 0; point 100 100]; qualitativeLevels := [] |}) ].

(** Values a user enters for the first option. *)
Definition enteredValues : gmap string (gmap string (jsval num)) :=
  {[ "Dual Primary"%string :=
       list_to_map
         [ ("Risk"%string, VString "Low");
           ("SW Effort/Schedule"%string, VString "40");
           ("HW Costs"%string, VString "350000");
           ("Future Adaptability"%string, VString "80") ] ]}.

(** The members a string inherits that the examples name, as the
    texts they convert to. *)
Definition String_prototype_members : list (string * string) :=
  [ ("constructor", "function String() { [native code] }");
    ("toString", "function toString() { [native code] }");
    ("valueOf", "function valueOf() { [native code] }");
    ("trim", "function trim() { [native code] }");
    ("at", "function at() { [native code] }");
    ("__proto__", "") ]%string.

(** The utility a run of a scoring loop stored for an option and a
    criterion. *)
Definition storedUtility {G : Type}
    (run : option (gmap string (gmap string num)) * G)
    (oid cid : string) : option num :=
  grid ← run.1; lookup2 grid oid cid.

Definition String_prototype (k : string) : option string :=
  snd <$> find (fun member => String.eqb member.1 k) String_prototype_members.
End InitialState.

(** The utilities [Step4] computes from the entered values of the first
    option: 100 for the level [Low], 40 and 80 from the tables, 50 from
    the formula; an option without entered values scores 0. *)
Example calculateScores_initial :
  let run := calculateScores (RefHost.host (num := float)) initialOptions initialCriteria
               enteredValues initialUtilityFunctions ∅ in
  storedUtility run "Dual Primary" "Risk" = Some (lit 100 0)
  /\ storedUtility run "Dual Primary" "SW Effort/Schedule" = Some (lit 40 0)
  /\ storedUtility run "Dual Primary" "HW Costs" = Some (lit 50 0)
  /\ storedUtility run "Dual Primary" "Future Adaptability" = Some (lit 80 0)
  /\ storedUtility run "Tele-assisted Secondary" "Risk" = Some (lit 0 0).
Proof. vm_compute. repeat split. Qed.

(** * Utility evaluation *)



(** * The two scoring pipelines *)

Lemma String_prototype_notNumeric :
  inheritedNotNumeric (num := float) String_prototype.
Proof.
  intros k repr. unfold String_prototype.
  destruct (find _ _) as [[name repr']|] eqn:E; [|done].
  intros [= <-]. apply find_some in E as [Hin _].
  assert (Hall : Forall (fun member : string * string =>
                           isNaN (parseFloat_string member.2 : float) = true)
                   String_prototype_members).
  { repeat constructor. }
  rewrite Forall_forall in Hall. apply (Hall (name, repr')).
  by apply list_elem_of_In.
Qed.

(** The scores of the two pipelines on the initial state of [App],
    with values entered for the first option: [Step5] scores it from
    the utilities of [Step4], [App]'s memo scores every option 0. *)
Definition Step5_pipeline : option float :=
  let host := RefHost.host (num := float) in
  let weights := calculateWeights (normalizeMatrix initialPairwiseMatrix) in
  utilityScores ← (calculateScores host initialOptions initialCriteria
                     enteredValues initialUtilityFunctions ∅).1;
  Step5_finalScores initialOptions initialCriteria weights utilityScores
    !! "Dual Primary"%string.

Definition App_pipeline : option float :=
  let host := RefHost.host (num := float) in
  score <$> find (fun s => String.eqb (optionId s) "Dual Primary")
              (App_finalScores String_prototype host initialCriteria initialOptions
                 initialPairwiseMatrix initialUtilityFunctions ∅).1.


Lemma initialItems_ids (option criterion : Item) :
  option ∈ initialOptions -> criterion ∈ initialCriteria ->
  validIndex (item_id option) (item_id criterion) = false
  /\ item_id criterion <> "length"%string.
Proof.
  intros Ho Hc.
  apply list_elem_of_In in Ho. apply list_elem_of_In in Hc.
  simpl in Ho, Hc.
  destruct Ho as [<-|[<-|[<-|[<-|[]]]]]; destruct Hc as [<-|[<-|[<-|[<-|[]]]]];
    (split; [reflexivity|discriminate]).
Defined.



(** * The expression evaluator *)




(** C4.  The evaluator returns the failure signal exactly when (a) the
    string has a character outside the whitelist, (b) the text does
    not parse or its run throws, or (c) the result is NaN as a number;
    every other result is returned as the value, [Infinity] from a
    division by zero included. *)
Theorem safeEval_failure_signal :
  (forall (num : Type) (JN : JSNumber num) (host : Host num) (expr : string)
          (x : num) (g : globals host),
      (safeEval host expr x g).1 = None <-> failureCondition host expr x g)
  /\ (forall (num : Type) (JN : JSNumber num) (host : Host num) (expr : string)
             (x : num) (g : globals host) (v : jsval num),
         testForbidden expr = false ->
         (hostEvaluation host expr x g).1 = Result v ->
         isNaN (ToNumber v) = false ->
         (safeEval host expr x g).1 = Some v)
  /\ (forall expr : string,
         testForbidden expr = true
         <-> exists c, In c (list_ascii_of_string expr) /\ whitelisted c = false)
  /\ (forall c : ascii,
         whitelisted c = true
         <-> c = "x" \/ isDigit c = true \/ isWhiteSpace c = true
             \/ c = "(" \/ c = ")" \/ c = "+" \/ c = "-" \/ c = "*" \/ c = "/"
             \/ c = ".")
  /\ (safeEval (RefHost.host (num := float)) "1/0" (lit 5 0) ∅).1
     = Some (VNumber Infinity)
  /\ (safeEval (RefHost.host (num := float)) "x/0" (lit 5 0) ∅).1
     = Some (VNumber Infinity)
  /\ (safeEval (RefHost.host (num := float)) "0/0" (lit 5 0) ∅).1 = None
  /\ (safeEval (RefHost.host (num := float)) "2 +" (lit 5 0) ∅).1 = None
  /\ (safeEval (RefHost.host (num := float)) "100 - x/1000" (lit 50000 0) ∅).1
     = Some (VNumber (lit 50 0)).
Proof.
  split; [|split; [|split; [|split]]].
  - intros. apply safeEval_failure_iff.
  - intros. by apply safeEval_value.
  - apply testForbidden_spec.
  - apply whitelisted_spec.
  - vm_compute. repeat split.
Qed.

Lemma safeEval_failure_signal_witness :
  (safeEval (RefHost.host (num := float)) "x*2" (lit 4 0) ∅).1
  = Some (VNumber (lit 8 0)).
Proof.
  destruct safeEval_failure_signal as (_ & Hvalue & _).
  apply Hvalue; reflexivity.
Defined.

(** * Weights *)

(** C5.  The matrix [[0, 1], [0, 1]] has a column of sum zero.
    [calculateWeights] alone leaves that column as it is and returns
    the weights [0.25, 0.25]; the normalization the program runs first
    divides the column by its sum, and the weights the program
    computes are NaN. *)
Theorem zero_column_weights :
  let m : matrix float := [[lit 0 0; lit 1 0]; [lit 0 0; lit 1 0]] in
  calculateWeights m = [lit 25 (-2); lit 25 (-2)]
  /\ isNaN (entry (normalizeMatrix m) 0 0) = true
  /\ Forall (fun w => isNaN w = true) (calculateWeights (normalizeMatrix m))
  /\ Forall (fun w => isNaN w = true)
       (calculateWeights (normalizeMatrix ([[lit 0 0]] : matrix float))).
Proof.
  vm_compute. split; [reflexivity|]. split; [reflexivity|].
  split; repeat constructor.
Qed.


Lemma initialPairwiseMatrix_positive :
  positiveMatrix 4 (initialPairwiseMatrix : matrix xnum).
Proof.
  split; [reflexivity|]. intros i j Hi Hj.
  destruct i as [|[|[|[|i]]]]; [| | | |lia];
    (destruct j as [|[|[|[|j]]]]; [| | | |lia]);
    (eexists; split; [reflexivity|reflexivity]).
Defined.



(** * Interpolation *)

Section RightClamp.
Local Open Scope Qc_scope.

(** At or above the maximum the result is the utility of a point of
    maximal value, also when the points all have the same value. *)
Lemma interpolate_right_clamp (v : Qc) (pts : list (Qc * Qc)) (pmax : Qc * Qc) :
  (2 <= length pts)%nat ->
  last (Array_sort byValue pts) = Some pmax -> pmax.1 <= v ->
  exists p, p ∈ pts /\ p.1 = pmax.1
            /\ interpolate (XFin v) (realPoint <$> pts) = Some (XFin p.2).
Proof.
  intros Hlen Hlast Hv.
  pose proof (interpolate_policy v pts) as Hpol.
  pose proof (byValue_sorted pts) as Hsorted.
  pose proof (Array_sort_perm byValue pts) as Hperm.
  destruct (Array_sort byValue pts) as [|pmin [|p' rest]] eqn:Es.
  - apply Permutation_length in Hperm. simpl in Hperm. lia.
  - apply Permutation_length in Hperm. simpl in Hperm. lia.
  - simpl in Hpol. destruct (Hpol pmax Hlast) as (Hleft & Hright & _).
    assert (Hmax_in : pmax ∈ p' :: rest).
    { apply last_Some_elem_of. by rewrite <- last_cons_cons with (x1 := pmin). }
    destruct (Qclt_le_dec pmin.1 v) as [Hlt|Hle].
    + exists pmax. split; [|split; [done|by apply Hright]].
      rewrite <- Hperm. by right.
    + exists pmin. split; [|split; [|by apply Hleft]].
      * rewrite <- Hperm. by left.
      * apply StronglySorted_inv in Hsorted as [_ Hall].
        rewrite Forall_forall in Hall. specialize (Hall pmax Hmax_in).
        apply Qcle_antisym; [done|]. by eapply Qcle_trans.
Qed.
End RightClamp.


Definition boundaryPoints : list (Qc * Qc) := [(ofZ 0, ofZ 0); (ofZ 100, ofZ 100)].


(** * Aggregation and ranking *)

Section RankingLemmas.
Lemma Step5_enriched_scored options (finalScores : gmap string xnum) :
  Forall scored (Step5_enriched options finalScores).
Proof.
  apply Forall_fmap, Forall_forall. intros o _. apply xorZero'_notNaN.
Qed.

Lemma App_enriched_scored options (finalScores : list (FinalScore xnum)) :
  Forall scored (App_enriched options finalScores).
Proof.
  apply Forall_fmap, Forall_forall. intros o _. apply xorZero'_notNaN.
Qed.
End RankingLemmas.



(** * The pairwise-matrix mutator *)


Lemma initialPairwiseMatrix_invariants :
  square 4 (initialPairwiseMatrix : matrix float)
  /\ reciprocal 4 (initialPairwiseMatrix : matrix float)
  /\ unitDiagonal 4 (initialPairwiseMatrix : matrix float).
Proof.
  split; [|split].
  - split; [reflexivity|]. repeat constructor.
  - intros i j Hi Hj _.
    destruct i as [|[|[|[|i]]]]; [| | | |lia];
      (destruct j as [|[|[|[|j]]]]; [| | | |lia]); reflexivity.
  - intros i Hi. destruct i as [|[|[|[|i]]]]; [| | | |lia]; reflexivity.
Defined.


(** * More on the weights and the consistency check *)

(** Goals on [Qc] are moved to [Q], where [lra] and [nra] decide
    them. *)
Lemma Qc_eq_Q (a b : Qc) : a = b <-> (a == b)%Q.
Proof. split; [by intros ->|apply Qc_is_canon]. Qed.

Lemma this_Q2Qc (q : Q) : (this (Q2Qc q) == q)%Q.
Proof. apply Qred_correct. Qed.

Lemma this_plus (a b : Qc) : (this (a + b)%Qc == this a + this b)%Q.
Proof. apply Qred_correct. Qed.

Lemma this_mult (a b : Qc) : (this (a * b)%Qc == this a * this b)%Q.
Proof. apply Qred_correct. Qed.

Lemma this_opp (a : Qc) : (this (- a)%Qc == - this a)%Q.
Proof. apply Qred_correct. Qed.

Lemma this_inv (a : Qc) : (this (/ a)%Qc == / this a)%Q.
Proof. apply Qred_correct. Qed.

Ltac qc_push_in H :=
  repeat first [ rewrite this_plus in H | rewrite this_mult in H
               | rewrite this_opp in H | rewrite this_inv in H
               | rewrite this_Q2Qc in H ].

Ltac qc_push :=
  repeat first [ rewrite this_plus | rewrite this_mult | rewrite this_opp
               | rewrite this_inv | rewrite this_Q2Qc ].

Ltac qc_to_q :=
  repeat match goal with
  | H : @eq Qc _ _ |- _ => apply Qc_eq_Q in H
  | H : ~ @eq Qc _ _ |- _ => rewrite Qc_eq_Q in H
  end;
  try (apply Qc_eq_Q);
  unfold Qcle, Qclt, Qcdiv, Qcminus in *;
  repeat match goal with
  | H : Qeq _ _ |- _ => progress (qc_push_in H)
  | H : Qle _ _ |- _ => progress (qc_push_in H)
  | H : Qlt _ _ |- _ => progress (qc_push_in H)
  | H : ~ Qeq _ _ |- _ => progress (qc_push_in H)
  end;
  qc_push.

Section ExactSums.
Local Open Scope Qc_scope.

Definition nonnegative (x : xnum) : Prop := exists t, x = XFin t /\ 0 <= t.

(** No term of a sum of nonnegative terms exceeds the sum. *)
Lemma fold_add_term_le (l : list xnum) (acc : Qc) :
  Forall nonnegative l -> 0 <= acc ->
  exists s, fold_left add l (XFin acc) = XFin s
            /\ acc <= s
            /\ forall t, XFin t ∈ l -> t <= s.
Proof.
  revert acc. induction l as [|x l IH]; intros acc Hl Hacc; simpl.
  - exists acc. split; [done|]. split; [apply Qcle_refl|].
    intros t Ht. by apply elem_of_nil in Ht.
  - apply Forall_cons in Hl as [(t0 & -> & Ht0) Hl].
    destruct (IH (acc + t0) Hl) as (s & Hs & Hle & Hterms).
    { qc_to_q. lra. }
    exists s. split; [exact Hs|]. split; [qc_to_q; lra|].
    intros t Ht. apply elem_of_cons in Ht as [Ht|Ht]; [|by apply Hterms].
    apply XFin_inj in Ht as ->. qc_to_q. lra.
Qed.

Lemma sumArray_term_le (l : list xnum) (s t : Qc) :
  Forall nonnegative l -> sumArray l = XFin s -> XFin t ∈ l -> t <= s.
Proof.
  intros Hl Hs Ht. unfold sumArray in Hs. rewrite xzero in Hs.
  destruct (fold_add_term_le l 0 Hl) as (s' & Hs' & _ & Hterms); [apply Qcle_refl|].
  rewrite Hs' in Hs. apply XFin_inj in Hs as <-. by apply Hterms.
Qed.

Lemma qsum_const (c : Qc) (n : nat) : qsum (fun _ => c) n = ofZ (Z.of_nat n) * c.
Proof.
  induction n as [|n IH].
  - unfold qsum; simpl. change (ofZ (Z.of_nat 0)) with (Q2Qc 0). ring.
  - rewrite qsum_S, IH, ofZ_succ. ring.
Qed.
End ExactSums.

Section PositiveMatrices.
Local Open Scope Qc_scope.

Variable m : matrix xnum.
Variable n : nat.
Variable q : nat -> nat -> Qc.
Hypothesis Hlen : length m = n.
Hypothesis Hn : (0 < n)%nat.
Hypothesis Hentry : forall i j, (i < n)%nat -> (j < n)%nat ->
                                entry m i j = XFin (q i j) /\ 0 < q i j.

Let colQ (j : nat) : Qc := qsum (fun i => q i j) n.

Lemma colQ_positive (j : nat) : (j < n)%nat -> 0 < colQ j.
Proof using Hentry Hn.
  intros Hj. apply qsum_pos; [|done]. intros i Hi. by apply Hentry.
Qed.

Lemma Qcdiv_pos (a b : Qc) : 0 < a -> 0 < b -> 0 < a / b.
Proof.
  intros Ha Hb. qc_to_q.
  apply Qmult_lt_0_compat; [done|]. by apply Qinv_lt_0_compat.
Qed.

Lemma weight_positive (i : nat) :
  (i < n)%nat -> 0 < qsum (fun j => q i j / colQ j) n / ofZ (Z.of_nat n).
Proof using Hentry Hn.
  intros Hi. apply Qcdiv_pos.
  - apply qsum_pos; [|done]. intros j Hj.
    apply Qcdiv_pos; [by apply Hentry|by apply colQ_positive].
  - rewrite <- qsum_one. apply qsum_pos; [|done]. intros; reflexivity.
Qed.

Lemma invokedWeights_positive :
  Forall (fun w => exists r, w = XFin r /\ 0 < r /\ r <= 1)
    (calculateWeights (normalizeMatrix m)).
Proof using Hentry Hn Hlen.
  pose proof (sum_invokedWeights_exact m n q Hlen Hn Hentry) as Hsum.
  rewrite (invokedWeights_exact m n q Hlen Hn Hentry) in Hsum |- *.
  fold colQ in Hsum |- *.
  assert (Hpos : Forall (fun w => exists r, w = XFin r /\ 0 < r)
            ((fun i => XFin (qsum (fun j => q i j / colQ j) n / ofZ (Z.of_nat n)))
               <$> seq 0 n)).
  { apply Forall_fmap, Forall_forall. intros i Hi%elem_of_seq. simpl.
    eexists. split; [done|]. apply weight_positive. lia. }
  apply Forall_forall. intros w Hw.
  rewrite Forall_forall in Hpos. destruct (Hpos w Hw) as (r & -> & Hr).
  exists r. split; [done|]. split; [done|].
  eapply sumArray_term_le; [|exact Hsum|exact Hw].
  apply Forall_forall. intros x Hx. destruct (Hpos x Hx) as (t & -> & Ht).
  exists t. split; [done|]. by apply Qclt_le_weak.
Qed.

Lemma normalizeMatrix_exact :
  normalizeMatrix m
  = (fun i => (fun j => XFin (q i j / colQ j)) <$> seq 0 n) <$> seq 0 n.
Proof using Hentry Hn Hlen.
  rewrite normalizeMatrix_closed, Hlen.
  apply fmap_seq_ext. intros i Hi. apply fmap_seq_ext. intros j Hj.
  transitivity (entry (normalizeMatrix m) i j).
  - rewrite entry_normalizeMatrix by lia. by rewrite Hlen.
  - apply (entry_normalized_exact m n q Hlen Hn Hentry i j Hi Hj).
Qed.

Lemma normalizeMatrix_idempotent_exact :
  normalizeMatrix (normalizeMatrix m) = normalizeMatrix m.
Proof using Hentry Hn Hlen.
  rewrite normalizeMatrix_closed, length_normalizeMatrix, Hlen.
  symmetry. rewrite normalizeMatrix_exact at 1. symmetry.
  apply fmap_seq_ext. intros i Hi. apply fmap_seq_ext. intros j Hj.
  rewrite (entry_normalized_exact m n q Hlen Hn Hentry i j Hi Hj).
  rewrite (columnSum_normalized_exact m n q Hlen Hn Hentry j Hj).
  simpl. apply (f_equal XFin). unfold colQ, Qcdiv.
  assert (/ 1 = 1) as -> by (apply Qc_is_canon; reflexivity). ring.
Qed.

Lemma calculateWeights_normalized_exact :
  square n m -> calculateWeights (normalizeMatrix m) = calculateWeights m.
Proof using Hentry Hn Hlen.
  intros Hsq.
  rewrite (invokedWeights_exact m n q Hlen Hn Hentry).
  by rewrite (calculateWeights_exact m n q Hlen Hn Hentry Hsq).
Qed.
End PositiveMatrices.

Lemma positiveMatrix_entries (n : nat) (m : matrix xnum) :
  positiveMatrix n m ->
  exists q : nat -> nat -> Qc,
    forall i j, (i < n)%nat -> (j < n)%nat ->
                entry m i j = XFin (q i j) /\ (0 < q i j)%Qc.
Proof.
  intros [Hlen Hpos].
  exists (fun i j => match entry m i j with XFin q => q | _ => 0%Qc end).
  intros i j Hi Hj. by destruct (Hpos i j Hi Hj) as (r & -> & Hr).
Qed.

(** ** Consistent judgments

    A matrix is perfectly consistent when its entries are the ratios
    [a i / a j] of positive priorities. *)

Lemma zero_over_randomIndex (n : nat) :
    (3 <= n)%nat -> div (XFin 0) (randomIndex n) = XFin 0.
  Proof.
    intros H3.
    assert (Hri : eqb (randomIndex n : xnum) zero = false
                  /\ isNaN (randomIndex n : xnum) = false).
    { destruct tablesAgree_Exact as (_ & _ & Htable).
      rewrite Forall_forall in Htable. apply Htable.
      unfold randomIndex. destruct (Nat.ltb_spec 10 n) as [Hbig|Hsmall].
      - apply (list_elem_of_lookup_2 _ 7%nat). reflexivity.
      - destruct (lookup_lt_is_Some_2 (randomIndexTable (num := xnum)) (n - 1))
          as [v Hv]; [simpl; lia|].
        rewrite Hv. simpl.
        assert (Hd : drop 2 (randomIndexTable (num := xnum)) !! (n - 1 - 2)%nat
                     = Some v).
        { rewrite lookup_drop. by replace (2 + (n - 1 - 2))%nat with (n - 1)%nat by lia. }
        by eapply list_elem_of_lookup_2. }
    destruct Hri as [Hzero Hnan].
    destruct (randomIndex n : xnum) as [|s|r]; [done|done|].
    rewrite xzero in Hzero. simpl in Hzero. simpl. rewrite Hzero.
    apply (f_equal XFin). unfold Qcdiv. ring.
  Qed.


Section ConsistentMatrices.
Local Open Scope Qc_scope.

Variable m : matrix xnum.
Variable n : nat.
Variable a : nat -> Qc.
Hypothesis Hlen : length m = n.
Hypothesis Hn : (0 < n)%nat.
Hypothesis Ha : forall i, (i < n)%nat -> 0 < a i.
Hypothesis Hm : forall i j, (i < n)%nat -> (j < n)%nat ->
                            entry m i j = XFin (a i / a j).

Let total : Qc := qsum a n.

Lemma total_positive : 0 < total.
Proof using Ha Hn. by apply qsum_pos. Qed.

Lemma ratio_entries (i j : nat) :
  (i < n)%nat -> (j < n)%nat ->
  entry m i j = XFin (a i / a j) /\ 0 < a i / a j.
Proof using Ha Hm.
  intros Hi Hj. split; [by apply Hm|]. apply Qcdiv_pos; by apply Ha.
Qed.

Lemma Qclt_nonzero (x : Qc) : 0 < x -> x <> 0.
Proof. intros Hx ->. by apply Qclt_not_eq in Hx. Qed.

Ltac nonzero :=
  repeat split;
  first [ apply Qclt_nonzero, total_positive
        | by apply ofZ_pos
        | apply Qclt_nonzero; by apply Ha ].

(** The weights of a consistent matrix are its priorities, scaled
    to sum 1. *)
Lemma consistent_weights :
  calculateWeights (normalizeMatrix m) = (fun i => XFin (a i / total)) <$> seq 0 n.
Proof using Ha Hm Hn Hlen.
  rewrite (invokedWeights_exact m n (fun i j => a i / a j) Hlen Hn ratio_entries).
  apply fmap_seq_ext. intros i Hi. apply (f_equal XFin).
  rewrite (qsum_ext _ (fun _ => a i / total)).
  - rewrite qsum_const. field. nonzero.
  - intros j Hj. rewrite qsum_div. fold total. field. nonzero.
Qed.

Let w : list xnum := (fun i => XFin (a i / total)) <$> seq 0 n.

Lemma getNum_consistent_weights (i : nat) :
  (i < n)%nat -> getNum w i = XFin (a i / total).
Proof.
  intros Hi. apply getNum_lookup. unfold w.
  by rewrite list_lookup_fmap, lookup_seq_lt.
Qed.

Lemma weight_nonzero (i : nat) : (i < n)%nat -> a i / total <> 0.
Proof using Ha Hn.
  intros Hi. apply Qclt_nonzero, Qcdiv_pos; [by apply Ha|apply total_positive].
Qed.

Lemma consistent_weightedSum (i : nat) :
  (i < n)%nat ->
  weightedSum m w n i = XFin (ofZ (Z.of_nat n) * (a i / total)).
Proof using Ha Hm Hn.
  intros Hi. unfold weightedSum.
  rewrite (xsum_fin _ (fun _ => a i / total)).
  - by rewrite qsum_const.
  - intros j Hj. rewrite Hm, getNum_consistent_weights by done.
    rewrite xmul_fin. apply (f_equal XFin). field. nonzero.
Qed.

Lemma consistent_consistencyEntry (i : nat) :
  (i < n)%nat -> consistencyEntry m w n i = XFin (ofZ (Z.of_nat n)).
Proof using Ha Hm Hn.
  intros Hi. unfold consistencyEntry.
  rewrite getNum_consistent_weights, consistent_weightedSum by done.
  rewrite xzero. simpl.
  destruct (Xops.qeqb (a i / total) _) eqn:E.
  { apply qeqb_eq in E. by destruct (weight_nonzero i Hi). }
  apply (f_equal XFin). field. nonzero.
Qed.

Lemma consistent_lambdaMax :
  mean (consistencyEntry m w n <$> seq 0 n) = XFin (ofZ (Z.of_nat n)).
Proof using Ha Hm Hn.
  unfold mean. rewrite length_fmap, length_seq, sumArray_fmap.
  rewrite (xsum_fin _ (fun _ => ofZ (Z.of_nat n)))
    by (intros; by apply consistent_consistencyEntry).
  rewrite qsum_const, x_of_nat, xdiv_fin by (by apply ofZ_pos).
  apply (f_equal XFin). field. nonzero.
Qed.

(** The consistency ratio of a consistent matrix is 0. *)
Lemma consistent_checkConsistency :
  checkConsistency m = {| cr := XFin 0; isConsistent := true |}.
Proof using Ha Hm Hn Hlen.
  unfold checkConsistency. rewrite consistent_weights. fold w.
  rewrite (calculateConsistency_spec m w tablesAgree_Exact).
  unfold specConsistency. rewrite Hlen.
  destruct (Nat.leb_spec n 2) as [Hsmall|Hbig]; [by rewrite xzero|].
  rewrite consistent_lambdaMax, x_of_nat, xsub_fin, xone, xsub_fin.
  assert (Hci : div (XFin (ofZ (Z.of_nat n) - ofZ (Z.of_nat n)))
                  (XFin (ofZ (Z.of_nat n) - 1)) = XFin 0).
  { rewrite xdiv_fin.
    - apply (f_equal XFin). unfold Qcdiv. ring.
    - rewrite <- qsum_one. destruct n as [|k]; [lia|].
      rewrite qsum_S. intros Heq.
      assert (Hk : qsum (fun _ => 1) k = 0) by (qc_to_q; lra).
      assert (0 < qsum (fun _ : nat => 1) k) as Hpos.
      { apply qsum_pos; [intros; reflexivity|lia]. }
      rewrite Hk in Hpos. by apply Qclt_not_eq in Hpos. }
  rewrite Hci, (zero_over_randomIndex n) by lia. reflexivity.
Qed.
End ConsistentMatrices.

(** * More on the interpolation *)

Local Open Scope list_scope.

Section ExactInterpolationFacts.
Local Open Scope Qc_scope.

(** The four ways the interpolation of a table with points ends. *)
Lemma interpolate_cases (v : Qc) (pts : list (Qc * Qc)) :
  pts <> [] ->
  let sorted := Array_sort byValue pts in
  let result := interpolate (XFin v) (realPoint <$> pts) in
  (exists p, sorted = [p] /\ result = Some (XFin p.2))
  \/ (exists pmin rest, sorted = pmin :: rest /\ v <= pmin.1
                        /\ result = Some (XFin pmin.2))
  \/ (exists pmax, last sorted = Some pmax /\ pmax.1 <= v
                   /\ result = Some (XFin pmax.2))
  \/ (exists l1 p1 p2 l2, sorted = l1 ++ p1 :: p2 :: l2
                          /\ p1.1 < v /\ v <= p2.1
                          /\ result = Some (XFin (lerp p1 p2 v))).
Proof.
  intros Hne sorted result.
  pose proof (interpolate_policy v pts) as Hpol. fold sorted result in Hpol.
  pose proof (Array_sort_perm byValue pts) as Hperm. fold sorted in Hperm.
  destruct sorted as [|pmin [|p' rest]] eqn:Es.
  - apply Permutation_nil_l in Hperm. by subst.
  - left. by exists pmin.
  - right. simpl in Hpol.
    destruct (last_is_Some (pmin :: p' :: rest)) as [_ [pmax Hlast]]; [done|].
    destruct (Hpol pmax Hlast) as (Hleft & Hright & Hmid).
    destruct (Qclt_le_dec pmin.1 v) as [Hlt|Hle].
    + destruct (Qclt_le_dec v pmax.1) as [Hlt'|Hle'].
      * right. right.
        destruct (Hmid Hlt Hlt') as (l1 & p1 & p2 & l2 & Hsplit & H1 & H2 & Hres).
        exists l1, p1, p2, l2. split; [done|]. split; [done|]. split; [done|].
        rewrite Hres. destruct (decide (p1.1 = p2.1)) as [Heq|_]; [|done].
        rewrite Heq in H1. by apply Qclt_not_le in H1.
      * right. left. exists pmax. split; [done|]. split; [done|]. by apply Hright.
    + left. exists pmin, (p' :: rest). split; [done|]. split; [done|]. by apply Hleft.
Qed.

Lemma lerp_range (p1 p2 : Qc * Qc) (v lo hi : Qc) :
  p1.1 < v -> v <= p2.1 ->
  lo <= p1.2 -> p1.2 <= hi -> lo <= p2.2 -> p2.2 <= hi ->
  lo <= lerp p1 p2 v /\ lerp p1 p2 v <= hi.
Proof.
  destruct p1 as [x1 y1], p2 as [x2 y2]. unfold lerp. simpl.
  intros H1 H2 Hlo1 Hhi1 Hlo2 Hhi2.
  assert (Hd : 0 < x2 - x1) by (qc_to_q; lra).
  set (t := (v - x1) / (x2 - x1)).
  assert (Ht : t * (x2 - x1) = v - x1).
  { unfold t. field. intros Heq. rewrite Heq in Hd. by apply Qclt_not_eq in Hd. }
  assert (Ht0 : 0 <= t).
  { apply (Qcmult_lt_0_le_reg_r _ _ (x2 - x1) Hd). rewrite Ht.
    qc_to_q. lra. }
  assert (Ht1 : t <= 1).
  { apply (Qcmult_lt_0_le_reg_r _ _ (x2 - x1) Hd). rewrite Ht.
    qc_to_q. lra. }
  replace (y1 + (y2 - y1) * (v - x1) / (x2 - x1)) with (y1 + (y2 - y1) * t)
    by (unfold t, Qcdiv; ring).
  clearbody t. clear Ht Hd H1 H2.
  split; qc_to_q; nra.
Qed.

(** The result lies between the least and the greatest utility of
    the table. *)
Lemma interpolate_range (v lo hi : Qc) (pts : list (Qc * Qc)) :
  pts <> [] ->
  (forall p, p ∈ pts -> lo <= p.2 /\ p.2 <= hi) ->
  exists r, interpolate (XFin v) (realPoint <$> pts) = Some (XFin r)
            /\ lo <= r /\ r <= hi.
Proof.
  intros Hne Hbounds.
  pose proof (Array_sort_perm byValue pts) as Hperm.
  assert (Hin : forall p, p ∈ Array_sort byValue pts -> lo <= p.2 /\ p.2 <= hi).
  { intros p Hp. apply Hbounds. by rewrite <- Hperm. }
  destruct (interpolate_cases v pts Hne)
    as [(p & Hs & ->)|[(p & rest & Hs & _ & ->)|[(p & Hlast & _ & ->)
       |(l1 & p1 & p2 & l2 & Hs & H1 & H2 & ->)]]].
  - exists p.2. split; [done|]. apply Hin. rewrite Hs. by left.
  - exists p.2. split; [done|]. apply Hin. rewrite Hs. by left.
  - exists p.2. split; [done|]. apply Hin. by apply last_Some_elem_of.
  - exists (lerp p1 p2 v). split; [done|].
    assert (Hp1 : p1 ∈ Array_sort byValue pts).
    { rewrite Hs. apply elem_of_app. right. by left. }
    assert (Hp2 : p2 ∈ Array_sort byValue pts).
    { rewrite Hs. apply elem_of_app. right. right. by left. }
    destruct (Hin p1 Hp1), (Hin p2 Hp2). by apply lerp_range.
Qed.

Lemma distinct_values_inj (l : list (Qc * Qc)) (p p' : Qc * Qc) :
  NoDup (fst <$> l) -> p ∈ l -> p' ∈ l -> p.1 = p'.1 -> p = p'.
Proof.
  intros Hnd Hp Hp' Heq.
  apply list_elem_of_lookup in Hp as [i Hi].
  apply list_elem_of_lookup in Hp' as [j Hj].
  assert (i = j) as ->.
  { apply (NoDup_lookup (fst <$> l) i j p.1); [done| |].
    - by rewrite list_lookup_fmap, Hi.
    - by rewrite list_lookup_fmap, Hj, Heq. }
  congruence.
Qed.

Lemma lerp_at_right (p1 p2 : Qc * Qc) : p1.1 < p2.1 -> lerp p1 p2 p2.1 = p2.2.
Proof.
  intros Hlt. unfold lerp. field. intros Heq.
  assert (p1.1 = p2.1) as Heq'.
  { replace p2.1 with ((p2.1 - p1.1) + p1.1) by ring. rewrite Heq. ring. }
  rewrite Heq' in Hlt. by apply Qclt_not_le in Hlt.
Qed.

(** A table whose values are distinct is reproduced at its
    points. *)
Lemma interpolate_at_point (pts : list (Qc * Qc)) (p : Qc * Qc) :
  NoDup (fst <$> pts) -> p ∈ pts ->
  interpolate (XFin p.1) (realPoint <$> pts) = Some (XFin p.2).
Proof.
  intros Hnd Hp.
  pose proof (Array_sort_perm byValue pts) as Hperm.
  pose proof (byValue_sorted pts) as Hsorted.
  assert (Hnd' : NoDup (fst <$> Array_sort byValue pts)) by (by rewrite Hperm).
  assert (Hp' : p ∈ Array_sort byValue pts) by (by rewrite Hperm).
  assert (Hne : pts <> []) by (intros ->; by apply elem_of_nil in Hp).
  destruct (interpolate_cases p.1 pts Hne)
    as [(q & Hs & ->)|[(q & rest & Hs & Hle & ->)|[(q & Hlast & Hle & ->)
       |(l1 & p1 & p2 & l2 & Hs & H1 & H2 & ->)]]].
  - rewrite Hs in Hp'. apply list_elem_of_singleton in Hp' as ->. done.
  - assert (p = q) as ->; [|done].
    apply (distinct_values_inj _ _ _ Hnd' Hp'); [rewrite Hs; by left|].
    apply Qcle_antisym; [done|].
    rewrite Hs in Hp', Hsorted. apply elem_of_cons in Hp' as [->|Hin].
    + apply Qcle_refl.
    + apply StronglySorted_inv in Hsorted as [_ Hall].
      rewrite Forall_forall in Hall. by apply Hall.
  - assert (p = q) as ->; [|done].
    apply (distinct_values_inj _ _ _ Hnd' Hp'); [by apply last_Some_elem_of|].
    apply Qcle_antisym; [|done].
    apply last_Some in Hlast as [l' Hl']. rewrite Hl' in Hp', Hsorted.
    apply elem_of_app in Hp' as [Hin|Hin].
    + apply (StronglySorted_app_1_elem_of _ _ _ _ _ Hsorted Hin). by left.
    + apply list_elem_of_singleton in Hin as ->. apply Qcle_refl.
  - rewrite Hs in Hp', Hsorted, Hnd'.
    assert (Hsorted' := Hsorted).
    replace (l1 ++ p1 :: p2 :: l2) with ((l1 ++ [p1]) ++ p2 :: l2) in Hsorted', Hp'
      by (by rewrite <- app_assoc).
    assert (p = p2) as ->; [|by rewrite lerp_at_right by (by eapply Qclt_le_trans)].
    apply elem_of_app in Hp' as [Hin|Hin].
    + exfalso. apply (Qclt_not_le _ _ H1).
      apply elem_of_app in Hin as [Hin|Hin].
      * apply (StronglySorted_app_1_elem_of _ _ _ _ _ Hsorted Hin). by left.
      * apply list_elem_of_singleton in Hin as ->. apply Qcle_refl.
    + apply elem_of_cons in Hin as [->|Hin]; [done|].
      apply (distinct_values_inj (l1 ++ p1 :: p2 :: l2)); [done| | |].
      * apply elem_of_app. right. right. by right.
      * apply elem_of_app. right. right. by left.
      * apply Qcle_antisym; [done|].
        apply StronglySorted_app_1_r in Hsorted'.
        apply StronglySorted_inv in Hsorted' as [_ Hall].
        rewrite Forall_forall in Hall. by apply Hall.
Qed.
End ExactInterpolationFacts.

(** * Laws of the comparisons

    What the proofs below need of [<], [<=] and [isNaN], for binary64
    and for the exact numbers alike. *)

Class NumberLaws (num : Type) `{JSNumber num} : Prop := {
  lt_le : forall a b : num, ltb a b = true -> leb a b = true;
  nle_gt : forall a b : num,
      isNaN a = false -> isNaN b = false -> leb a b = false -> ltb b a = true;
  nan_leb_l : forall a b : num, isNaN a = true -> leb a b = false;
  nan_leb_r : forall a b : num, isNaN b = true -> leb a b = false;
  nan_ltb_r : forall a b : num, isNaN b = true -> ltb a b = false;
  zero_notNaN : isNaN (zero : num) = false
}.

Section F64Laws.
Lemma SFcompare_refl (x : spec_float) :
  x <> S754_nan -> SFcompare x x = Some Eq.
Proof.
  destruct x as [[]|[]| |[] mx ex]; try done; intros _; simpl;
    rewrite Z.compare_refl; by rewrite Pos.compare_cont_refl.
Qed.

Lemma is_nan_true (a : float) :
  PrimFloat.is_nan a = true -> Prim2SF a = S754_nan.
Proof.
  unfold PrimFloat.is_nan. rewrite FloatAxioms.eqb_spec. unfold SFeqb.
  intros E. destruct (Prim2SF a) as [s|s| |s mx ex] eqn:Ea; [| |done|];
    rewrite SFcompare_refl in E; done.
Qed.

Lemma SFcompare_nan_r (x : spec_float) : SFcompare x S754_nan = None.
Proof. by destruct x as [[]|[]| |[] mx ex]. Qed.
End F64Laws.

#[export] Instance F64_laws : NumberLaws float.
Proof.
  split.
  - apply f64_lt_le.
  - apply f64_nle_gt.
  - intros a b Ha%is_nan_true. simpl. rewrite leb_spec. unfold SFleb. by rewrite Ha.
  - intros a b Hb%is_nan_true. simpl. rewrite leb_spec. unfold SFleb.
    by rewrite Hb, SFcompare_nan_r.
  - intros a b Hb%is_nan_true. simpl. rewrite ltb_spec. unfold SFltb.
    by rewrite Hb, SFcompare_nan_r.
  - reflexivity.
Qed.

#[export] Instance Exact_laws : NumberLaws xnum.
Proof.
  split.
  - intros a b. simpl. unfold Xops.leb. intros ->. done.
  - intros a b Ha Hb. destruct a as [|s|p], b as [|t|q]; try done;
      try (by destruct s); try (by destruct t); try (by destruct s, t).
    intros Hle. rewrite xltb_fin. apply qltb_lt. apply Qcnot_le_lt.
    intros Hpq. apply xleb_fin in Hpq. congruence.
  - by intros [|s|p] b.
  - by intros [|s|p] [|t|q].
  - by intros [|s|p] [|t|q].
  - reflexivity.
Qed.

(** * The interpolation never fails on numbers *)

Section InterpolationTotal.
Context {num : Type} {JN : JSNumber num} {laws : NumberLaws num}.

(** The values of the points are numbers. *)
Definition numericPoints (points : list (Point num)) : Prop :=
  Forall (fun p => isNaN (pt_x p) = false) points.

Lemma interpolate_total (x : num) (points : list (Point num)) :
  isNaN x = false -> numericPoints points -> is_Some (interpolate x points).
Proof using laws.
  intros Hx Hpoints. unfold interpolate.
  destruct (Nat.eqb_spec (length points) 0) as [|Hn0]; [done|].
  destruct (Nat.eqb_spec (length points) 1) as [Hn1|Hn1].
  { by destruct points as [|p [|]]. }
  set (sorted := Array_sort (fun a b => sub (pt_x a) (pt_x b)) points).
  pose proof (Array_sort_perm (fun a b => sub (pt_x a) (pt_x b)) points) as Hperm.
  fold sorted in Hperm.
  assert (Hlen : length sorted = length points) by (by rewrite Hperm).
  assert (Hnum : numericPoints sorted) by (unfold numericPoints; by rewrite Hperm).
  unfold numericPoints in Hnum. rewrite Forall_forall in Hnum.
  destruct (lookup_lt_is_Some_2 sorted 0) as [first Hfirst]; [lia|].
  rewrite Hfirst. simpl.
  destruct (leb x (pt_x first)) eqn:Eleft; [done|].
  destruct (lookup_lt_is_Some_2 sorted (length sorted - 1)) as [last Hlast]; [lia|].
  rewrite Hlast. simpl.
  destruct (geb x (pt_x last)) eqn:Eright; [done|]. unfold geb in Eright.
  destruct (whileBelow_split x sorted 0) as (l1 & l2 & Hsplit & -> & Hl1 & Hl2).
  assert (Hfirst_below : ltb (pt_x first) x = true).
  { apply nle_gt; [done| |done].
    apply Hnum. by eapply list_elem_of_lookup_2. }
  destruct l1 as [|a l1].
  { simpl in Hsplit. rewrite <- Hsplit in Hl2. destruct sorted as [|p rest]; [done|].
    injection Hfirst as ->. congruence. }
  destruct l2 as [|p2 l2].
  { exfalso. rewrite app_nil_r in Hsplit.
    rewrite Forall_forall in Hl1.
    assert (Hb : ltb (pt_x last) x = true).
    { apply Hl1. rewrite <- Hsplit. by eapply list_elem_of_lookup_2. }
    apply lt_le in Hb. congruence. }
  simpl length. replace (0 + S (length l1))%nat with (S (length l1)) by lia.
  simpl Nat.eqb. cbn match.
  replace (S (length l1) - 1)%nat with (length l1) by lia.
  destruct (exists_last (l := a :: l1)) as (l1' & p1 & Hl1'); [done|].
  assert (Hl : length l1 = length l1').
  { apply (f_equal length) in Hl1'. rewrite length_app in Hl1'. simpl in Hl1'. lia. }
  assert (Hp1 : sorted !! length l1 = Some p1).
  { rewrite Hsplit, Hl1', <- app_assoc, Hl. by apply list_lookup_middle. }
  assert (Hp2 : sorted !! S (length l1) = Some p2).
  { rewrite Hsplit. by apply (list_lookup_middle (a :: l1) l2 p2). }
  rewrite Hp1, Hp2. simpl. by destruct (eqb (pt_x p1) (pt_x p2)).
Qed.

(** With [NaN] for a target and two points or more, the loop stops
    at once and the point before the first one is read: a
    [TypeError]. *)
Lemma interpolate_NaN (x : num) (points : list (Point num)) :
  isNaN x = true -> (2 <= length points)%nat -> interpolate x points = None.
Proof using laws.
  intros Hx Hlen. unfold interpolate.
  destruct (Nat.eqb_spec (length points) 0) as [|_]; [lia|].
  destruct (Nat.eqb_spec (length points) 1) as [|_]; [lia|].
  set (sorted := Array_sort (fun a b => sub (pt_x a) (pt_x b)) points).
  pose proof (Array_sort_perm (fun a b => sub (pt_x a) (pt_x b)) points) as Hperm.
  fold sorted in Hperm.
  assert (Hlen' : length sorted = length points) by (by rewrite Hperm).
  destruct (lookup_lt_is_Some_2 sorted 0) as [first Hfirst]; [lia|].
  rewrite Hfirst. simpl. rewrite (nan_leb_l x) by done.
  destruct (lookup_lt_is_Some_2 sorted (length sorted - 1)) as [last Hlast]; [lia|].
  rewrite Hlast. simpl. unfold geb. rewrite (nan_leb_r _ x) by done.
  destruct sorted as [|p rest]; [done|]. injection Hfirst as ->.
  simpl whileBelow. by rewrite (nan_ltb_r _ x).
Qed.
End InterpolationTotal.

(** * The scoring loops never fail on numeric tables *)

Section ForEachSteps.
Context {G A S : Type}.

(** A loop whose body cannot throw does not throw. *)
Lemma forEach_total (l : list A) (body : A -> S -> M G S) (st : S) (g : G) :
  (forall a s g0, a ∈ l -> exists s' g1, body a s g0 = (Some s', g1)) ->
  exists st' g', forEach l body st g = (Some st', g').
Proof.
  revert st g. induction l as [|a l IH]; intros st g Hbody; simpl.
  - by eexists _, _.
  - unfold mbind, M_bind, bind.
    destruct (Hbody a st g) as (s' & g1 & ->); [by left|].
    apply IH. intros a' s0 g0 Ha'. apply Hbody. by right.
Qed.

(** An invariant that knows which elements the loop has visited. *)
Lemma forEach_visited (P : list A -> S -> Prop) (l : list A)
    (body : A -> S -> M G S) (st st' : S) (g g' : G) :
  P [] st ->
  (forall visited a s s' g0 g1,
      P visited s -> body a s g0 = (Some s', g1) -> P (visited ++ [a]) s') ->
  forEach l body st g = (Some st', g') -> P l st'.
Proof.
  intros Hinit Hstep.
  assert (Hgen : forall visited st g,
             P visited st -> forEach l body st g = (Some st', g') ->
             P (visited ++ l) st').
  { induction l as [|a l IH]; intros visited s g0 HP; simpl.
    - intros [= <- _]. by rewrite app_nil_r.
    - unfold mbind, M_bind, bind.
      destruct (body a s g0) as [[s1|] g1] eqn:E; [|done].
      intros Hrest. replace (visited ++ a :: l) with ((visited ++ [a]) ++ l)
        by (by rewrite <- app_assoc).
      eapply IH; [|exact Hrest]. by eapply Hstep. }
  apply (Hgen [] st g Hinit).
Qed.
End ForEachSteps.

Section ScoringTotal.
Context {num : Type} {JN : JSNumber num} {laws : NumberLaws num}.
Variable host : Host num.

(** The values of the points of every table are numbers. *)
Definition numericTables (utilityFunctions : gmap string (UtilityFunction num))
  : Prop :=
  forall id func, utilityFunctions !! id = Some func -> numericPoints (points func).

Lemma scoreCell_total (func : option (UtilityFunction num)) (raw : jsval num)
    (g : globals host) :
  (forall f, func = Some f -> numericPoints (points f)) ->
  exists v g', scoreCell host func raw g = (Some v, g').
Proof using laws.
  intros Hnum. unfold scoreCell.
  unfold mbind, M_bind, bind, mret, M_ret, ret, total, orThrow.
  destruct func as [func|]; [|by eexists _, _].
  destruct (String.eqb (criterionType func) "qualitative").
  { destruct (find _ (qualitativeLevels func)); by eexists _, _. }
  destruct (isNaN (parseFloat raw)) eqn:En; simpl; [by eexists _, _|].
  destruct (String.eqb (mode func) "formula" && negb (String.eqb (formulaString func) "")).
  { destruct (safeEval host (formulaString func) (parseFloat raw) g) as [[r|] g'];
      by eexists _, _. }
  destruct (String.eqb (mode func) "table" && (0 <? length (points func))%nat);
    [|by eexists _, _].
  destruct (interpolate_total (parseFloat raw) (points func) En) as [y ->];
    [by apply Hnum|].
  by eexists _, _.
Qed.

(** Every option and criterion gets a score. *)
Lemma scoringLoop_total (rawOf : Item -> Item -> jsval num)
    (options criteria : list Item)
    (utilityFunctions : gmap string (UtilityFunction num)) (g : globals host) :
  numericTables utilityFunctions ->
  exists grid g',
    scoringLoop host rawOf options criteria utilityFunctions g = (Some grid, g')
    /\ forall option criterion, option ∈ options -> criterion ∈ criteria ->
         is_Some (lookup2 grid (item_id option) (item_id criterion)).
Proof using laws.
  intros Hnum.
  assert (Hcell : forall option criterion acc g0,
             exists acc' g1,
               (v ← scoreCell host (utilityFunctions !! item_id criterion)
                      (rawOf option criterion);
                ret (insert2 acc (item_id option) (item_id criterion) v)) g0
               = (Some acc', g1)).
  { intros option criterion acc g0.
    destruct (scoreCell_total (utilityFunctions !! item_id criterion)
                (rawOf option criterion) g0) as (v & g1 & Hv).
    { intros f Hf. by eapply Hnum. }
    unfold mbind, M_bind, bind, mret, M_ret, ret. rewrite Hv. by eexists _, _. }
  destruct (forEach_total options
              (fun option acc =>
                 forEach criteria (fun criterion acc =>
                   v ← scoreCell host (utilityFunctions !! item_id criterion)
                         (rawOf option criterion);
                   ret (insert2 acc (item_id option) (item_id criterion) v))
                   (<[item_id option := ∅]> acc)) ∅ g) as (grid & g' & Hrun).
  { intros option acc g0 _. apply forEach_total. intros criterion s g1 _.
    apply Hcell. }
  exists grid, g'. split; [exact Hrun|].
  revert Hrun.
  apply (forEach_visited
           (fun visited (acc : gmap string (gmap string num)) =>
              forall option criterion, option ∈ visited -> criterion ∈ criteria ->
                is_Some (lookup2 acc (item_id option) (item_id criterion)))).
  { intros option criterion Ho. by apply elem_of_nil in Ho. }
  intros visited a s s' g0 g1 Hvisited.
  set (Q := fun (seen : list Item) (acc : gmap string (gmap string num)) =>
              is_Some (acc !! item_id a)
              /\ (forall criterion, criterion ∈ seen ->
                    is_Some (lookup2 acc (item_id a) (item_id criterion)))
              /\ forall oid cid, oid <> item_id a ->
                   is_Some (lookup2 s oid cid) -> is_Some (lookup2 acc oid cid)).
  intros Hinner.
  assert (HQ : Q criteria s').
  { revert Hinner. apply (forEach_visited Q).
    - split; [by rewrite lookup_insert_eq|]. split.
      + intros criterion Hc. by apply elem_of_nil in Hc.
      + intros oid cid Hne. unfold lookup2. by rewrite lookup_insert_ne.
    - intros seen c acc acc' g2 g3 (Hrow & Hseen & Hother).
      unfold mbind, M_bind, bind, mret, M_ret, ret.
      destruct (scoreCell host _ _ g2) as [[v|] g4]; [|done].
      intros [= <- _]. split; [by apply insert2_is_Some|]. split.
      + intros criterion Hc. rewrite lookup2_insert2 by done.
        destruct (decide (item_id a = item_id a /\ item_id c = item_id criterion))
          as [|Hn]; [done|].
        apply elem_of_app in Hc as [Hc|Hc]; [by apply Hseen|].
        apply list_elem_of_singleton in Hc as ->. tauto.
      + intros oid cid Hne Hs. rewrite lookup2_insert2 by done.
        rewrite decide_False by (intros [Heq _]; congruence). by apply Hother. }
  destruct HQ as (_ & Hrow & Hother).
  intros option criterion Ho Hc.
  destruct (decide (item_id option = item_id a)) as [->|Hne]; [by apply Hrow|].
  apply Hother; [done|].
  apply elem_of_app in Ho as [Ho|Ho]; [by apply Hvisited|].
  apply list_elem_of_singleton in Ho as ->. done.
Qed.
End ScoringTotal.

(** * The handlers of the five steps

    The state the components of [App] keep, and the functions that
    change it or derive from it what they show. *)

Section Handlers.
Context {num : Type} `{JSNumber num}.

(** ** Step 1: the lists of criteria and options *)

(** [String.prototype.trim]. *)
Definition trim (s : string) : string := trimEnd (trimStart s).

(** [addCriterion] and [addOption], as functions of the text of the
    input and the list; they return the new list and the new text of
    the input. *)
Definition addCriterion (newCriterion : string) (criteria : list Item)
  : list Item * string :=
  if negb (String.eqb (trim newCriterion) ""%string)
     && negb (bool_decide
                (is_Some (find (fun c => String.eqb (item_id c) (trim newCriterion))
                            criteria)))
  then ((criteria ++ [{| item_id := trim newCriterion;
                         content := trim newCriterion |}])%list, ""%string)
  else (criteria, newCriterion).

Definition addOption (newOption : string) (options : list Item)
  : list Item * string :=
  if negb (String.eqb (trim newOption) ""%string)
     && negb (bool_decide
                (is_Some (find (fun o => String.eqb (item_id o) (trim newOption))
                            options)))
  then ((options ++ [{| item_id := trim newOption;
                        content := trim newOption |}])%list, ""%string)
  else (options, newOption).

(** [newCriteria.splice(index, 1)]. *)
Definition removeCriterion (index : nat) (criteria : list Item) : list Item :=
  delete index criteria.

Definition removeOption (index : nat) (options : list Item) : list Item :=
  delete index options.

(** The result of a drag: where the item came from, where it was
    dropped (nowhere when dropped outside a list), and the list. *)
Record DropResult : Type := {
  source_index : nat;
  destination_index : option nat;
  drop_type : string
}.

(** [items.splice(index, 0, item)]. *)
Definition spliceIn {A : Type} (index : nat) (item : A) (items : list A) : list A :=
  (take index items ++ item :: drop index items)%list.

(** [onDragEnd] returns the two lists.  When [source.index] is no
    index of the list, the source takes [undefined] out of the list
    and puts it back in: lists of items have no such entry, and the
    result is [None]. *)
Definition onDragEnd (result : DropResult) (criteria options : list Item)
  : option (list Item * list Item) :=
  match destination_index result with
  | None => Some (criteria, options)
  | Some destination =>
      let list := if String.eqb (drop_type result) "CRITERIA"
                  then criteria else options in
      reorderedItem ← list !! source_index result;
      let items := spliceIn destination reorderedItem
                     (delete (source_index result) list) in
      Some (if String.eqb (drop_type result) "CRITERIA"
            then (items, options) else (criteria, items))
  end.

(** ** Step 2: the slider *)

(** The position of the slider for a matrix value. *)
Definition sliderValue (value : num) : num :=
  if geb value one then opp (sub value one) else sub (div one value) one.

(** The matrix value [handleSliderChange] computes from the parsed
    position. *)
Definition newMatrixValue (newSliderValue : num) : num :=
  if leb newSliderValue zero then add (opp newSliderValue) one
  else div one (add newSliderValue one).

(** ** Step 3: the utility functions *)

Definition withPoints (func : UtilityFunction num) (newPoints : list (Point num))
  : UtilityFunction num :=
  {| criterionType := criterionType func; mode := mode func;
     formulaString := formulaString func; points := newPoints;
     qualitativeLevels := qualitativeLevels func |}.

Definition withQualitativeLevels (func : UtilityFunction num)
    (newLevels : list (Level num)) : UtilityFunction num :=
  {| criterionType := criterionType func; mode := mode func;
     formulaString := formulaString func; points := points func;
     qualitativeLevels := newLevels |}.

(** The handlers read [utilityFunctions[criterionId]]: [None] is the
    [TypeError] of reading a property of [undefined].  They return
    the state [setFunctionData] sets when [prev] is the state the
    handler read, as it is when no other update is pending. *)
Definition addPoint (criterionId : string)
    (utilityFunctions : gmap string (UtilityFunction num))
  : option (gmap string (UtilityFunction num)) :=
  func ← utilityFunctions !! criterionId;
  let newPoints := (points func ++ [{| pt_x := zero; pt_y := zero |}])%list in
  Some (<[criterionId := withPoints func newPoints]> utilityFunctions).

Definition addQualitativeLevel (criterionId : string)
    (utilityFunctions : gmap string (UtilityFunction num))
  : option (gmap string (UtilityFunction num)) :=
  func ← utilityFunctions !! criterionId;
  let newLevels :=
    (qualitativeLevels func ++ [{| label := "New Level"; utility := lit 50 0 |}])%list in
  Some (<[criterionId := withQualitativeLevels func newLevels]> utilityFunctions).

(** [newPoints[index][field] = parseFloat(value) || 0]: a
    [TypeError] when there is no point at [index]; a field other
    than [x] and [y] is a property the point does not show.  The
    copy of the array is shallow and the assignment changes the
    point of the old state too; the function gives the new state. *)
Definition updatePoint (criterionId : string) (index : nat) (field value : string)
    (utilityFunctions : gmap string (UtilityFunction num))
  : option (gmap string (UtilityFunction num)) :=
  func ← utilityFunctions !! criterionId;
  point ← points func !! index;
  let number := orZero (parseFloat (VString value)) in
  let newPoint :=
    if String.eqb field "x"%string then {| pt_x := number; pt_y := pt_y point |}
    else if String.eqb field "y"%string then {| pt_x := pt_x point; pt_y := number |}
    else point in
  Some (<[criterionId := withPoints func (<[index := newPoint]> (points func))]>
          utilityFunctions).

Definition updateQualitativeLevel (criterionId : string) (index : nat)
    (field value : string)
    (utilityFunctions : gmap string (UtilityFunction num))
  : option (gmap string (UtilityFunction num)) :=
  func ← utilityFunctions !! criterionId;
  level ← qualitativeLevels func !! index;
  let newLevel :=
    if String.eqb field "utility"
    then {| label := label level; utility := orZero (parseFloat (VString value)) |}
    else if String.eqb field "label"
    then {| label := value; utility := utility level |}
    else level in
  Some (<[criterionId :=
            withQualitativeLevels func (<[index := newLevel]> (qualitativeLevels func))]>
          utilityFunctions).

Definition removePoint (criterionId : string) (index : nat)
    (utilityFunctions : gmap string (UtilityFunction num))
  : option (gmap string (UtilityFunction num)) :=
  func ← utilityFunctions !! criterionId;
  Some (<[criterionId := withPoints func (delete index (points func))]>
          utilityFunctions).

Definition removeQualitativeLevel (criterionId : string) (index : nat)
    (utilityFunctions : gmap string (UtilityFunction num))
  : option (gmap string (UtilityFunction num)) :=
  func ← utilityFunctions !! criterionId;
  Some (<[criterionId :=
            withQualitativeLevels func (delete index (qualitativeLevels func))]>
          utilityFunctions).

(** ** Step 4: the entered values *)

(** [{...prev, [optionId]: {...prev[optionId], [criterionId]: value}}]. *)
Definition handleValueChange (optionId criterionId : string) (value : jsval num)
    (prev : gmap string (gmap string (jsval num)))
  : gmap string (gmap string (jsval num)) :=
  <[optionId := <[criterionId := value]> (default ∅ (prev !! optionId))]> prev.

(** ** [App]: the effect that keeps the weights *)

Definition App_weightsEffect (criteria : list Item) (pairwiseMatrix : matrix num)
    (state : list num * Consistency num) : list num * Consistency num :=
  if (0 <? length criteria)%nat && (length pairwiseMatrix =? length criteria)%nat
  then (calculateWeights (normalizeMatrix pairwiseMatrix),
        checkConsistency pairwiseMatrix)
  else state.

(** ** The report *)

(** The width of the bar of a judgment, in percent of the row. *)
Definition intensity (value : num) : num :=
  if geb value one then mul (div (sub value one) (lit 8 0)) (lit 50 0)
  else
    let inv := div one value in
    mul (div (sub inv one) (lit 8 0)) (lit 50 0).

(** [sortedOptions[0]?.content || 'N/A']. *)
Definition recommendation (sortedOptions : list (ScoredOption num)) : string :=
  match sortedOptions !! 0%nat with
  | Some opt =>
      if String.eqb (content (so_option opt)) ""%string then "N/A"
      else content (so_option opt)
  | None => "N/A"
  end.
End Handlers.

(** * Step 1: the lists keep their ids apart *)

Section Trim.
(** The last character of a string. *)
Fixpoint lastAscii (s : string) : option ascii :=
  match s with
  | EmptyString => None
  | String c EmptyString => Some c
  | String _ s' => lastAscii s'
  end.

(** A name that is not empty and has no white space at either
    end. *)
Definition trimmedName (s : string) : Prop :=
  (exists c r, s = String c r /\ isWhiteSpace c = false)
  /\ (exists c, lastAscii s = Some c /\ isWhiteSpace c = false).

Lemma trimStart_head (s : string) (c : ascii) (r : string) :
  trimStart s = String c r -> isWhiteSpace c = false.
Proof.
  induction s as [|a s IH]; simpl; [done|].
  destruct (isWhiteSpace a) eqn:E; [done|]. by intros [= <- _].
Qed.

Lemma trimEnd_last (s : string) :
  trimEnd s = EmptyString
  \/ exists c, lastAscii (trimEnd s) = Some c /\ isWhiteSpace c = false.
Proof.
  induction s as [|a s IH]; simpl; [by left|].
  destruct (trimEnd s) as [|b t] eqn:E.
  - destruct (isWhiteSpace a) eqn:Ea; [by left|]. right. by exists a.
  - right. destruct IH as [|IH]; [done|]. exact IH.
Qed.

Lemma trimEnd_head (c : ascii) (r : string) :
  isWhiteSpace c = false -> exists r', trimEnd (String c r) = String c r'.
Proof.
  intros Hc. simpl. destruct (trimEnd r); [rewrite Hc|]; by eexists.
Qed.

(** What [trim] returns is empty or a trimmed name. *)
Lemma trim_trimmed (s : string) : trim s = EmptyString \/ trimmedName (trim s).
Proof.
  unfold trim. destruct (trimStart s) as [|c r] eqn:Es; [by left|].
  right. pose proof (trimStart_head s c r Es) as Hc.
  destruct (trimEnd_head c r Hc) as [r' Hr']. split.
  - exists c, r'. by split.
  - destruct (trimEnd_last (String c r)) as [Hempty|Hlast]; [congruence|done].
Qed.

Lemma trimEnd_fixed (s : string) :
  (exists c, lastAscii s = Some c /\ isWhiteSpace c = false) -> trimEnd s = s.
Proof.
  induction s as [|a s IH]; [by intros (c & ? & _)|].
  intros (c & Hlast & Hc). simpl in *. destruct s as [|b s'].
  - injection Hlast as ->. simpl. by rewrite Hc.
  - rewrite IH by (by exists c). done.
Qed.

(** Trimming a trimmed name changes nothing. *)
Lemma trim_fixed (s : string) : trimmedName s -> trim s = s.
Proof.
  intros [(c & r & -> & Hc) Hlast]. unfold trim. simpl. rewrite Hc.
  by apply trimEnd_fixed.
Qed.
End Trim.

Section Step1.
Definition uniqueIds (items : list Item) : Prop := NoDup (item_id <$> items).

Definition namedItems (items : list Item) : Prop :=
  Forall (fun item => trimmedName (item_id item) /\ content item = item_id item) items.

Lemma find_id_None (name : string) (items : list Item) :
  find (fun c => String.eqb (item_id c) name) items = None
  <-> name ∉ (item_id <$> items).
Proof.
  induction items as [|a l IH].
  - split; [intros _ Hin; by apply elem_of_nil in Hin|done].
  - rewrite fmap_cons, not_elem_of_cons. cbn [find].
    destruct (String.eqb_spec (item_id a) name) as [Heq|Hne].
    + split; [done|]. intros [Hne _]. by destruct Hne.
    + rewrite IH. split; [intros Hl; by split|by intros [_ Hl]].
Qed.

(** What the two [add] handlers do. *)
Lemma addCriterion_eq (newCriterion : string) (criteria : list Item) :
  addCriterion newCriterion criteria
  = if decide (trim newCriterion <> EmptyString
               /\ trim newCriterion ∉ (item_id <$> criteria))
    then (criteria ++ [{| item_id := trim newCriterion;
                          content := trim newCriterion |}], EmptyString)
    else (criteria, newCriterion).
Proof.
  unfold addCriterion.
  destruct (String.eqb_spec (trim newCriterion) "") as [Hempty|Hne]; simpl.
  { rewrite decide_False; [done|]. by intros [? _]. }
  destruct (find _ criteria) as [c|] eqn:E.
  - rewrite bool_decide_true by (by eexists). simpl.
    rewrite decide_False; [done|]. intros [_ Hnin].
    apply find_id_None in Hnin. congruence.
  - rewrite bool_decide_false by (by intros [? ?]). simpl.
    rewrite decide_True; [done|]. split; [done|]. by apply find_id_None.
Qed.

Lemma addOption_eq (newOption : string) (options : list Item) :
  addOption newOption options = addCriterion newOption options.
Proof. done. Qed.

Lemma addCriterion_unique (newCriterion : string) (criteria : list Item) :
  uniqueIds criteria -> uniqueIds (addCriterion newCriterion criteria).1.
Proof.
  intros Hnd. rewrite addCriterion_eq.
  destruct (decide _) as [[_ Hnin]|_]; [|done]. simpl.
  unfold uniqueIds. rewrite fmap_app. apply NoDup_app. split; [done|]. split.
  - intros x Hx Hin. apply list_elem_of_singleton in Hin. simpl in Hin. by subst.
  - apply NoDup_singleton.
Qed.

Lemma addCriterion_named (newCriterion : string) (criteria : list Item) :
  namedItems criteria -> namedItems (addCriterion newCriterion criteria).1.
Proof.
  intros Hnamed. rewrite addCriterion_eq.
  destruct (decide _) as [[Hne _]|_]; [|done]. simpl.
  apply Forall_app. split; [done|]. apply Forall_singleton. simpl.
  split; [|done]. by destruct (trim_trimmed newCriterion).
Qed.

Lemma removeCriterion_unique (index : nat) (criteria : list Item) :
  uniqueIds criteria -> uniqueIds (removeCriterion index criteria).
Proof.
  unfold uniqueIds, removeCriterion. rewrite list_fmap_delete.
  intros Hnd. eapply sublist_NoDup; [exact Hnd|apply sublist_delete].
Qed.

Lemma spliceIn_delete_perm {A : Type} (l : list A) (source destination : nat) (x : A) :
  l !! source = Some x -> spliceIn destination x (delete source l) ≡ₚ l.
Proof.
  intros Hx. unfold spliceIn.
  rewrite <- Permutation_middle, take_drop. symmetry. by apply delete_Permutation.
Qed.

Lemma spliceIn_lookup {A : Type} (l : list A) (destination : nat) (x : A) :
  spliceIn destination x l !! (destination `min` length l)%nat = Some x.
Proof. unfold spliceIn. apply list_lookup_middle. by rewrite length_take. Qed.

Lemma spliceIn_delete {A : Type} (l : list A) (destination : nat) (x : A) :
  delete (destination `min` length l)%nat (spliceIn destination x l) = l.
Proof.
  unfold spliceIn. rewrite delete_take_drop.
  assert (Hlen : length (take destination l) = (destination `min` length l)%nat)
    by apply length_take.
  rewrite <- Hlen.
  rewrite take_app_length, drop_app_ge by lia.
  replace (S (length (take destination l)) - length (take destination l))%nat
    with 1%nat by lia.
  simpl. rewrite drop_0. apply take_drop.
Qed.
End Step1.

(** * Step 2: the slider and the mutator *)

Section SliderExact.
Local Open Scope Qc_scope.

Lemma xgeb_one (q : Qc) : geb (XFin q) one = true <-> 1 <= q.
Proof. unfold geb. rewrite xone. apply xleb_fin. Qed.

Lemma xgeb_one_false (q : Qc) : geb (XFin q) one = false <-> q < 1.
Proof. unfold geb. rewrite xone. apply xleb_fin_false. Qed.

Lemma sliderValue_exact (q : Qc) :
  0 < q ->
  sliderValue (XFin q) = XFin (if Qclt_le_dec q 1 then 1 / q - 1 else - (q - 1)).
Proof.
  intros Hq. unfold sliderValue.
  destruct (Qclt_le_dec q 1) as [Hlt|Hge].
  - rewrite (proj2 (xgeb_one_false q) Hlt), xone.
    rewrite xdiv_fin by (by apply Qclt_nonzero). by rewrite xsub_fin.
  - rewrite (proj2 (xgeb_one q) Hge), xone. by rewrite xsub_fin.
Qed.

Lemma newMatrixValue_exact (s : Qc) :
  newMatrixValue (XFin s)
  = XFin (if Qclt_le_dec 0 s then 1 / (s + 1) else - s + 1).
Proof.
  unfold newMatrixValue. rewrite xzero, xone.
  destruct (Qclt_le_dec 0 s) as [Hpos|Hle].
  - rewrite (proj2 (xleb_fin_false s 0) Hpos), xadd_fin.
    rewrite xdiv_fin; [done|]. apply Qclt_nonzero. qc_to_q. lra.
  - rewrite (proj2 (xleb_fin s 0) Hle). simpl. done.
Qed.

Lemma Qcinv_involutive (q : Qc) : q <> 0 -> 1 / (1 / q) = q.
Proof. intros Hq. field. split; [done|]. apply Q_apart_0_1. Qed.

Lemma Qcdiv_lt_1 (q : Qc) : 1 < q -> 1 / q < 1.
Proof.
  intros Hq. assert (H0 : 0 < q) by (qc_to_q; lra).
  assert (Hd : 0 < 1 / q) by (apply Qcdiv_pos; [reflexivity|done]).
  assert (Hm : 1 / q * q = 1) by (field; by apply Qclt_nonzero).
  apply Qcnot_le_lt. intros Hle.
  assert (q <= 1 / q * q).
  { rewrite <- (Qcmult_1_l q) at 1. apply Qcmult_le_compat_r; [done|].
    by apply Qclt_le_weak. }
  rewrite Hm in H. by apply Qclt_not_le in Hq.
Qed.

Lemma Qcdiv_gt_1 (q : Qc) : 0 < q -> q < 1 -> 1 < 1 / q.
Proof.
  intros H0 H1. assert (Hm : 1 / q * q = 1) by (field; by apply Qclt_nonzero).
  apply Qcnot_le_lt. intros Hle.
  assert (1 / q * q <= 1 * q).
  { apply Qcmult_le_compat_r; [done|]. by apply Qclt_le_weak. }
  rewrite Hm, Qcmult_1_l in H. by apply Qclt_not_le in H1.
Qed.

(** The slider stands where the matrix value puts it: a value read
    back from its position is the value. *)
Lemma newMatrixValue_sliderValue (q : Qc) :
  0 < q -> newMatrixValue (sliderValue (XFin q)) = XFin q.
Proof.
  intros Hq. rewrite sliderValue_exact, newMatrixValue_exact by done.
  apply (f_equal XFin).
  destruct (Qclt_le_dec q 1) as [Hlt|Hge].
  - pose proof (Qcdiv_gt_1 q Hq Hlt) as Hinv.
    destruct (Qclt_le_dec 0 (1 / q - 1)) as [_|Hle].
    + replace (1 / q - 1 + 1) with (1 / q) by ring.
      apply Qcinv_involutive. by apply Qclt_nonzero.
    + exfalso. clear -Hinv Hle. qc_to_q. lra.
  - destruct (Qclt_le_dec 0 (- (q - 1))) as [Hlt|_]; [|ring].
    exfalso. clear -Hge Hlt. qc_to_q. lra.
Qed.

(** And the position read back from the value it stands for is the
    position. *)
Lemma sliderValue_newMatrixValue (s : Qc) :
  exists q, newMatrixValue (XFin s) = XFin q /\ 0 < q
            /\ sliderValue (XFin q) = XFin s.
Proof.
  rewrite newMatrixValue_exact.
  destruct (Qclt_le_dec 0 s) as [Hpos|Hle].
  - assert (Hs1 : 1 < s + 1) by (clear -Hpos; qc_to_q; lra).
    assert (Hs0 : 0 < s + 1) by (clear -Hpos; qc_to_q; lra).
    exists (1 / (s + 1)). split; [done|].
    assert (Hq : 0 < 1 / (s + 1)) by (apply Qcdiv_pos; [reflexivity|done]).
    split; [done|]. rewrite sliderValue_exact by done. apply (f_equal XFin).
    pose proof (Qcdiv_lt_1 (s + 1) Hs1) as Hlt.
    destruct (Qclt_le_dec (1 / (s + 1)) 1) as [_|Hge].
    + rewrite Qcinv_involutive by (by apply Qclt_nonzero). ring.
    + by apply Qclt_not_le in Hlt.
  - exists (- s + 1). split; [done|].
    assert (Hq : 1 <= - s + 1) by (clear -Hle; qc_to_q; lra).
    assert (0 < - s + 1) by (clear -Hle; qc_to_q; lra).
    split; [done|]. rewrite sliderValue_exact by done. apply (f_equal XFin).
    destruct (Qclt_le_dec (- s + 1) 1) as [Hlt|_]; [|ring].
    by apply Qclt_not_le in Hlt.
Qed.

(** The values the slider produces lie between 1/9 and 9. *)
Lemma newMatrixValue_range (s : Qc) :
  - ofZ 8 <= s -> s <= ofZ 8 ->
  exists q, newMatrixValue (XFin s) = XFin q /\ 1 / ofZ 9 <= q /\ q <= ofZ 9.
Proof.
  intros Hlo Hhi. rewrite newMatrixValue_exact.
  assert (H8 : ofZ 8 + 1 = ofZ 9) by (apply Qc_is_canon; reflexivity).
  assert (H9 : 0 < ofZ 9) by reflexivity.
  assert (H19 : 1 / ofZ 9 < 1) by (apply Qcdiv_lt_1; reflexivity).
  destruct (Qclt_le_dec 0 s) as [Hpos|Hle].
  - exists (1 / (s + 1)). split; [done|].
    assert (Hs0 : 0 < s + 1) by (clear -Hpos; qc_to_q; lra).
    assert (Hs1 : 1 < s + 1) by (clear -Hpos; qc_to_q; lra).
    assert (Hs9 : s + 1 <= ofZ 9) by (rewrite <- H8; clear -Hhi; qc_to_q; lra).
    pose proof (Qcdiv_lt_1 (s + 1) Hs1) as Hlt. split.
    + apply (Qcmult_lt_0_le_reg_r _ _ (ofZ 9 * (s + 1))).
      { clear -H9 Hs0. qc_to_q. nra. }
      replace (1 / ofZ 9 * (ofZ 9 * (s + 1))) with (s + 1)
        by (field; by apply Qclt_nonzero).
      replace (1 / (s + 1) * (ofZ 9 * (s + 1))) with (ofZ 9)
        by (field; by apply Qclt_nonzero).
      done.
    + apply Qclt_le_weak. eapply Qclt_trans; [exact Hlt|reflexivity].
  - exists (- s + 1). split; [done|]. split.
    + apply Qclt_le_weak. eapply Qclt_le_trans; [exact H19|].
      clear -Hle. qc_to_q. lra.
    + rewrite <- H8. clear -Hlo. qc_to_q. lra.
Qed.
End SliderExact.

(** In binary64, for the seventeen positions of the slider. *)
Lemma sliderValue_handleSliderChange_F64 (position : string) :
  position ∈ sliderPositions ->
  eqb (sliderValue (handleSliderChange position : float))
      (parseFloat (VString position)) = true.
Proof.
  intros Hs. unfold sliderPositions in Hs.
  repeat (apply elem_of_cons in Hs as [->|Hs]; [by vm_compute|]).
  by apply elem_of_nil in Hs.
Qed.

Section MutatorMore.
Context {num : Type} `{JSNumber num}.

Lemma handleSliderChange_eq (targetValue : string) :
  handleSliderChange targetValue = newMatrixValue (parseFloat (VString targetValue)).
Proof. done. Qed.

(** The mutator throws exactly when [i] or [j] is no row of the
    matrix. *)
Lemma handleComparisonChange_None (m : matrix num) (i j : nat) (v : num) :
  handleComparisonChange m i j v = None
  <-> (length m <= i)%nat \/ (length m <= j)%nat.
Proof.
  unfold handleComparisonChange.
  destruct (m !! i) as [row_i|] eqn:Ei; simpl.
  - apply lookup_lt_Some in Ei.
    destruct (<[i := setNum row_i j v]> m !! j) as [row_j|] eqn:Ej; simpl.
    + apply lookup_lt_Some in Ej. rewrite length_insert in Ej.
      split; [done|lia].
    + apply lookup_ge_None in Ej. rewrite length_insert in Ej.
      split; [by right|done].
  - apply lookup_ge_None in Ei. split; [by left|done].
Qed.

Lemma setNum_setNum (a : list num) (i : nat) (v w : num) :
  setNum (setNum a i v) i w = setNum a i w.
Proof.
  unfold setNum. destruct (Nat.ltb_spec i (length a)) as [Hlt|Hge].
  - rewrite length_insert. destruct (Nat.ltb_spec i (length a)) as [_|]; [|lia].
    by rewrite list_insert_insert_eq.
  - rewrite !length_app, length_replicate. simpl.
    destruct (Nat.ltb_spec i (length a + (i - length a + 1))) as [_|]; [|lia].
    rewrite insert_app_r_alt by lia. f_equal.
    rewrite insert_app_r_alt by (rewrite length_replicate; lia).
    rewrite length_replicate. f_equal.
    by replace (i - length a - (i - length a))%nat with 0%nat by lia.
Qed.

(** A second change of the same judgment replaces the first. *)
Lemma handleComparisonChange_twice (m m1 : matrix num) (i j : nat) (v1 v2 : num) :
  i <> j ->
  handleComparisonChange m i j v1 = Some m1 ->
  handleComparisonChange m1 i j v2 = handleComparisonChange m i j v2.
Proof.
  intros Hij. unfold handleComparisonChange.
  destruct (m !! i) as [row_i|] eqn:Ei; [|done]. simpl.
  rewrite !list_lookup_insert_ne by done.
  destruct (m !! j) as [row_j|] eqn:Ej; [|done]. simpl.
  intros [= <-].
  pose proof (lookup_lt_Some _ _ _ Ei) as Hi.
  pose proof (lookup_lt_Some _ _ _ Ej) as Hj.
  rewrite list_lookup_insert_ne by done.
  rewrite list_lookup_insert_eq by done. simpl.
  rewrite list_lookup_insert_ne by done.
  rewrite list_lookup_insert_eq by (rewrite !length_insert; lia). simpl.
  rewrite !setNum_setNum. f_equal.
  rewrite (list_insert_insert_ne _ j i) by done.
  rewrite list_insert_insert_eq.
  rewrite (list_insert_insert_ne _ i j) by done.
  by rewrite list_insert_insert_eq.
Qed.
End MutatorMore.

(** * Step 3: the tables stay numeric *)

Section Step3.
Context {num : Type} {JN : JSNumber num} {laws : NumberLaws num}.
Hypothesis fifty_notNaN : isNaN (lit 50 0 : num) = false.

(** The coordinates of the points and the utilities of the levels
    are numbers. *)
Definition numericFunction (func : UtilityFunction num) : Prop :=
  Forall (fun p => isNaN (pt_x p) = false /\ isNaN (pt_y p) = false) (points func)
  /\ Forall (fun l => isNaN (utility l) = false) (qualitativeLevels func).

Definition numericFunctions (utilityFunctions : gmap string (UtilityFunction num))
  : Prop :=
  forall id func, utilityFunctions !! id = Some func -> numericFunction func.

(** [v || 0] is never NaN. *)
Lemma orZero_notNaN (v : num) : isNaN (orZero v) = false.
Proof using laws.
  unfold orZero. destruct (eqb v zero || isNaN v) eqn:E.
  - apply zero_notNaN.
  - by apply orb_false_iff in E as [_ E].
Qed.

Lemma numericFunctions_insert utilityFunctions id func :
  numericFunctions utilityFunctions -> numericFunction func ->
  numericFunctions (<[id := func]> utilityFunctions).
Proof.
  intros Hall Hfunc id' func'. rewrite lookup_insert_Some.
  intros [[_ <-]|[_ Hlook]]; [done|by eapply Hall].
Qed.

Lemma numericFunctions_tables utilityFunctions :
  numericFunctions utilityFunctions -> numericTables utilityFunctions.
Proof.
  intros Hall id func Hfunc. destruct (Hall id func Hfunc) as [Hpoints _].
  unfold numericPoints. eapply Forall_impl; [exact Hpoints|]. by intros p [Hx _].
Qed.

Lemma addPoint_numeric criterionId utilityFunctions utilityFunctions' :
  numericFunctions utilityFunctions ->
  addPoint criterionId utilityFunctions = Some utilityFunctions' ->
  numericFunctions utilityFunctions'.
Proof using laws.
  intros Hall. unfold addPoint.
  destruct (utilityFunctions !! criterionId) as [func|] eqn:E; [|done]. simpl.
  intros [= <-]. apply numericFunctions_insert; [done|].
  destruct (Hall _ _ E) as [Hpoints Hlevels]. split; [|done]. simpl.
  apply Forall_app. split; [done|]. apply Forall_singleton. simpl.
  split; apply zero_notNaN.
Qed.

Lemma addQualitativeLevel_numeric criterionId utilityFunctions utilityFunctions' :
  numericFunctions utilityFunctions ->
  addQualitativeLevel criterionId utilityFunctions = Some utilityFunctions' ->
  numericFunctions utilityFunctions'.
Proof using fifty_notNaN.
  intros Hall. unfold addQualitativeLevel.
  destruct (utilityFunctions !! criterionId) as [func|] eqn:E; [|done]. simpl.
  intros [= <-]. apply numericFunctions_insert; [done|].
  destruct (Hall _ _ E) as [Hpoints Hlevels]. split; [done|]. simpl.
  apply Forall_app. split; [done|]. by apply Forall_singleton.
Qed.

Lemma updatePoint_numeric criterionId index field value
    utilityFunctions utilityFunctions' :
  numericFunctions utilityFunctions ->
  updatePoint criterionId index field value utilityFunctions = Some utilityFunctions' ->
  numericFunctions utilityFunctions'.
Proof using laws.
  intros Hall. unfold updatePoint.
  destruct (utilityFunctions !! criterionId) as [func|] eqn:E; [|done]. simpl.
  destruct (points func !! index) as [point|] eqn:Ep; [|done]. simpl.
  intros [= <-]. apply numericFunctions_insert; [done|].
  destruct (Hall _ _ E) as [Hpoints Hlevels]. split; [|done]. simpl.
  apply Forall_insert; [done|].
  rewrite Forall_forall in Hpoints.
  destruct (Hpoints point) as [Hx Hy]; [by eapply list_elem_of_lookup_2|].
  destruct (String.eqb field "x"); [split; [apply orZero_notNaN|done]|].
  destruct (String.eqb field "y"); [split; [done|apply orZero_notNaN]|].
  by split.
Qed.

Lemma updateQualitativeLevel_numeric criterionId index field value
    utilityFunctions utilityFunctions' :
  numericFunctions utilityFunctions ->
  updateQualitativeLevel criterionId index field value utilityFunctions
  = Some utilityFunctions' ->
  numericFunctions utilityFunctions'.
Proof using laws.
  intros Hall. unfold updateQualitativeLevel.
  destruct (utilityFunctions !! criterionId) as [func|] eqn:E; [|done]. simpl.
  destruct (qualitativeLevels func !! index) as [level|] eqn:El; [|done]. simpl.
  intros [= <-]. apply numericFunctions_insert; [done|].
  destruct (Hall _ _ E) as [Hpoints Hlevels]. split; [done|]. simpl.
  apply Forall_insert; [done|].
  rewrite Forall_forall in Hlevels.
  pose proof (Hlevels level (list_elem_of_lookup_2 _ _ _ El)) as Hu.
  destruct (String.eqb field "utility"); [apply orZero_notNaN|].
  by destruct (String.eqb field "label").
Qed.

Lemma removePoint_numeric criterionId index utilityFunctions utilityFunctions' :
  numericFunctions utilityFunctions ->
  removePoint criterionId index utilityFunctions = Some utilityFunctions' ->
  numericFunctions utilityFunctions'.
Proof.
  intros Hall. unfold removePoint.
  destruct (utilityFunctions !! criterionId) as [func|] eqn:E; [|done]. simpl.
  intros [= <-]. apply numericFunctions_insert; [done|].
  destruct (Hall _ _ E) as [Hpoints Hlevels]. split; [|done]. simpl.
  by apply Forall_delete.
Qed.

Lemma removeQualitativeLevel_numeric criterionId index
    utilityFunctions utilityFunctions' :
  numericFunctions utilityFunctions ->
  removeQualitativeLevel criterionId index utilityFunctions = Some utilityFunctions' ->
  numericFunctions utilityFunctions'.
Proof.
  intros Hall. unfold removeQualitativeLevel.
  destruct (utilityFunctions !! criterionId) as [func|] eqn:E; [|done]. simpl.
  intros [= <-]. apply numericFunctions_insert; [done|].
  destruct (Hall _ _ E) as [Hpoints Hlevels]. split; [done|]. simpl.
  by apply Forall_delete.
Qed.

(** [updatePoint] throws exactly when the criterion has no function
    or the function no point at the index; otherwise it changes the
    named coordinate of that point and nothing else. *)
Lemma updatePoint_result criterionId index field value utilityFunctions :
  match updatePoint criterionId index field value utilityFunctions with
  | None =>
      forall func, utilityFunctions !! criterionId = Some func ->
                   (length (points func) <= index)%nat
  | Some utilityFunctions' =>
      exists func point,
        utilityFunctions !! criterionId = Some func
        /\ points func !! index = Some point
        /\ (forall id, id <> criterionId ->
                       utilityFunctions' !! id = utilityFunctions !! id)
        /\ exists func',
             utilityFunctions' !! criterionId = Some func'
             /\ criterionType func' = criterionType func
             /\ mode func' = mode func
             /\ formulaString func' = formulaString func
             /\ qualitativeLevels func' = qualitativeLevels func
             /\ length (points func') = length (points func)
             /\ (forall k, k <> index -> points func' !! k = points func !! k)
             /\ exists point',
                  points func' !! index = Some point'
                  /\ (field = "x"%string ->
                      pt_x point' = orZero (parseFloat (VString value))
                      /\ pt_y point' = pt_y point)
                  /\ (field = "y"%string ->
                      pt_y point' = orZero (parseFloat (VString value))
                      /\ pt_x point' = pt_x point)
  end.
Proof.
  unfold updatePoint.
  destruct (utilityFunctions !! criterionId) as [func|] eqn:E; simpl; [|done].
  destruct (points func !! index) as [point|] eqn:Ep; simpl.
  - exists func, point. split; [done|]. split; [done|]. split.
    { intros id Hne. by rewrite lookup_insert_ne. }
    eexists. split; [by rewrite lookup_insert_eq|]. simpl.
    repeat (split; [done|]). split; [by rewrite length_insert|]. split.
    { intros k Hk. by rewrite list_lookup_insert_ne. }
    eexists. split.
    { rewrite list_lookup_insert_eq; [done|]. by eapply lookup_lt_Some. }
    split.
    + intros ->. done.
    + intros ->. done.
  - intros func' [= <-]. by apply lookup_ge_None.
Qed.
End Step3.

(** * Step 4: the entered values *)

Section Step4.
Context {num : Type} `{JSNumber num}.

(** An entered value is stored under its option and criterion, also
    for an option without values so far, and every other entry is
    kept. *)
Lemma lookup2_handleValueChange (optionId criterionId : string) (value : jsval num)
    (prev : gmap string (gmap string (jsval num))) (oid cid : string) :
  lookup2 (handleValueChange optionId criterionId value prev) oid cid
  = if decide (oid = optionId /\ cid = criterionId) then Some value
    else lookup2 prev oid cid.
Proof.
  unfold lookup2, handleValueChange.
  destruct (decide (oid = optionId)) as [->|Ho].
  - rewrite lookup_insert_eq. simpl.
    destruct (decide (cid = criterionId)) as [->|Hc].
    + rewrite lookup_insert_eq. by rewrite decide_True.
    + rewrite lookup_insert_ne by done. rewrite decide_False by tauto.
      destruct (prev !! optionId); [done|]. simpl. by rewrite lookup_empty.
  - rewrite lookup_insert_ne by done. rewrite decide_False by tauto. done.
Qed.
End Step4.

(** * More on the scores *)

Section ClampedCells.
Context {num : Type} `{JSNumber num}.
Variable host : Host num.

(** A cell is the clamp of some number. *)
Lemma scoreCell_clamped (func : option (UtilityFunction num)) (raw : jsval num)
    (g g' : globals host) (v : num) :
  scoreCell host func raw g = (Some v, g') -> exists u, v = clamp u.
Proof.
  rewrite scoreCell_spec. unfold specUtility.
  destruct (func ≫= variantOf) as [variant|];
    unfold mbind, M_bind, bind, mret, M_ret, ret.
  - destruct (specRawUtility host variant raw g) as [[u|] g1]; [|done].
    intros [= <- _]. by eexists.
  - intros [= <- _]. by eexists.
Qed.

Lemma scoringLoop_clamped rawOf options criteria utilityFunctions g grid g' :
  scoringLoop host rawOf options criteria utilityFunctions g = (Some grid, g') ->
  forall oid cid v, lookup2 grid oid cid = Some v -> exists u, v = clamp u.
Proof.
  intros Hrun oid cid v Hv.
  destruct (scoringLoop_cells host rawOf options criteria utilityFunctions g grid g'
              Hrun oid cid v Hv) as (o & c & g0 & g1 & _ & _ & _ & _ & Hcell).
  by eapply scoreCell_clamped.
Qed.
End ClampedCells.

Section ExactScoreBounds.
Local Open Scope Qc_scope.

(** A utility as the aggregation reads it, [v || 0], between 0 and
    100. *)
Definition boundedUtility (v : option xnum) : Prop :=
  exists u, orZero' v = XFin u /\ 0 <= u /\ u <= ofZ 100.

Lemma orZero_fin (q : Qc) : orZero (XFin q) = XFin q.
Proof.
  unfold orZero. rewrite xzero. simpl.
  destruct (Xops.qeqb q 0) eqn:E; [|done]. apply qeqb_eq in E. by rewrite E.
Qed.

Lemma clamp_bounded (u : xnum) : boundedUtility (Some (clamp u)).
Proof.
  unfold boundedUtility.
  change (orZero' (Some (clamp u))) with (orZero (clamp u)).
  destruct (isNaN (clamp u)) eqn:En.
  - exists 0. split; [|split; [apply Qcle_refl|done]].
    unfold orZero. rewrite En, orb_true_r. apply xzero.
  - assert (Hu : isNaN u = false).
    { destruct u as [|s|q]; [by vm_compute in En|done|done]. }
    destruct (clamp_range_Exact u Hu) as [Hlo Hhi].
    destruct (clamp u) as [|s|q]; [done| |].
    + destruct s; [by rewrite xzero in Hlo|done].
    + exists q. split; [apply orZero_fin|].
      rewrite xzero in Hlo. apply xleb_fin in Hlo.
      rewrite (lit_int 100) in Hhi. apply xleb_fin in Hhi. done.
Qed.

Lemma missing_bounded : boundedUtility None.
Proof.
  exists 0. split; [apply xzero|]. split; [apply Qcle_refl|done].
Qed.

(** Termwise bounds carry over to the sums. *)
Lemma fold_add_bounded (c : Qc) (terms bounds : list xnum) (t0 b0 : Qc) :
  Forall2 (fun t b => exists t' b', t = XFin t' /\ b = XFin b'
                                    /\ 0 <= t' /\ t' <= c * b') terms bounds ->
  0 <= t0 -> t0 <= c * b0 ->
  exists st sb, fold_left add terms (XFin t0) = XFin st
                /\ fold_left add bounds (XFin b0) = XFin sb
                /\ 0 <= st /\ st <= c * sb.
Proof.
  intros Hall. revert t0 b0.
  induction Hall as [|t b terms bounds (t' & b' & -> & -> & Ht0 & Htb) _ IH];
    intros t0 b0 H0 Hb; simpl.
  - by exists t0, b0.
  - apply IH; [qc_to_q; lra|]. clear -Hb Htb. qc_to_q. lra.
Qed.

Lemma specScore_bounds (option : Item) (criteria : list Item) (weights : list xnum)
    (utilityScores : gmap string (gmap string xnum)) :
  length weights = length criteria ->
  Forall nonnegative weights ->
  sumArray weights = XFin 1 ->
  (forall criterion, criterion ∈ criteria ->
      boundedUtility (lookup2 utilityScores (item_id option) (item_id criterion))) ->
  exists s, specScore option criteria weights utilityScores = XFin s
            /\ 0 <= s /\ s <= ofZ 100.
Proof.
  intros Hlen Hweights Hsum Hcells. unfold specScore, sumArray.
  unfold sumArray in Hsum. rewrite xzero in Hsum |- *.
  destruct (fold_add_bounded (ofZ 100)
              (imap (fun i criterion =>
                       mul (orZero' (lookup2 utilityScores (item_id option)
                                       (item_id criterion)))
                         (orZero' (weights !! i))) criteria)
              weights 0 0) as (st & sb & Hst & Hsb & H0 & Hle).
  - apply Forall2_same_length_lookup_2; [by rewrite length_imap|].
    intros i t w Ht Hw. rewrite list_lookup_imap in Ht.
    destruct (criteria !! i) as [criterion|] eqn:Ec; [|done]. simpl in Ht.
    injection Ht as <-.
    destruct (Hcells criterion (list_elem_of_lookup_2 _ _ _ Ec)) as (u & -> & Hu0 & Hu1).
    rewrite Forall_forall in Hweights.
    destruct (Hweights w (list_elem_of_lookup_2 _ _ _ Hw)) as (w' & -> & Hw').
    rewrite Hw. change (orZero' (Some (XFin w'))) with (orZero (XFin w')).
    rewrite orZero_fin, xmul_fin.
    exists (u * w'), w'. split; [done|]. split; [done|].
    clear -Hu0 Hu1 Hw'. split; qc_to_q; nra.
  - apply Qcle_refl.
  - qc_to_q. lra.
  - rewrite Hsum in Hsb. apply XFin_inj in Hsb as <-.
    exists st. split; [done|]. split; [done|].
    clear -Hle. qc_to_q. lra.
Qed.

(** A criterion the weight vector has no entry for adds nothing to
    a score. *)
Lemma totalScoreOf_unweighted (option : Item) (criteria : list Item)
    (criterion : Item) (weights : list xnum)
    (utilityScores : gmap string (gmap string xnum)) :
  (length weights <= length criteria)%nat ->
  (exists u, orZero' (lookup2 utilityScores (item_id option) (item_id criterion))
             = XFin u) ->
  (exists s, totalScoreOf option criteria weights utilityScores = XFin s) ->
  totalScoreOf option (criteria ++ [criterion]) weights utilityScores
  = totalScoreOf option criteria weights utilityScores.
Proof.
  intros Hlen (u & Hu) (s & Hs). rewrite totalScoreOf_spec in Hs.
  rewrite !totalScoreOf_spec. unfold specScore, sumArray in *.
  rewrite imap_app, fold_left_app, Hs. cbn [imap fold_left].
  rewrite Nat.add_0_r, Hu, (lookup_ge_None_2 weights) by done.
  change (orZero' None) with (@zero xnum _).
  rewrite xzero, xmul_fin, xadd_fin. apply (f_equal XFin). ring.
Qed.
End ExactScoreBounds.

(** * The report and the effect that keeps the weights *)

Section TopRanked.
Lemma xleb_refl (a : xnum) : isNaN a = false -> leb a a = true.
Proof.
  destruct a as [|s|q]; [done| |].
  - by destruct s.
  - intros _. apply xleb_fin. apply Qcle_refl.
Qed.

Lemma xeqb_refl (a : xnum) : isNaN a = false -> eqb a a = true.
Proof.
  destruct a as [|s|q]; [done| |].
  - by destruct s.
  - intros _. simpl. by apply qeqb_eq.
Qed.

(** The head of a ranking has the greatest score, and it is the
    first of the options with that score. *)
Lemma ranks_head (enriched ranked : list (ScoredOption xnum))
    (best : ScoredOption xnum) :
  ranks enriched ranked -> Forall scored enriched ->
  ranked !! 0%nat = Some best ->
  best ∈ enriched
  /\ (forall a, a ∈ enriched -> leb (so_score a) (so_score best) = true)
  /\ head (filter (fun a => eqb (so_score a) (so_score best) = true) enriched)
     = Some best.
Proof.
  intros (Hperm & Hsorted & Hstable) Hscored Hhead.
  destruct ranked as [|b tail]; [done|]. injection Hhead as ->.
  assert (Hin : best ∈ enriched) by (rewrite <- Hperm; by left).
  rewrite Forall_forall in Hscored.
  pose proof (Hscored best Hin) as Hbest. unfold scored in Hbest.
  split; [done|]. split.
  - intros a Ha. rewrite <- Hperm in Ha.
    apply elem_of_cons in Ha as [->|Ha]; [by apply xleb_refl|].
    apply StronglySorted_inv in Hsorted as [_ Hall].
    rewrite Forall_forall in Hall. by apply Hall.
  - rewrite <- (Hstable (so_score best) Hbest).
    rewrite filter_cons_True by (by apply xeqb_refl). done.
Qed.
End TopRanked.

Section IntensityExact.
Local Open Scope Qc_scope.

Lemma intensity_exact (q : Qc) :
  0 < q ->
  intensity (XFin q)
  = XFin ((if Qclt_le_dec q 1 then 1 / q - 1 else q - 1) / ofZ 8 * ofZ 50).
Proof.
  intros Hq. unfold intensity.
  assert (H8 : ofZ 8 <> 0) by done.
  destruct (Qclt_le_dec q 1) as [Hlt|Hge].
  - rewrite (proj2 (xgeb_one_false q) Hlt), xone.
    rewrite xdiv_fin by (by apply Qclt_nonzero).
    rewrite xsub_fin, !lit_int, xdiv_fin by done. by rewrite xmul_fin.
  - rewrite (proj2 (xgeb_one q) Hge), xone.
    rewrite xsub_fin, !lit_int, xdiv_fin by done. by rewrite xmul_fin.
Qed.

(** A judgment and its reciprocal are drawn with the same
    intensity. *)
Lemma intensity_reciprocal (q : Qc) :
  0 < q -> intensity (XFin (1 / q)) = intensity (XFin q).
Proof.
  intros Hq.
  assert (Hinv : 0 < 1 / q) by (apply Qcdiv_pos; [reflexivity|done]).
  rewrite !intensity_exact by done. apply (f_equal XFin).
  f_equal. f_equal. rewrite Qcinv_involutive by (by apply Qclt_nonzero).
  destruct (Qclt_le_dec q 1) as [Hlt|Hge].
  - pose proof (Qcdiv_gt_1 q Hq Hlt) as Hgt.
    destruct (Qclt_le_dec (1 / q) 1) as [Hlt'|_]; [|done].
    exfalso. clear -Hgt Hlt'. qc_to_q. lra.
  - destruct (Qcle_lt_or_eq _ _ Hge) as [Hgt|<-].
    + pose proof (Qcdiv_lt_1 q Hgt) as Hlt.
      by destruct (Qclt_le_dec (1 / q) 1) as [_|Hge']; [|apply Qclt_not_le in Hlt].
    + assert (1 / 1 = 1) as -> by (apply Qc_is_canon; reflexivity).
      by destruct (Qclt_le_dec 1 1).
Qed.

(** For the values of the slider the intensity is a width between 0
    and 50 percent. *)
Lemma intensity_range (q : Qc) :
  1 / ofZ 9 <= q -> q <= ofZ 9 ->
  exists r, intensity (XFin q) = XFin r /\ 0 <= r /\ r <= ofZ 50.
Proof.
  intros Hlo Hhi.
  assert (H19 : 0 < 1 / ofZ 9) by (apply Qcdiv_pos; reflexivity).
  assert (Hq : 0 < q) by (by eapply Qclt_le_trans).
  rewrite intensity_exact by done. eexists. split; [done|].
  assert (Hbound : 0 <= (if Qclt_le_dec q 1 then 1 / q - 1 else q - 1)
                   /\ (if Qclt_le_dec q 1 then 1 / q - 1 else q - 1) <= ofZ 8).
  { destruct (Qclt_le_dec q 1) as [Hlt|Hge].
    - pose proof (Qcdiv_gt_1 q Hq Hlt) as Hgt.
      assert (Hle9 : 1 / q <= ofZ 9).
      { apply (Qcmult_lt_0_le_reg_r _ _ q Hq).
        replace (1 / q * q) with 1 by (field; by apply Qclt_nonzero).
        apply (Qcmult_le_compat_r _ _ (ofZ 9)) in Hlo; [|done].
        replace (1 / ofZ 9 * ofZ 9) with 1 in Hlo by (field; done).
        by rewrite Qcmult_comm. }
      assert (H81 : ofZ 8 = ofZ 9 - 1) by (apply Qc_is_canon; reflexivity).
      rewrite H81. clear -Hgt Hle9. split; qc_to_q; lra.
    - assert (H81 : ofZ 8 = ofZ 9 - 1) by (apply Qc_is_canon; reflexivity).
      rewrite H81. clear -Hge Hhi. split; qc_to_q; lra. }
  destruct Hbound as [Hb0 Hb8].
  set (b := if Qclt_le_dec q 1 then 1 / q - 1 else q - 1) in *. clearbody b.
  assert (H50 : ofZ 50 = ofZ 8 * (ofZ 50 / ofZ 8)) by (field; done).
  assert (Hc : 0 <= ofZ 50 / ofZ 8) by done.
  replace (b / ofZ 8 * ofZ 50) with (b * (ofZ 50 / ofZ 8)) by (field; done).
  split.
  - rewrite <- (Qcmult_0_l (ofZ 50 / ofZ 8)). by apply Qcmult_le_compat_r.
  - rewrite H50 at 2. by apply Qcmult_le_compat_r.
Qed.
End IntensityExact.

Section WeightsEffect.
Context {num : Type} `{JSNumber num}.

(** The effect computes the weights only when the matrix has one row
    for every criterion; then there is one weight for every
    criterion; otherwise the weights stay what they were. *)
Lemma App_weightsEffect_result (criteria : list Item) (pairwiseMatrix : matrix num)
    (state : list num * Consistency num) :
  let state' := App_weightsEffect criteria pairwiseMatrix state in
  (criteria <> [] /\ length pairwiseMatrix = length criteria
   /\ state' = (calculateWeights (normalizeMatrix pairwiseMatrix),
                checkConsistency pairwiseMatrix)
   /\ length state'.1 = length criteria)
  \/ ((criteria = [] \/ length pairwiseMatrix <> length criteria)
      /\ state' = state).
Proof.
  unfold App_weightsEffect.
  destruct (Nat.ltb_spec 0 (length criteria)) as [Hpos|Hzero]; simpl.
  - destruct (Nat.eqb_spec (length pairwiseMatrix) (length criteria)) as [Heq|Hne].
    + left. split; [intros ->; simpl in Hpos; lia|]. split; [done|]. split; [done|].
      simpl. by rewrite length_invokedWeights.
    + right. split; [by right|done].
  - right. split; [|done]. left. destruct criteria; [done|simpl in Hzero; lia].
Qed.

(** After a criterion was added, the matrix has a row too few: the
    effect leaves the weights, and a change of a judgment of the new
    criterion throws. *)
Lemma addCriterion_unsynchronized (newCriterion : string) (criteria : list Item)
    (pairwiseMatrix : matrix num) (state : list num * Consistency num)
    (i : nat) (v : num) :
  length pairwiseMatrix = length criteria ->
  trim newCriterion <> EmptyString ->
  trim newCriterion ∉ (item_id <$> criteria) ->
  let criteria' := (addCriterion newCriterion criteria).1 in
  length criteria' = S (length criteria)
  /\ App_weightsEffect criteria' pairwiseMatrix state = state
  /\ handleComparisonChange pairwiseMatrix i (length criteria) v = None.
Proof.
  intros Hlen Hne Hnew criteria'. unfold criteria'.
  rewrite addCriterion_eq, decide_True by done. simpl.
  split; [rewrite length_app; simpl; lia|]. split.
  - unfold App_weightsEffect. rewrite length_app. simpl.
    destruct (Nat.eqb_spec (length pairwiseMatrix) (length criteria + 1)) as [|_];
      [lia|]. by rewrite andb_false_r.
  - apply handleComparisonChange_None. right. lia.
Qed.
End WeightsEffect.

Section AppMemo.
Context {num : Type} {JN : JSNumber num} {laws : NumberLaws num}.

(** With numeric tables the memo of [App] catches no exception: it
    lists one score for every option, in the order of the options. *)
Lemma App_finalScores_options (inherited : string -> option string) (host : Host num)
    (criteria options : list Item) (pairwiseMatrix : matrix num)
    (utilityFunctions : gmap string (UtilityFunction num)) (g : globals host) :
  numericTables utilityFunctions -> criteria <> [] ->
  optionId <$> (App_finalScores inherited host criteria options pairwiseMatrix
                  utilityFunctions g).1
  = item_id <$> options.
Proof using laws.
  intros Hnum Hcriteria. unfold App_finalScores.
  destruct criteria as [|c criteria]; [done|]. simpl length. simpl Nat.eqb.
  destruct options as [|o options]; [done|]. simpl length. simpl Nat.eqb. cbn [orb].
  rewrite calculateOptionValues_loop.
  destruct (scoringLoop_total host (idProperty inherited) (o :: options)
              (c :: criteria) utilityFunctions g Hnum) as (grid & g' & -> & _).
  simpl fst. rewrite calculateFinalScores_spec, <- list_fmap_compose.
  by apply list_fmap_ext.
Qed.
End AppMemo.

(** * Properties of the weights *)

Lemma initialPairwiseMatrix_square :
  square 4 (initialPairwiseMatrix : matrix xnum).
Proof. split; [reflexivity|]. repeat constructor. Defined.







(** The matrix of the ratios of the priorities 1, 2 and 4. *)
Definition ratioMatrix : matrix xnum :=
  let a (i : nat) : Qc := ofZ (2 ^ Z.of_nat i) in
  (fun i => (fun j => XFin (a i / a j)) <$> seq 0 3) <$> seq 0 3.

Lemma ratioMatrix_consistent :
  let a (i : nat) : Qc := ofZ (2 ^ Z.of_nat i) in
  (forall i, (i < 3)%nat -> (0 < a i)%Qc)
  /\ forall i j, (i < 3)%nat -> (j < 3)%nat -> entry ratioMatrix i j = XFin (a i / a j).
Proof.
  split.
  - intros i Hi. destruct i as [|[|[|i]]]; [reflexivity..|lia].
  - intros i j Hi Hj.
    destruct i as [|[|[|i]]]; [| | |lia];
      (destruct j as [|[|[|j]]]; [| | |lia]); reflexivity.
Defined.





(** * Properties of the interpolation *)


Lemma boundaryPoints_range (p : Qc * Qc) :
  p ∈ boundaryPoints -> (ofZ 0 <= p.2)%Qc /\ (p.2 <= ofZ 100)%Qc.
Proof.
  intros Hp. apply list_elem_of_In in Hp. simpl in Hp.
  destruct Hp as [<-|[<-|[]]]; split; discriminate.
Defined.




(** X8.  In binary64 and in exact arithmetic alike, the interpolation
    returns a result, and throws no [TypeError], when the target is a
    number and the values of the points are numbers. *)
Theorem interpolate_defined_on_numbers (num : Type) (JN : JSNumber num)
    (laws : NumberLaws num) (x : num) (points : list (Point num)) :
  isNaN x = false -> numericPoints points -> is_Some (interpolate x points).
Proof. apply interpolate_total. Qed.

Lemma interpolate_defined_on_numbers_witness :
  is_Some (interpolate (lit 3 0 : float) [point 10 1; point 0 0; point 5 7]).
Proof.
  apply (interpolate_defined_on_numbers float F64 F64_laws); [reflexivity|].
  repeat constructor.
Defined.

(** X9.  With [NaN] for a target and two points or more, the interpolation
    throws a [TypeError]: it reads the point before the first one.
    Both scoring loops call it only behind [!isNaN(value)]. *)
Theorem interpolate_NaN_throws (num : Type) (JN : JSNumber num)
    (laws : NumberLaws num) (x : num) (points : list (Point num)) :
  isNaN x = true -> (2 <= length points)%nat -> interpolate x points = None.
Proof. apply interpolate_NaN. Qed.

Lemma interpolate_NaN_throws_witness :
  interpolate (NaN : float) [point 0 0; point 100 100] = None.
Proof.
  apply (interpolate_NaN_throws float F64 F64_laws); [reflexivity|simpl; lia].
Defined.

(** * Properties of the scoring loops *)


Lemma initialUtilityFunctions_numeric :
  numericFunctions (initialUtilityFunctions : gmap string (UtilityFunction float)).
Proof.
  intros id func Hfunc.
  assert (Hall : map_Forall (fun _ f => numericFunction f)
                   (initialUtilityFunctions : gmap string (UtilityFunction float))).
  { unfold initialUtilityFunctions. simpl.
    repeat (apply map_Forall_insert_2; [split; repeat constructor|]).
    apply map_Forall_empty. }
  by apply (Hall id func).
Defined.


(** X11.  In binary64 and in exact arithmetic alike, with numeric tables and
    at least one criterion the [finalScores] memo of [App] catches no
    exception: it lists one score for every option, in the order of
    the options. *)
Theorem App_finalScores_one_per_option (num : Type) (JN : JSNumber num)
    (laws : NumberLaws num) (inherited : string -> option string) (host : Host num)
    (criteria options : list Item) (pairwiseMatrix : matrix num)
    (utilityFunctions : gmap string (UtilityFunction num)) (g : globals host) :
  numericTables utilityFunctions -> criteria <> [] ->
  optionId <$> (App_finalScores inherited host criteria options pairwiseMatrix
                  utilityFunctions g).1
  = item_id <$> options.
Proof. apply App_finalScores_options. Qed.

Lemma App_finalScores_one_per_option_witness :
  optionId <$> (App_finalScores String_prototype (RefHost.host (num := float))
                  initialCriteria initialOptions initialPairwiseMatrix
                  initialUtilityFunctions ∅).1
  = item_id <$> initialOptions.
Proof.
  apply (App_finalScores_one_per_option float F64 F64_laws); [|discriminate].
  apply numericFunctions_tables, initialUtilityFunctions_numeric.
Defined.





(** X14.  After [addCriterion] has added a criterion to a state whose matrix
    had one row for every criterion, the matrix has a row too few: the
    effect of [App] leaves the weights and the consistency as they
    were, and a change of a judgment of the new criterion throws. *)
Theorem added_criterion_unsynchronized (num : Type) (JN : JSNumber num)
    (newCriterion : string) (criteria : list Item) (pairwiseMatrix : matrix num)
    (state : list num * Consistency num) (i : nat) (v : num) :
  length pairwiseMatrix = length criteria ->
  trim newCriterion <> EmptyString ->
  trim newCriterion ∉ (item_id <$> criteria) ->
  length (addCriterion newCriterion criteria).1 = S (length criteria)
  /\ App_weightsEffect (addCriterion newCriterion criteria).1 pairwiseMatrix state
     = state
  /\ handleComparisonChange pairwiseMatrix i (length criteria) v = None.
Proof. apply addCriterion_unsynchronized. Qed.

Lemma added_criterion_unsynchronized_witness :
  length (addCriterion " Comfort " initialCriteria).1 = S (length initialCriteria)
  /\ App_weightsEffect (addCriterion " Comfort " initialCriteria).1
       (initialPairwiseMatrix : matrix float)
       ([], {| cr := zero; isConsistent := true |})
     = ([], {| cr := zero; isConsistent := true |})
  /\ handleComparisonChange (initialPairwiseMatrix : matrix float) 0
       (length initialCriteria) (lit 3 0) = None.
Proof.
  apply added_criterion_unsynchronized.
  - reflexivity.
  - discriminate.
  - intros Hin. apply list_elem_of_In in Hin. simpl in Hin.
    destruct Hin as [|[|[|[|[]]]]]; discriminate.
Defined.

(** * Properties of the slider and the mutator *)



(** X16.  In binary64, for each of the seventeen positions of the slider,
    the position [ComparisonSlider] shows for the matrix value
    [handleSliderChange] computes is that position. *)
Theorem slider_keeps_position (position : string) :
  position ∈ sliderPositions ->
  eqb (sliderValue (handleSliderChange position : float))
      (parseFloat (VString position)) = true.
Proof. apply sliderValue_handleSliderChange_F64. Qed.

Lemma slider_keeps_position_witness :
  eqb (sliderValue (handleSliderChange "5" : float)) (parseFloat (VString "5")) = true.
Proof.
  apply slider_keeps_position. apply list_elem_of_In. simpl. tauto.
Defined.

(** X17.  In exact arithmetic, for a position between -8 and 8 the matrix
    value [handleSliderChange] computes is a real between 1/9 and
    9. *)
Theorem slider_values_in_range (position : string) (s : Qc) :
  parseFloat (VString position) = XFin s ->
  (- ofZ 8 <= s)%Qc -> (s <= ofZ 8)%Qc ->
  exists q, handleSliderChange position = XFin q
            /\ (1 / ofZ 9 <= q)%Qc /\ (q <= ofZ 9)%Qc.
Proof.
  intros Hs Hlo Hhi. rewrite handleSliderChange_eq, Hs.
  by apply newMatrixValue_range.
Qed.

Lemma slider_values_in_range_witness :
  exists q, handleSliderChange "-3" = XFin q
            /\ (1 / ofZ 9 <= q)%Qc /\ (q <= ofZ 9)%Qc.
Proof.
  apply (slider_values_in_range "-3" (- ofZ 3)%Qc).
  - vm_compute. f_equal.
  - discriminate.
  - discriminate.
Defined.

(** X18.  The mutator throws a [TypeError] exactly when [i] or [j] is no
    row of the matrix. *)
Theorem handleComparisonChange_throws (num : Type) (JN : JSNumber num)
    (m : matrix num) (i j : nat) (v : num) :
  handleComparisonChange m i j v = None
  <-> (length m <= i)%nat \/ (length m <= j)%nat.
Proof. apply handleComparisonChange_None. Qed.

(** X19.  A second change of the same judgment replaces the first: the
    matrix is the one a single change to the second value gives. *)
Theorem handleComparisonChange_last_wins (num : Type) (JN : JSNumber num)
    (m m1 : matrix num) (i j : nat) (v1 v2 : num) :
  i <> j ->
  handleComparisonChange m i j v1 = Some m1 ->
  handleComparisonChange m1 i j v2 = handleComparisonChange m i j v2.
Proof. apply handleComparisonChange_twice. Qed.

Lemma handleComparisonChange_last_wins_witness :
  handleComparisonChange
    (default [] (handleComparisonChange (initialPairwiseMatrix : matrix float) 0 1
                   (lit 3 0))) 0 1 (lit 5 0)
  = handleComparisonChange (initialPairwiseMatrix : matrix float) 0 1 (lit 5 0).
Proof.
  apply (handleComparisonChange_last_wins float F64 initialPairwiseMatrix _ 0 1 (lit 3 0));
    [lia|reflexivity].
Defined.

(** * Properties of the lists of Step 1 *)

(** X20.  The handlers of Step 1 keep the ids of a list distinct: adding,
    removing and dragging an item. *)
Theorem Step1_ids_unique (criteria options : list Item) (name : string) (index : nat)
    (result : DropResult) (criteria' options' : list Item) :
  uniqueIds criteria -> uniqueIds options ->
  onDragEnd result criteria options = Some (criteria', options') ->
  uniqueIds (addCriterion name criteria).1
  /\ uniqueIds (addOption name options).1
  /\ uniqueIds (removeCriterion index criteria)
  /\ uniqueIds (removeOption index options)
  /\ uniqueIds criteria' /\ uniqueIds options'.
Proof.
  intros Hc Ho Hdrag.
  split; [by apply addCriterion_unique|].
  split; [rewrite addOption_eq; by apply addCriterion_unique|].
  split; [by apply removeCriterion_unique|].
  split; [by apply removeCriterion_unique|].
  unfold onDragEnd in Hdrag.
  destruct (destination_index result) as [destination|]; [|by injection Hdrag as <- <-].
  destruct (String.eqb (drop_type result) "CRITERIA").
  - destruct (criteria !! source_index result) as [x|] eqn:Ex; [|done].
    simpl in Hdrag. injection Hdrag as <- <-. split; [|done].
    unfold uniqueIds. by rewrite (spliceIn_delete_perm criteria _ _ x Ex).
  - destruct (options !! source_index result) as [x|] eqn:Ex; [|done].
    simpl in Hdrag. injection Hdrag as <- <-. split; [done|].
    unfold uniqueIds. by rewrite (spliceIn_delete_perm options _ _ x Ex).
Qed.

Lemma initialItems_unique : uniqueIds initialCriteria /\ uniqueIds initialOptions.
Proof.
  split; apply NoDup_ListNoDup; simpl; repeat constructor; simpl; intuition discriminate.
Defined.

Definition dragFirstToThird : DropResult :=
  {| source_index := 0; destination_index := Some 2%nat; drop_type := "CRITERIA" |}.

Lemma Step1_ids_unique_witness :
  uniqueIds (addCriterion "Comfort" initialCriteria).1
  /\ uniqueIds (addOption "Comfort" initialOptions).1
  /\ uniqueIds (removeCriterion 1 initialCriteria)
  /\ uniqueIds (removeOption 1 initialOptions)
  /\ uniqueIds (default ([], []) (onDragEnd dragFirstToThird initialCriteria
                                   initialOptions)).1
  /\ uniqueIds (default ([], []) (onDragEnd dragFirstToThird initialCriteria
                                   initialOptions)).2.
Proof.
  destruct initialItems_unique as [Hc Ho].
  apply (Step1_ids_unique initialCriteria initialOptions "Comfort" 1 dragFirstToThird);
    [exact Hc|exact Ho|reflexivity].
Defined.

(** X21.  A drag that ends on a list moves the dragged item to the position
    where it was dropped (the end of the list when dropped beyond it),
    keeps the other items in their order, and leaves the other list
    alone; a drag that ends nowhere changes nothing. *)
Theorem onDragEnd_moves_item (result : DropResult) (criteria options : list Item)
    (item : Item) :
  (if String.eqb (drop_type result) "CRITERIA" then criteria else options)
    !! source_index result = Some item ->
  let list := if String.eqb (drop_type result) "CRITERIA" then criteria else options in
  match destination_index result with
  | None => onDragEnd result criteria options = Some (criteria, options)
  | Some destination =>
      exists items,
        onDragEnd result criteria options
        = Some (if String.eqb (drop_type result) "CRITERIA"
                then (items, options) else (criteria, items))
        /\ items ≡ₚ list
        /\ items !! (destination `min` (length list - 1))%nat = Some item
        /\ delete (destination `min` (length list - 1))%nat items
           = delete (source_index result) list
  end.
Proof.
  intros Hitem list. fold list in Hitem. unfold onDragEnd. fold list.
  destruct (destination_index result) as [destination|]; [|done].
  rewrite Hitem. simpl.
  exists (spliceIn destination item (delete (source_index result) list)).
  split; [done|]. split; [by apply spliceIn_delete_perm|].
  assert (Hlen : length (delete (source_index result) list) = (length list - 1)%nat).
  { apply length_delete. by eexists. }
  rewrite <- Hlen. split; [apply spliceIn_lookup|apply spliceIn_delete].
Qed.

Lemma onDragEnd_moves_item_witness :
  exists items,
    onDragEnd dragFirstToThird initialCriteria initialOptions
    = Some (items, initialOptions)
    /\ items ≡ₚ initialCriteria
    /\ items !! 2%nat = Some (item "Risk")
    /\ delete 2%nat items = delete 0%nat initialCriteria.
Proof.
  apply (onDragEnd_moves_item dragFirstToThird initialCriteria initialOptions
           (item "Risk")).
  reflexivity.
Defined.

(** X22.  The names [addCriterion] stores are trimmed: when every listed id
    is a name that is not empty and has no white space at either end,
    so is every id after [addCriterion]; and a text that trims to a
    listed id changes nothing. *)
Theorem addCriterion_names_trimmed (newCriterion : string) (criteria : list Item)
    (criterion : Item) :
  namedItems criteria -> criterion ∈ criteria ->
  namedItems (addCriterion newCriterion criteria).1
  /\ (trim newCriterion = item_id criterion ->
      addCriterion newCriterion criteria = (criteria, newCriterion)).
Proof.
  intros Hnamed Hin. split; [by apply addCriterion_named|].
  intros Heq. rewrite addCriterion_eq. rewrite decide_False; [done|].
  intros [_ Hnin]. apply Hnin. rewrite Heq. by apply list_elem_of_fmap_2.
Qed.

Lemma initialCriteria_named : namedItems initialCriteria.
Proof.
  repeat constructor; simpl; try (by eexists _, _); by eexists.
Defined.

Lemma addCriterion_names_trimmed_witness :
  namedItems (addCriterion "  HW Costs " initialCriteria).1
  /\ (trim "  HW Costs " = item_id (item "HW Costs") ->
      addCriterion "  HW Costs " initialCriteria = (initialCriteria, "  HW Costs "%string)).
Proof.
  apply addCriterion_names_trimmed; [apply initialCriteria_named|].
  apply list_elem_of_In. simpl. tauto.
Defined.

(** * Properties of the handlers of Steps 3 and 4 *)

(** X23.  In binary64 and in exact arithmetic alike, the handlers of Step 3
    keep the tables numeric: when no coordinate of a point and no
    utility of a level is NaN, none is after a point or a level was
    added, updated from the text of an input, or removed. *)
Theorem Step3_keeps_tables_numeric (num : Type) (JN : JSNumber num)
    (laws : NumberLaws num)
    (utilityFunctions utilityFunctions' : gmap string (UtilityFunction num))
    (criterionId : string) (index : nat) (field value : string) :
  isNaN (lit 50 0 : num) = false ->
  numericFunctions utilityFunctions ->
  addPoint criterionId utilityFunctions = Some utilityFunctions'
  \/ addQualitativeLevel criterionId utilityFunctions = Some utilityFunctions'
  \/ updatePoint criterionId index field value utilityFunctions = Some utilityFunctions'
  \/ updateQualitativeLevel criterionId index field value utilityFunctions
     = Some utilityFunctions'
  \/ removePoint criterionId index utilityFunctions = Some utilityFunctions'
  \/ removeQualitativeLevel criterionId index utilityFunctions = Some utilityFunctions' ->
  numericFunctions utilityFunctions' /\ numericTables utilityFunctions'.
Proof.
  intros Hfifty Hnum Hstep.
  assert (Hnum' : numericFunctions utilityFunctions').
  { destruct Hstep as [Hs|[Hs|[Hs|[Hs|[Hs|Hs]]]]].
    - by eapply addPoint_numeric.
    - by eapply addQualitativeLevel_numeric.
    - by eapply updatePoint_numeric.
    - by eapply updateQualitativeLevel_numeric.
    - by eapply removePoint_numeric.
    - by eapply removeQualitativeLevel_numeric. }
  split; [done|]. by apply numericFunctions_tables.
Qed.

Lemma Step3_keeps_tables_numeric_witness :
  let utilityFunctions' :=
    default ∅ (updatePoint "HW Costs" 1 "x" "abc"
                 (initialUtilityFunctions : gmap string (UtilityFunction float))) in
  numericFunctions utilityFunctions' /\ numericTables utilityFunctions'.
Proof.
  apply (Step3_keeps_tables_numeric float F64 F64_laws initialUtilityFunctions _
           "HW Costs" 1 "x" "abc");
    [reflexivity|apply initialUtilityFunctions_numeric|].
  right. right. left. reflexivity.
Defined.

(** X24.  [updatePoint] throws a [TypeError] only when the criterion has no
    function or its function has no point at the index; otherwise it
    stores [parseFloat(value) || 0] in the named coordinate of that
    point and leaves the other coordinate, the other points, the other
    fields of the function and the functions of the other criteria as
    they were. *)
Theorem updatePoint_changes_one_coordinate (num : Type) (JN : JSNumber num)
    (criterionId : string) (index : nat) (field value : string)
    (utilityFunctions : gmap string (UtilityFunction num)) :
  match updatePoint criterionId index field value utilityFunctions with
  | None =>
      forall func, utilityFunctions !! criterionId = Some func ->
                   (length (points func) <= index)%nat
  | Some utilityFunctions' =>
      exists func point,
        utilityFunctions !! criterionId = Some func
        /\ points func !! index = Some point
        /\ (forall id, id <> criterionId ->
                       utilityFunctions' !! id = utilityFunctions !! id)
        /\ exists func',
             utilityFunctions' !! criterionId = Some func'
             /\ criterionType func' = criterionType func
             /\ mode func' = mode func
             /\ formulaString func' = formulaString func
             /\ qualitativeLevels func' = qualitativeLevels func
             /\ length (points func') = length (points func)
             /\ (forall k, k <> index -> points func' !! k = points func !! k)
             /\ exists point',
                  points func' !! index = Some point'
                  /\ (field = "x"%string ->
                      pt_x point' = orZero (parseFloat (VString value))
                      /\ pt_y point' = pt_y point)
                  /\ (field = "y"%string ->
                      pt_y point' = orZero (parseFloat (VString value))
                      /\ pt_x point' = pt_x point)
  end.
Proof. apply updatePoint_result. Qed.


(** * Properties of the report *)

(** X26.  In exact arithmetic, the option the report recommends is the head
    of the ranking of [App]: it has the greatest score, and it is the
    first option of the list with that score. *)
Theorem recommendation_is_top_ranked (options : list Item)
    (finalScores : list (FinalScore xnum)) :
  options <> [] -> finalScores <> [] ->
  exists best,
    App_sortedOptions options finalScores !! 0%nat = Some best
    /\ recommendation (App_sortedOptions options finalScores)
       = (if String.eqb (content (so_option best)) "" then "N/A"%string
          else content (so_option best))
    /\ best ∈ App_enriched options finalScores
    /\ (forall a, a ∈ App_enriched options finalScores ->
                  leb (so_score a) (so_score best) = true)
    /\ head (filter (fun a => eqb (so_score a) (so_score best) = true)
               (App_enriched options finalScores))
       = Some best.
Proof.
  intros Hoptions Hscores.
  pose proof (App_enriched_scored options finalScores) as Hscored.
  pose proof (Array_sort_ranks _ Hscored) as Hranks.
  rewrite <- App_sortedOptions_eq in Hranks by done.
  destruct (App_sortedOptions options finalScores) as [|best tail] eqn:Es.
  { destruct Hranks as [Hperm _]. apply Permutation_nil_l in Hperm.
    unfold App_enriched in Hperm. by destruct options. }
  exists best. split; [done|]. split; [by unfold recommendation|].
  by apply (ranks_head _ (best :: tail)).
Qed.

Lemma recommendation_is_top_ranked_witness :
  let options := [item "A"; item "B"; item "C"] in
  let finalScores : list (FinalScore xnum) :=
    [ {| optionId := "A"; score := XFin (ofZ 50) |};
      {| optionId := "B"; score := XFin (ofZ 70) |};
      {| optionId := "C"; score := XFin (ofZ 70) |} ] in
  exists best,
    App_sortedOptions options finalScores !! 0%nat = Some best
    /\ recommendation (App_sortedOptions options finalScores)
       = (if String.eqb (content (so_option best)) "" then "N/A"%string
          else content (so_option best))
    /\ best ∈ App_enriched options finalScores
    /\ (forall a, a ∈ App_enriched options finalScores ->
                  leb (so_score a) (so_score best) = true)
    /\ head (filter (fun a => eqb (so_score a) (so_score best) = true)
               (App_enriched options finalScores))
       = Some best.
Proof. apply recommendation_is_top_ranked; discriminate. Defined.



(** X28.  In exact arithmetic, for a judgment between 1/9 and 9 the
    intensity the report draws is a width between 0 and 50 percent. *)
Theorem intensity_in_range (q : Qc) :
  (1 / ofZ 9 <= q)%Qc -> (q <= ofZ 9)%Qc ->
  exists r, intensity (XFin q) = XFin r /\ (0 <= r)%Qc /\ (r <= ofZ 50)%Qc.
Proof. apply intensity_range. Qed.

Lemma intensity_in_range_witness :
  exists r, intensity (XFin (ofZ 7)) = XFin r /\ (0 <= r)%Qc /\ (r <= ofZ 50)%Qc.
Proof. apply intensity_in_range; discriminate. Defined.
